(** * ikonetU-admin: the API client, the presence hook and the session

    A shallow embedding of three source files of the admin dashboard:

    - the API client ([toCamelCase], [toSnakeCase], [keysToCamel],
      [keysToSnake], [apiRequest], [apiFetch]);
    - the presence hook [useGlobalPresence] (WebSocket handlers, timers,
      listener registries);
    - the authentication provider and the protected route ([AuthProvider],
      [ProtectedRoute]).

    How the JavaScript is read:

    - strings are [string] (a sequence of character codes); the two regular
      expressions of the source only ever match ASCII letters, every other
      code is copied;
    - a plain object is the ordered record of its own properties, and
      [acc[key] = v] is an update of that record;
    - the hook is an event loop over one state: the browser's clock, storage,
      pending timers and sockets, React's state, and the refs.  Closures are
      named by what they captured ([heartbeat ws], [reconnect token],
      [typing_expiry match_id user_id]); an event is one callback run to
      completion. *)

From Stdlib Require Import ZArith Ascii String List Bool Lia.
From stdpp Require Import gmap strings list fin_maps.

(* ===================================================================== *)
(** ** Characters *)
(* ===================================================================== *)

Module CaseConv.

(** The character class [[a-z]]. *)
Definition is_lower (c : ascii) : bool :=
  ((97 <=? N_of_ascii c) && (N_of_ascii c <=? 122))%N.

(** The character class [[A-Z]]. *)
Definition is_upper (c : ascii) : bool :=
  ((65 <=? N_of_ascii c) && (N_of_ascii c <=? 90))%N.

(** [letter.toUpperCase()] on a one-character string; the source applies it
    to characters matched by [[a-z]] only. *)
Definition toUpperCase (c : ascii) : ascii :=
  if is_lower c then ascii_of_N (N_of_ascii c - 32) else c.

(** [letter.toLowerCase()] on a one-character string; the source applies it
    to characters matched by [[A-Z]] only. *)
Definition toLowerCase (c : ascii) : ascii :=
  if is_upper c then ascii_of_N (N_of_ascii c + 32) else c.

Definition underscore : ascii := "_"%char.

(** [str.replace(/_([a-z])/g, (_, letter) => letter.toUpperCase())]:
    a left-to-right scan; at an underscore followed by a lowercase letter
    both characters are consumed and the capital is emitted, any other
    character is copied. *)
Fixpoint toCamelCase (str : string) : string :=
  match str with
  | EmptyString => EmptyString
  | String c rest =>
      if Ascii.eqb c underscore then
        match rest with
        | String letter rest' =>
            if is_lower letter
            then String (toUpperCase letter) (toCamelCase rest')
            else String c (toCamelCase rest)
        | EmptyString => String c EmptyString
        end
      else String c (toCamelCase rest)
  end.

(** [str.replace(/[A-Z]/g, letter => `_${letter.toLowerCase()}`)]. *)
Fixpoint toSnakeCase (str : string) : string :=
  match str with
  | EmptyString => EmptyString
  | String c rest =>
      if is_upper c
      then String underscore (String (toLowerCase c) (toSnakeCase rest))
      else String c (toSnakeCase rest)
  end.

(** A lowercase ASCII word: one or more characters of [[a-z]]. *)
Definition is_word (w : string) : bool :=
  negb (String.eqb w "") && forallb is_lower (list_ascii_of_string w).

(** Words joined by single underscores: a key in underscore casing. *)
Definition join_words (ws : list string) : string := String.concat "_" ws.

(** A key in word-boundary casing: it starts with a lowercase letter and
    holds ASCII letters only, so every capital stands inside the key, where
    a new word starts. *)
Definition is_letter (c : ascii) : bool := is_lower c || is_upper c.

Definition camel_key (k : string) : bool :=
  match k with
  | EmptyString => false
  | String c rest => is_lower c && forallb is_letter (list_ascii_of_string rest)
  end.

(** No character of [[A-Z]] occurs in the string. *)
Definition no_upper (s : string) : bool :=
  forallb (fun c => negb (is_upper c)) (list_ascii_of_string s).

(** No underscore occurs in the string. *)
Definition no_underscore (s : string) : bool :=
  forallb (fun c => negb (Ascii.eqb c underscore)) (list_ascii_of_string s).

End CaseConv.

(* ===================================================================== *)
(** ** JavaScript values and recursive key conversion *)
(* ===================================================================== *)

Module Json.

#[local] Set Warnings "-register-all".

(** The values [keysToCamel] and [keysToSnake] receive ([any]).  A plain
    object is the ordered record of its own enumerable properties, in the
    order [Object.keys] lists them; [VOther] stands for every object whose
    constructor is not [Object] (a [Date], a class instance, a function):
    the source returns those as they are.  Numbers are only copied and
    tested for truthiness, integers stand for them.

    Two names are special in the source and bound what [VObj] and
    [obj_set] stand for.  The test [obj.constructor === Object] of the two
    walks reads an own property named [constructor] when there is one, and
    then fails: [VObj props] stands for an object that passes the test, so
    for one without such a property.  And [acc[key] = v] under the name
    [__proto__] sets the prototype of [acc] and creates no property: for
    that name [obj_set] is not the assignment.  The predicates
    [plain_objects] and [snake_assignable] below say that a value stays
    within these bounds. *)
Inductive value : Type :=
  | VUndefined
  | VNull
  | VBool (b : bool)
  | VNum (n : Z)
  | VStr (s : string)
  | VArr (items : list value)
  | VObj (props : list (string * value))
  | VOther (tag : string).

Definition object : Type := list (string * value).

(** [Object.keys(obj)]. *)
Definition keys (o : object) : list string := map fst o.

(** [obj[key]] on a plain object, [None] when the property is absent
    (JavaScript reads [undefined] there). *)
Fixpoint obj_get (o : object) (key : string) : option value :=
  match o with
  | [] => None
  | (k, v) :: o' => if String.eqb k key then Some v else obj_get o' key
  end.

(** [acc[key] = v], for every name but [__proto__]: an existing property
    keeps its place and takes the new value, a new one is appended. *)
Fixpoint obj_set (acc : object) (key : string) (v : value) : object :=
  match acc with
  | [] => [(key, v)]
  | (k, w) :: acc' =>
      if String.eqb k key then (k, v) :: acc' else (k, w) :: obj_set acc' key v
  end.

(** [keysToCamel]: null and undefined first, then arrays ([obj.map]), then
    plain objects ([Object.keys(obj).reduce] from the empty object), then
    everything else unchanged. *)
Fixpoint keysToCamel (obj : value) : value :=
  match obj with
  | VNull | VUndefined => obj
  | VArr items => VArr (map keysToCamel items)
  | VObj props =>
      VObj (fold_left
              (fun acc kv =>
                 obj_set acc (CaseConv.toCamelCase (fst kv)) (keysToCamel (snd kv)))
              props [])
  | _ => obj
  end.

(** [keysToSnake]: the same walk with [toSnakeCase]. *)
Fixpoint keysToSnake (obj : value) : value :=
  match obj with
  | VNull | VUndefined => obj
  | VArr items => VArr (map keysToSnake items)
  | VObj props =>
      VObj (fold_left
              (fun acc kv =>
                 obj_set acc (CaseConv.toSnakeCase (fst kv)) (keysToSnake (snd kv)))
              props [])
  | _ => obj
  end.

(** JavaScript truthiness, as [||] tests it. *)
Definition truthy (v : value) : bool :=
  match v with
  | VUndefined | VNull => false
  | VBool b => b
  | VNum n => negb (n =? 0)%Z
  | VStr s => negb (String.eqb s "")
  | VArr _ | VObj _ | VOther _ => true
  end.

(** [a || b]. *)
Definition or_else (a b : value) : value := if truthy a then a else b.

(** Values that are neither arrays nor plain objects. *)
Definition is_leaf (v : value) : bool :=
  match v with
  | VArr _ | VObj _ => false
  | _ => true
  end.

(** Well-formed values: no object lists a property name twice. *)
Inductive wf : value -> Prop :=
  | wf_leaf v : is_leaf v = true -> wf v
  | wf_arr items : Forall wf items -> wf (VArr items)
  | wf_obj props :
      List.NoDup (keys props) -> Forall (fun kv => wf (snd kv)) props -> wf (VObj props).


(** The body of [Object.keys(obj).reduce(...)], from the accumulator
    [acc]: each property is assigned under its converted name. *)
Definition rebuild (conv : string -> string) (f : value -> value)
    (props acc : object) : object :=
  fold_left (fun acc kv => obj_set acc (conv (fst kv)) (f (snd kv))) props acc.

(** Induction over values, with the hypothesis available for every element
    of an array and every property of an object. *)
Fixpoint value_nested_ind (P : value -> Prop)
    (Hleaf : forall v, is_leaf v = true -> P v)
    (Harr : forall items, Forall P items -> P (VArr items))
    (Hobj : forall props, Forall (fun kv => P (snd kv)) props -> P (VObj props))
    (v : value) {struct v} : P v :=
  match v with
  | VArr items =>
      Harr items
        ((fix all (l : list value) : Forall P l :=
            match l with
            | [] => @List.Forall_nil _ P
            | x :: l' =>
                @List.Forall_cons _ _ x l' (value_nested_ind P Hleaf Harr Hobj x) (all l')
            end) items)
  | VObj props =>
      Hobj props
        ((fix all (l : object) : Forall (fun kv => P (snd kv)) l :=
            match l with
            | [] => @List.Forall_nil _ _
            | kv :: l' =>
                @List.Forall_cons _ (fun kv => P (snd kv)) kv l'
                  (value_nested_ind P Hleaf Harr Hobj (snd kv)) (all l')
            end) props)
  | VUndefined => Hleaf VUndefined eq_refl
  | VNull => Hleaf VNull eq_refl
  | VBool b => Hleaf (VBool b) eq_refl
  | VNum n => Hleaf (VNum n) eq_refl
  | VStr s => Hleaf (VStr s) eq_refl
  | VOther t => Hleaf (VOther t) eq_refl
  end.

End Json.

(* ===================================================================== *)
(** ** The request function of the API client *)
(* ===================================================================== *)

Module Api.
Import Json.

(** What [fetch] resolves to, as far as [apiRequest] reads it.  [json] is
    the outcome of [response.json()]: [None] when the body is not JSON (the
    promise rejects), otherwise the parsed value. *)
Record Response : Type := mkResponse {
  ok : bool;
  status : Z;
  statusText : string;
  json : option value
}.

(** The page around the call: the [auth_token] entry of [localStorage], the
    path of [window.location] ([None] when there is no [window]), and the
    last address assigned to [window.location.href]. *)
Record Page : Type := mkPage {
  auth_token : option string;
  pathname : option string;
  href : option string
}.

(** The request handed to [fetch]; [req_body] is the value given to
    [JSON.stringify]. *)
Record Request : Type := mkRequest {
  req_method : string;
  req_endpoint : string;
  req_headers : list (string * string);
  req_body : option value
}.

(** How the returned promise settles. *)
Inductive Outcome : Type :=
  | Resolved (r : Response)
  | ThrownError (errorMessage : value)   (* [throw new Error(errorMessage)] *)
  | ThrownTypeError                      (* a property read on [null] *)
  | FetchRejected                        (* [fetch] itself rejected *)
  | JsonRejected.                        (* [response.json()] rejected *)

(** [str.includes(sub)]. *)
Fixpoint includes (str sub : string) : bool :=
  String.prefix sub str ||
  match str with
  | EmptyString => false
  | String _ rest => includes rest sub
  end.

Definition has_body (method : string) : bool :=
  String.eqb method "POST" || String.eqb method "PUT" || String.eqb method "PATCH".

(** Lines 67-85: headers and body of the request. *)
Definition build_request (pg : Page) (method endpoint : string) (data : value)
  : Request :=
  {| req_method := method;
     req_endpoint := endpoint;
     req_headers :=
       ("Content-Type", "application/json") ::
       match auth_token pg with
       | Some token =>
           if String.eqb token "" then []
           else [("Authorization", "Bearer " +:+ token)]
       | None => []
       end;
     req_body :=
       if truthy data && has_body method then Some (keysToSnake data) else None |}.

(** [errorData.message] and [errorData.detail]: a property read.  It throws
    on [null] (and [undefined]); on a plain object it yields the property or
    [undefined]; no other JSON value has a property of either name. *)
Definition read_prop (errorData : value) (name : string) : option value :=
  match errorData with
  | VNull | VUndefined => None
  | VObj props =>
      Some (match obj_get props name with Some v => v | None => VUndefined end)
  | _ => Some VUndefined
  end.

(** Lines 93-98: on a 401 the token is removed and, unless the path already
    contains [/login], the page is sent there. *)
Definition on_unauthorized (pg : Page) : Page :=
  {| auth_token := None;
     pathname := pathname pg;
     href :=
       match pathname pg with
       | Some path => if includes path "/login" then href pg else Some "/login"
       | None => href pg
       end |}.

(** Lines 91-105: what [apiRequest] does with the response. *)
Definition handle_response (pg : Page) (response : Response) : Page * Outcome :=
  if negb (ok response) then
    let pg' := if (status response =? 401)%Z then on_unauthorized pg else pg in
    let errorData :=
      match json response with
      | Some v => v
      | None => VObj []          (* [.catch(() => ({}))] *)
      end in
    match read_prop errorData "message", read_prop errorData "detail" with
    | Some message, Some detail =>
        (pg', ThrownError
                (or_else
                   (or_else (or_else message detail) (VStr (statusText response)))
                   (VStr "Request failed")))
    | _, _ => (pg', ThrownTypeError)
    end
  else (pg, Resolved response).

(** [apiRequest(method, endpoint, data)]; [fetch] is the network, [None]
    when it rejects. *)
Definition apiRequest (fetch : Request -> option Response) (pg : Page)
    (method endpoint : string) (data : value) : Page * Outcome :=
  match fetch (build_request pg method endpoint data) with
  | Some response => handle_response pg response
  | None => (pg, FetchRejected)
  end.

(** [apiFetch]: the resolved body with its keys converted back. *)
Definition apiFetch (fetch : Request -> option Response) (pg : Page)
    (method endpoint : string) (data : value) : Page * (value + Outcome) :=
  match apiRequest fetch pg method endpoint data with
  | (pg', Resolved r) =>
      match json r with
      | Some body => (pg', inl (keysToCamel body))
      | None => (pg', inr JsonRejected)
      end
  | (pg', o) => (pg', inr o)
  end.

(** The first truthy value of [candidates], [fallback] when there is
    none: the "first available" of the specification. *)
Fixpoint first_available (candidates : list value) (fallback : value) : value :=
  match candidates with
  | [] => fallback
  | c :: rest => if truthy c then c else first_available rest fallback
  end.

(** The field [name] of a JSON error body: [undefined] when the body is
    not an object or has no such field. *)
Definition field (errorData : value) (name : string) : value :=
  match errorData with
  | VObj props => match obj_get props name with Some v => v | None => VUndefined end
  | _ => VUndefined
  end.

End Api.

(* ===================================================================== *)
(** ** The presence hook *)
(* ===================================================================== *)

Module Presence.

Record UserStatus : Type := mkUserStatus { isOnline : bool; isTyping : bool }.

(** [WebSocket.readyState]. *)
Inductive ReadyState : Type := CONNECTING | OPEN | CLOSING | CLOSED.

(** [JSON.parse(event.data)], by its [type] field; [is_typing] of a
    [user_status] push may be missing. *)
Inductive Push : Type :=
  | initial_statuses (statuses : list (string * bool))
  | user_status (user_id : string) (is_online : bool) (is_typing : option bool)
  | typing_status (match_id user_id : string) (is_typing : bool)
  | new_message (match_id message_id sender_id : string)
  | message_status_update (message_id status : string)
  | match_status_update (match_id : string) (is_active : bool)
  | unknown_push.

(** What the hook sends: [{type: 'ping'}] and [{type: 'typing', ...}]. *)
Inductive Frame : Type :=
  | ping
  | typing (match_id : string) (is_typing : bool).

(** The three timer callbacks of the connection effect, with what each
    closure captured. *)
Inductive TimerBody : Type :=
  | heartbeat (ws : nat)                        (* lines 72-76 *)
  | reconnect (token : string)                  (* lines 166-168 *)
  | typing_expiry (match_id user_id : string).  (* lines 115-124 *)

(** A pending timer: [every] is the period of a [setInterval]. *)
Record Timer : Type := mkTimer { body : TimerBody; due : Z; every : option Z }.

(** A socket and the token its [connect] closure captured. *)
Record Socket : Type := mkSocket { readyState : ReadyState; url_token : string }.

(** A subscriber is a function reference; [Set] compares references.
    What a subscriber does when called is its own business: a call is
    recorded in [calls] and the hook's state is left as it is. *)
Definition Callback : Type := nat.

(** One invocation of a subscriber, with its argument. *)
Inductive Call : Type :=
  | call_new_message (cb : Callback) (match_id message_id sender_id : string)
  | call_message_status (cb : Callback) (message_id status : string)
  | call_match_status (cb : Callback) (match_id : string) (is_active : bool).

(** The page and the hook instance.  First the browser: clock, storage,
    pending timers by handle, sockets, frames sent, subscriber invocations;
    then React state; then the refs. *)
Record State : Type := mkState {
  now : Z;
  storage : option string;
  timers : gmap nat Timer;
  next_timer : nat;
  sockets : gmap nat Socket;
  next_socket : nat;
  sent : list (nat * Frame);
  calls : list Call;
  mounted : bool;
  has_cleanup : bool;
  token : option string;
  userStatuses : gmap string UserStatus;
  typingStatuses : gmap string (gmap string bool);
  wsRef : option nat;
  heartbeatIntervalRef : option nat;
  reconnectTimeoutRef : option nat;
  typingTimeoutsRef : gmap string nat;
  messageListenersRef : list Callback;
  messageStatusListenersRef : list Callback;
  matchStatusListenersRef : list Callback
}.

Definition set_now v s := mkState v (storage s) (timers s) (next_timer s) (sockets s) (next_socket s) (sent s) (calls s) (mounted s) (has_cleanup s) (token s) (userStatuses s) (typingStatuses s) (wsRef s) (heartbeatIntervalRef s) (reconnectTimeoutRef s) (typingTimeoutsRef s) (messageListenersRef s) (messageStatusListenersRef s) (matchStatusListenersRef s).
Definition set_storage v s := mkState (now s) v (timers s) (next_timer s) (sockets s) (next_socket s) (sent s) (calls s) (mounted s) (has_cleanup s) (token s) (userStatuses s) (typingStatuses s) (wsRef s) (heartbeatIntervalRef s) (reconnectTimeoutRef s) (typingTimeoutsRef s) (messageListenersRef s) (messageStatusListenersRef s) (matchStatusListenersRef s).
Definition set_timers v s := mkState (now s) (storage s) v (next_timer s) (sockets s) (next_socket s) (sent s) (calls s) (mounted s) (has_cleanup s) (token s) (userStatuses s) (typingStatuses s) (wsRef s) (heartbeatIntervalRef s) (reconnectTimeoutRef s) (typingTimeoutsRef s) (messageListenersRef s) (messageStatusListenersRef s) (matchStatusListenersRef s).
Definition set_next_timer v s := mkState (now s) (storage s) (timers s) v (sockets s) (next_socket s) (sent s) (calls s) (mounted s) (has_cleanup s) (token s) (userStatuses s) (typingStatuses s) (wsRef s) (heartbeatIntervalRef s) (reconnectTimeoutRef s) (typingTimeoutsRef s) (messageListenersRef s) (messageStatusListenersRef s) (matchStatusListenersRef s).
Definition set_sockets v s := mkState (now s) (storage s) (timers s) (next_timer s) v (next_socket s) (sent s) (calls s) (mounted s) (has_cleanup s) (token s) (userStatuses s) (typingStatuses s) (wsRef s) (heartbeatIntervalRef s) (reconnectTimeoutRef s) (typingTimeoutsRef s) (messageListenersRef s) (messageStatusListenersRef s) (matchStatusListenersRef s).
Definition set_next_socket v s := mkState (now s) (storage s) (timers s) (next_timer s) (sockets s) v (sent s) (calls s) (mounted s) (has_cleanup s) (token s) (userStatuses s) (typingStatuses s) (wsRef s) (heartbeatIntervalRef s) (reconnectTimeoutRef s) (typingTimeoutsRef s) (messageListenersRef s) (messageStatusListenersRef s) (matchStatusListenersRef s).
Definition set_sent v s := mkState (now s) (storage s) (timers s) (next_timer s) (sockets s) (next_socket s) v (calls s) (mounted s) (has_cleanup s) (token s) (userStatuses s) (typingStatuses s) (wsRef s) (heartbeatIntervalRef s) (reconnectTimeoutRef s) (typingTimeoutsRef s) (messageListenersRef s) (messageStatusListenersRef s) (matchStatusListenersRef s).
Definition set_calls v s := mkState (now s) (storage s) (timers s) (next_timer s) (sockets s) (next_socket s) (sent s) v (mounted s) (has_cleanup s) (token s) (userStatuses s) (typingStatuses s) (wsRef s) (heartbeatIntervalRef s) (reconnectTimeoutRef s) (typingTimeoutsRef s) (messageListenersRef s) (messageStatusListenersRef s) (matchStatusListenersRef s).
Definition set_mounted v s := mkState (now s) (storage s) (timers s) (next_timer s) (sockets s) (next_socket s) (sent s) (calls s) v (has_cleanup s) (token s) (userStatuses s) (typingStatuses s) (wsRef s) (heartbeatIntervalRef s) (reconnectTimeoutRef s) (typingTimeoutsRef s) (messageListenersRef s) (messageStatusListenersRef s) (matchStatusListenersRef s).
Definition set_has_cleanup v s := mkState (now s) (storage s) (timers s) (next_timer s) (sockets s) (next_socket s) (sent s) (calls s) (mounted s) v (token s) (userStatuses s) (typingStatuses s) (wsRef s) (heartbeatIntervalRef s) (reconnectTimeoutRef s) (typingTimeoutsRef s) (messageListenersRef s) (messageStatusListenersRef s) (matchStatusListenersRef s).
Definition set_token v s := mkState (now s) (storage s) (timers s) (next_timer s) (sockets s) (next_socket s) (sent s) (calls s) (mounted s) (has_cleanup s) v (userStatuses s) (typingStatuses s) (wsRef s) (heartbeatIntervalRef s) (reconnectTimeoutRef s) (typingTimeoutsRef s) (messageListenersRef s) (messageStatusListenersRef s) (matchStatusListenersRef s).
Definition set_userStatuses v s := mkState (now s) (storage s) (timers s) (next_timer s) (sockets s) (next_socket s) (sent s) (calls s) (mounted s) (has_cleanup s) (token s) v (typingStatuses s) (wsRef s) (heartbeatIntervalRef s) (reconnectTimeoutRef s) (typingTimeoutsRef s) (messageListenersRef s) (messageStatusListenersRef s) (matchStatusListenersRef s).
Definition set_typingStatuses v s := mkState (now s) (storage s) (timers s) (next_timer s) (sockets s) (next_socket s) (sent s) (calls s) (mounted s) (has_cleanup s) (token s) (userStatuses s) v (wsRef s) (heartbeatIntervalRef s) (reconnectTimeoutRef s) (typingTimeoutsRef s) (messageListenersRef s) (messageStatusListenersRef s) (matchStatusListenersRef s).
Definition set_wsRef v s := mkState (now s) (storage s) (timers s) (next_timer s) (sockets s) (next_socket s) (sent s) (calls s) (mounted s) (has_cleanup s) (token s) (userStatuses s) (typingStatuses s) v (heartbeatIntervalRef s) (reconnectTimeoutRef s) (typingTimeoutsRef s) (messageListenersRef s) (messageStatusListenersRef s) (matchStatusListenersRef s).
Definition set_heartbeatIntervalRef v s := mkState (now s) (storage s) (timers s) (next_timer s) (sockets s) (next_socket s) (sent s) (calls s) (mounted s) (has_cleanup s) (token s) (userStatuses s) (typingStatuses s) (wsRef s) v (reconnectTimeoutRef s) (typingTimeoutsRef s) (messageListenersRef s) (messageStatusListenersRef s) (matchStatusListenersRef s).
Definition set_reconnectTimeoutRef v s := mkState (now s) (storage s) (timers s) (next_timer s) (sockets s) (next_socket s) (sent s) (calls s) (mounted s) (has_cleanup s) (token s) (userStatuses s) (typingStatuses s) (wsRef s) (heartbeatIntervalRef s) v (typingTimeoutsRef s) (messageListenersRef s) (messageStatusListenersRef s) (matchStatusListenersRef s).
Definition set_typingTimeoutsRef v s := mkState (now s) (storage s) (timers s) (next_timer s) (sockets s) (next_socket s) (sent s) (calls s) (mounted s) (has_cleanup s) (token s) (userStatuses s) (typingStatuses s) (wsRef s) (heartbeatIntervalRef s) (reconnectTimeoutRef s) v (messageListenersRef s) (messageStatusListenersRef s) (matchStatusListenersRef s).
Definition set_messageListenersRef v s := mkState (now s) (storage s) (timers s) (next_timer s) (sockets s) (next_socket s) (sent s) (calls s) (mounted s) (has_cleanup s) (token s) (userStatuses s) (typingStatuses s) (wsRef s) (heartbeatIntervalRef s) (reconnectTimeoutRef s) (typingTimeoutsRef s) v (messageStatusListenersRef s) (matchStatusListenersRef s).
Definition set_messageStatusListenersRef v s := mkState (now s) (storage s) (timers s) (next_timer s) (sockets s) (next_socket s) (sent s) (calls s) (mounted s) (has_cleanup s) (token s) (userStatuses s) (typingStatuses s) (wsRef s) (heartbeatIntervalRef s) (reconnectTimeoutRef s) (typingTimeoutsRef s) (messageListenersRef s) v (matchStatusListenersRef s).
Definition set_matchStatusListenersRef v s := mkState (now s) (storage s) (timers s) (next_timer s) (sockets s) (next_socket s) (sent s) (calls s) (mounted s) (has_cleanup s) (token s) (userStatuses s) (typingStatuses s) (wsRef s) (heartbeatIntervalRef s) (reconnectTimeoutRef s) (typingTimeoutsRef s) (messageListenersRef s) (messageStatusListenersRef s) v.

(** *** Browser primitives *)

(** [setTimeout(body, delay)] and [setInterval(body, period)]: a fresh
    handle (handles are positive, hence truthy, and never reused). *)
Definition setTimeout (b : TimerBody) (delay : Z) (s : State) : nat * State :=
  let h := next_timer s in
  (h, set_next_timer (S h)
        (set_timers (<[h := mkTimer b (now s + delay) None]> (timers s)) s)).

Definition setInterval (b : TimerBody) (period : Z) (s : State) : nat * State :=
  let h := next_timer s in
  (h, set_next_timer (S h)
        (set_timers (<[h := mkTimer b (now s + period) (Some period)]> (timers s)) s)).

(** [clearTimeout(h)] / [clearInterval(h)]: nothing happens for a handle
    that is no longer pending. *)
Definition clearTimer (h : nat) (s : State) : State :=
  set_timers (delete h (timers s)) s.

(** [if (ref.current) clearTimeout(ref.current)]. *)
Definition clear_if_set (ref : option nat) (s : State) : State :=
  match ref with
  | Some h => clearTimer h s
  | None => s
  end.

Definition ready_state (ws : nat) (s : State) : option ReadyState :=
  readyState <$> sockets s !! ws.

Definition set_ready (ws : nat) (r : ReadyState) (s : State) : State :=
  set_sockets (alter (fun k => mkSocket r (url_token k)) ws (sockets s)) s.

Definition is_open (ws : nat) (s : State) : bool :=
  match ready_state ws s with
  | Some OPEN => true
  | _ => false
  end.

(** [ws.send(frame)]. *)
Definition send (ws : nat) (f : Frame) (s : State) : State :=
  set_sent (sent s ++ [(ws, f)]) s.

(** [ws.close()]: starts the closing handshake of a socket that is
    connecting or open; the close event is delivered later. *)
Definition close (ws : nat) (s : State) : State :=
  match ready_state ws s with
  | Some CONNECTING | Some OPEN => set_ready ws CLOSING s
  | _ => s
  end.

(** [localStorage.getItem('auth_token')] tested for truthiness. *)
Definition stored_token (s : State) : option string :=
  match storage s with
  | Some t => if String.eqb t "" then None else Some t
  | None => None
  end.

(** *** React state *)

(** A state setter; React drops updates of an unmounted component. *)
Definition setUserStatuses
    (f : gmap string UserStatus -> gmap string UserStatus) (s : State) : State :=
  if mounted s then set_userStatuses (f (userStatuses s)) s else s.

Definition setTypingStatuses
    (f : gmap string (gmap string bool) -> gmap string (gmap string bool))
    (s : State) : State :=
  if mounted s then set_typingStatuses (f (typingStatuses s)) s else s.

(** [{...prev, [match_id]: {...prev[match_id], [user_id]: flag}}]. *)
Definition with_typing (match_id user_id : string) (flag : bool)
    (prev : gmap string (gmap string bool)) : gmap string (gmap string bool) :=
  <[match_id := <[user_id := flag]> (default ∅ (prev !! match_id))]> prev.

(** [`${data.match_id}-${data.user_id}`]. *)
Definition typing_key (match_id user_id : string) : string :=
  match_id +:+ "-" +:+ user_id.

(** *** Listener sets ([Set]: insertion order, no duplicates) *)

Definition set_add (cb : Callback) (l : list Callback) : list Callback :=
  if existsb (Nat.eqb cb) l then l else l ++ [cb].

Definition set_delete (cb : Callback) (l : list Callback) : list Callback :=
  List.filter (fun x => negb (Nat.eqb cb x)) l.

(** *** The socket handlers installed by [connect] *)

(** [connect()] of the effect run that read [tok]: a new socket, stored in
    [wsRef]. *)
Definition connect (tok : string) (s : State) : State :=
  let ws := next_socket s in
  set_wsRef (Some ws)
    (set_next_socket (S ws)
       (set_sockets (<[ws := mkSocket CONNECTING tok]> (sockets s)) s)).

(** [ws.onopen]. *)
Definition onopen (ws : nat) (s : State) : State :=
  let s1 := clear_if_set (heartbeatIntervalRef s) s in
  let '(h, s2) := setInterval (heartbeat ws) 30000 s1 in
  set_heartbeatIntervalRef (Some h) s2.

(** The heartbeat callback. *)
Definition heartbeat_tick (ws : nat) (s : State) : State :=
  if is_open ws s then send ws ping s else s.

(** The typing-expiry callback. *)
Definition typing_expire (match_id user_id : string) (s : State) : State :=
  let s1 := setTypingStatuses (with_typing match_id user_id false) s in
  set_typingTimeoutsRef
    (delete (typing_key match_id user_id) (typingTimeoutsRef s1)) s1.

(** The [forEach] of the [initial_statuses] branch, assigning into
    [statuses].  [statuses[userId] = {...}] is a plain assignment: under
    the name [__proto__] it sets the prototype of [statuses] to the
    assigned object and adds no entry. *)
Definition collect_statuses (entries : list (string * bool))
    (statuses : gmap string UserStatus) : gmap string UserStatus :=
  fold_left
    (fun acc e =>
       if String.eqb (fst e) "__proto__" then acc
       else <[fst e := mkUserStatus (snd e) false]> acc)
    entries statuses.

(** [ws.onmessage]. *)
Definition onmessage (data : Push) (s : State) : State :=
  match data with
  | initial_statuses entries =>
      let statuses := collect_statuses entries ∅ in
      setUserStatuses (fun _ => statuses) s
  | user_status user_id is_online is_typing =>
      setUserStatuses
        (fun prev =>
           <[user_id := mkUserStatus is_online (default false is_typing)]> prev) s
  | typing_status match_id user_id is_typing =>
      let key := typing_key match_id user_id in
      let s1 := clear_if_set (typingTimeoutsRef s !! key) s in
      let s2 := setTypingStatuses (with_typing match_id user_id is_typing) s1 in
      if is_typing then
        let '(h, s3) := setTimeout (typing_expiry match_id user_id) 3000 s2 in
        set_typingTimeoutsRef (<[key := h]> (typingTimeoutsRef s3)) s3
      else s2
  | new_message match_id message_id sender_id =>
      set_calls
        (calls s ++
         map (fun cb => call_new_message cb match_id message_id sender_id)
           (messageListenersRef s)) s
  | message_status_update message_id status =>
      set_calls
        (calls s ++
         map (fun cb => call_message_status cb message_id status)
           (messageStatusListenersRef s)) s
  | match_status_update match_id is_active =>
      set_calls
        (calls s ++
         map (fun cb => call_match_status cb match_id is_active)
           (matchStatusListenersRef s)) s
  | unknown_push => s
  end.

(** [ws.onclose], in the closure of a [connect] that captured [tok]. *)
Definition onclose (tok : string) (s : State) : State :=
  let s1 := clear_if_set (heartbeatIntervalRef s) s in
  match stored_token s1 with
  | Some _ =>
      let '(h, s2) := setTimeout (reconnect tok) 3000 s1 in
      set_reconnectTimeoutRef (Some h) s2
  | None => s1
  end.

(** *** The connection effect and its cleanup *)

(** Lines 55-173: nothing without a token, otherwise [connect()] and a
    cleanup function is returned. *)
Definition effect (s : State) : State :=
  match stored_token s with
  | None => set_has_cleanup false s
  | Some tok => set_has_cleanup true (connect tok s)
  end.

(** Lines 175-186. *)
Definition cleanup (s : State) : State :=
  let s1 := clear_if_set (heartbeatIntervalRef s) s in
  let s2 := clear_if_set (reconnectTimeoutRef s1) s1 in
  let s3 :=
    fold_left (fun acc kh => clearTimer (snd kh) acc)
      (map_to_list (typingTimeoutsRef s2)) s2 in
  match wsRef s3 with
  | Some ws => close ws s3
  | None => s3
  end.

Definition run_cleanup (s : State) : State :=
  if has_cleanup s then set_has_cleanup false (cleanup s) else s.

(** The polling callback of the first effect (lines 44-49): a changed
    token is stored with [setToken]; the re-render runs the cleanup of the
    connection effect and then the effect again. *)
Definition poll (s : State) : State :=
  if mounted s then
    if decide (storage s = token s) then s
    else effect (run_cleanup (set_token (storage s) s))
  else s.

(** *** The hook's returned operations *)

Definition sendTypingStatus (matchId : string) (isTyping : bool) (s : State)
  : State :=
  match wsRef s with
  | Some ws => if is_open ws s then send ws (typing matchId isTyping) s else s
  | None => s
  end.

(** The two reads, of what the maps themselves hold.  The source reads
    plain objects, so for an id that names a member of [Object.prototype]
    (see [inherited_name]) and has no entry, it finds that member instead
    of the default. *)
Definition getUserStatus (s : State) (userId : string) : UserStatus :=
  default (mkUserStatus false false) (userStatuses s !! userId).

Definition isUserTypingInMatch (s : State) (userId matchId : string) : bool :=
  default false (typingStatuses s !! matchId ≫= fun m => m !! userId).

(** A subscription returns the new state and the unsubscribe function. *)
Definition onNewMessage (callback : Callback) (s : State)
  : State * (State -> State) :=
  (set_messageListenersRef (set_add callback (messageListenersRef s)) s,
   fun s' =>
     set_messageListenersRef (set_delete callback (messageListenersRef s')) s').

Definition onMessageStatusUpdate (callback : Callback) (s : State)
  : State * (State -> State) :=
  (set_messageStatusListenersRef
     (set_add callback (messageStatusListenersRef s)) s,
   fun s' =>
     set_messageStatusListenersRef
       (set_delete callback (messageStatusListenersRef s')) s').

Definition onMatchStatusUpdate (callback : Callback) (s : State)
  : State * (State -> State) :=
  (set_matchStatusListenersRef
     (set_add callback (matchStatusListenersRef s)) s,
   fun s' =>
     set_matchStatusListenersRef
       (set_delete callback (matchStatusListenersRef s')) s').

(** *** The event loop *)

(** What can happen to a hook instance.  Timers are run on time: a timer can
    be run once the clock has reached its due time, and the clock does not
    move past a pending timer that is due.  The polling interval of the
    first effect is not kept among [timers]; its callback may run at any
    time and does nothing while the stored token is unchanged. *)
Inductive Event : Type :=
  | Unmount                              (* cleanups run                    *)
  | Poll                                 (* the polling callback runs       *)
  | StorageSet (tok : option string)     (* login, logout, a 401            *)
  | Elapse (t : Z)                       (* the clock reaches [t]           *)
  | Fire (h : nat)                       (* the pending timer [h] is run    *)
  | SocketOpen (ws : nat)                (* open event                      *)
  | SocketMessage (ws : nat) (data : Push)
  | SocketClose (ws : nat).              (* close event                     *)

(** No pending timer is due before [t]. *)
Definition none_due_before (t : Z) (s : State) : bool :=
  forallb (fun e => (t <=? due (snd e))%Z) (map_to_list (timers s)).

Definition run_body (b : TimerBody) (s : State) : State :=
  match b with
  | heartbeat ws => heartbeat_tick ws s
  | reconnect tok => connect tok s
  | typing_expiry match_id user_id => typing_expire match_id user_id s
  end.

(** One event; [None] when the browser cannot deliver it in this state. *)
Definition step (e : Event) (s : State) : option State :=
  match e with
  | Unmount =>
      if mounted s then Some (set_mounted false (run_cleanup s)) else None
  | Poll => Some (poll s)
  | StorageSet tok => Some (set_storage tok s)
  | Elapse t =>
      if (now s <=? t)%Z && none_due_before t s then Some (set_now t s) else None
  | Fire h =>
      match timers s !! h with
      | Some tm =>
          if (due tm <=? now s)%Z then
            let s1 :=
              match every tm with
              | Some period =>
                  set_timers
                    (<[h := mkTimer (body tm) (due tm + period) (every tm)]>
                       (timers s)) s
              | None => clearTimer h s
              end in
            Some (run_body (body tm) s1)
          else None
      | None => None
      end
  | SocketOpen ws =>
      match sockets s !! ws with
      | Some (mkSocket CONNECTING _) => Some (onopen ws (set_ready ws OPEN s))
      | _ => None
      end
  | SocketMessage ws data =>
      match sockets s !! ws with
      | Some (mkSocket OPEN _) => Some (onmessage data s)
      | _ => None
      end
  | SocketClose ws =>
      match sockets s !! ws with
      | Some (mkSocket CLOSED _) | None => None
      | Some (mkSocket _ tok) => Some (onclose tok (set_ready ws CLOSED s))
      end
  end.

Fixpoint run (es : list Event) (s : State) : option State :=
  match es with
  | [] => Some s
  | e :: es' =>
      match step e s with
      | Some s' => run es' s'
      | None => None
      end
  end.

(** The bookkeeping of the timer handles that the refs hold.  Handles are
    fresh; a handle held by a ref, while still pending, belongs to a timer
    of that ref's kind; every pending typing timer is held under its own
    key and every pending heartbeat is the one [heartbeatIntervalRef]
    holds. *)
Record consistent (s : State) : Prop := mkConsistent {
  fresh_timer : forall h tm, timers s !! h = Some tm -> (h < next_timer s)%nat;
  fresh_heartbeat : forall h, heartbeatIntervalRef s = Some h -> (h < next_timer s)%nat;
  fresh_reconnect : forall h, reconnectTimeoutRef s = Some h -> (h < next_timer s)%nat;
  fresh_typing : forall k h, typingTimeoutsRef s !! k = Some h -> (h < next_timer s)%nat;
  heartbeat_ref : forall h tm,
    heartbeatIntervalRef s = Some h -> timers s !! h = Some tm ->
    exists ws, body tm = heartbeat ws;
  reconnect_ref : forall h tm,
    reconnectTimeoutRef s = Some h -> timers s !! h = Some tm ->
    exists tok, body tm = reconnect tok;
  typing_ref : forall k h tm,
    typingTimeoutsRef s !! k = Some h -> timers s !! h = Some tm ->
    exists m u, body tm = typing_expiry m u /\ typing_key m u = k;
  typing_held : forall h tm m u,
    timers s !! h = Some tm -> body tm = typing_expiry m u ->
    typingTimeoutsRef s !! typing_key m u = Some h /\ every tm = None;
  heartbeat_held : forall h tm ws,
    timers s !! h = Some tm -> body tm = heartbeat ws ->
    heartbeatIntervalRef s = Some h
}.

(** Equality of timer bodies is decidable. *)
#[global] Instance TimerBody_eq_dec : EqDecision TimerBody.
Proof. solve_decision. Defined.

(** The typing timer [h] of the pair ([m], [u]) is pending, due at [T],
    and the pair's flag is set. *)
Definition typing_pending (h : nat) (T : Z) (m u : string) (s : State) : Prop :=
  timers s !! h = Some (mkTimer (typing_expiry m u) T None) /\
  isUserTypingInMatch s u m = true /\ (now s <= T)%Z.

(** The pair's timer has run: the flag is clear, [T] has passed and no
    timer of the pair is pending. *)
Definition typing_expired (T : Z) (m u : string) (s : State) : Prop :=
  isUserTypingInMatch s u m = false /\ (T <= now s)%Z /\
  forall x tm, timers s !! x = Some tm -> body tm = typing_expiry m u -> False.

Definition watched (h : nat) (T : Z) (m u : string) (s : State) : Prop :=
  mounted s = true /\ (typing_pending h T m u s \/ typing_expired T m u s).

(** From [s] to [s'] the timer [h] of the pair is kept, and no timer of
    the pair is added. *)
Definition keeps (h : nat) (m u : string) (s s' : State) : Prop :=
  forall tm, timers s !! h = Some tm -> body tm = typing_expiry m u ->
             timers s' !! h = Some tm.

Definition adds_none (m u : string) (s s' : State) : Prop :=
  forall x tm, timers s' !! x = Some tm -> body tm = typing_expiry m u ->
               timers s !! x = Some tm.

(** Events that neither push a typing status under the timer key [key]
    nor tear the connection effect down ([Poll] with an unchanged token
    does nothing). *)
Definition leaves_alone (key : string) (e : Event) (s : State) : bool :=
  match e with
  | Unmount => false
  | Poll => bool_decide (storage s = token s)
  | SocketMessage _ (typing_status match_id user_id _) =>
      negb (String.eqb (typing_key match_id user_id) key)
  | _ => true
  end.

(** Every event of [es], run from [s], leaves [key] alone. *)
Fixpoint quiet (key : string) (es : list Event) (s : State) : Prop :=
  match es with
  | [] => True
  | e :: es' =>
      leaves_alone key e s = true /\
      match step e s with
      | Some s' => quiet key es' s'
      | None => True
      end
  end.

(** The first commit of the hook on a page with [tok] in storage: empty
    state and refs, [token] read from storage, and the connection effect
    run once. *)
Definition mount (tok : option string) : State :=
  effect (mkState 0 tok ∅ 1 ∅ 0 [] [] true false tok ∅ ∅ None None None ∅ [] [] []).

(** States the hook can be in: what some sequence of events yields from
    the first commit. *)
Definition reachable (s : State) : Prop :=
  exists tok es, run es (mount tok) = Some s.

End Presence.

(* ===================================================================== *)
(** ** The shape of property names *)
(* ===================================================================== *)

Module KeyShape.
Import CaseConv Json.

(** An underscore directly followed by a lowercase letter occurs in the
    string: a place where [toCamelCase] would rewrite. *)
Fixpoint has_boundary (s : string) : bool :=
  match s with
  | EmptyString => false
  | String c rest =>
      (Ascii.eqb c underscore &&
       match rest with
       | String letter _ => is_lower letter
       | EmptyString => false
       end) || has_boundary rest
  end.

(** Every property name of [v], at every nesting level, satisfies [P]. *)
Fixpoint all_keys (P : string -> bool) (v : value) : bool :=
  match v with
  | VArr items => forallb (all_keys P) items
  | VObj props => forallb (fun kv => P (fst kv) && all_keys P (snd kv)) props
  | _ => true
  end.

(** No object in [v], at any nesting level, has an own property named
    [constructor]: every one of them passes the test
    [obj.constructor === Object] of lines 25 and 46. *)
Definition plain_objects (v : value) : bool :=
  all_keys (fun k => negb (String.eqb k "constructor")) v.

(** No property name in [v] becomes [__proto__] under [toSnakeCase] (the
    names [__proto__] and [_Proto__] do): every assignment
    [acc[snakeKey] = ...] of line 49 creates or updates a property. *)
Definition snake_assignable (v : value) : bool :=
  all_keys (fun k => negb (String.eqb (toSnakeCase k) "__proto__")) v.

End KeyShape.

(* ===================================================================== *)
(** ** Traces of the presence hook *)
(* ===================================================================== *)

Module Traces.
Import Presence.

(** [!tok] for what [localStorage.getItem] returned. *)
Definition falsy_token (tok : option string) : bool :=
  match tok with
  | Some t => String.eqb t ""
  | None => true
  end.

(** Events that put no usable token into storage. *)
Definition stores_no_token (e : Event) : bool :=
  match e with
  | StorageSet tok => falsy_token tok
  | _ => true
  end.

(** The hook has never connected: nothing stored, no socket, no timer,
    nothing sent, no state. *)
Definition idle (s : State) : Prop :=
  stored_token s = None /\ has_cleanup s = false /\
  sockets s = ∅ /\ timers s = ∅ /\ sent s = [] /\
  userStatuses s = ∅ /\ typingStatuses s = ∅.

(** The names of the members of [Object.prototype].  A read
    [obj[name]] on a plain object without an own property of such a name
    finds the inherited member; for every other name it finds what the
    object itself holds, or [undefined]. *)
Definition inherited_name (name : string) : bool :=
  existsb (String.eqb name)
    ["constructor"; "hasOwnProperty"; "isPrototypeOf"; "propertyIsEnumerable";
     "toLocaleString"; "toString"; "valueOf"; "__proto__";
     "__defineGetter__"; "__defineSetter__"; "__lookupGetter__";
     "__lookupSetter__"].

(** Socket handles are fresh: every socket made so far, and the one
    [wsRef] holds, is below [next_socket]. *)
Definition sockets_fresh (s : State) : Prop :=
  (forall ws k, sockets s !! ws = Some k -> (ws < next_socket s)%nat) /\
  (forall ws, wsRef s = Some ws -> (ws < next_socket s)%nat).

End Traces.

(* ===================================================================== *)
(** ** The authentication provider and the protected route

    [useMutation] is read as the library documents it: [mutateAsync] runs
    the mutation function, then [onSuccess] when it resolved, and
    [onError] when it or [onSuccess] threw; the caller's promise is
    rejected in that case.  What [useQuery] returns is not computed here:
    the effect that follows the query is run with any data.  Invalidating
    and refetching the query only lead to further runs of that effect. *)
(* ===================================================================== *)

Module Auth.
Import Json Api.

(** The provider's state: the page (storage and location), the two React
    states, and the titles of the toasts shown so far. *)
Record AuthState : Type := mkAuth {
  page : Page;
  user : option value;          (* [null] is [None] *)
  isInitialized : bool;
  toasts : list string
}.

Definition set_page (pg : Page) (a : AuthState) : AuthState :=
  mkAuth pg (user a) (isInitialized a) (toasts a).
Definition setUser (u : option value) (a : AuthState) : AuthState :=
  mkAuth (page a) u (isInitialized a) (toasts a).
Definition setIsInitialized (b : bool) (a : AuthState) : AuthState :=
  mkAuth (page a) (user a) b (toasts a).
Definition toast (title : string) (a : AuthState) : AuthState :=
  mkAuth (page a) (user a) (isInitialized a) (toasts a ++ [title]).

(** [localStorage.removeItem('auth_token')] and [setItem('auth_token', t)]. *)
Definition removeItem (pg : Page) : Page :=
  {| auth_token := None; pathname := pathname pg; href := href pg |}.
Definition setItem (t : string) (pg : Page) : Page :=
  {| auth_token := Some t; pathname := pathname pg; href := href pg |}.
Definition set_href (url : string) (pg : Page) : Page :=
  {| auth_token := auth_token pg; pathname := pathname pg; href := Some url |}.

(** [data?.user]: [undefined] on [null] and [undefined], the property
    otherwise. *)
Definition optional_user (data : value) : value :=
  match read_prop data "user" with
  | Some u => u
  | None => VUndefined
  end.

(** [role !== "admin"], negated. *)
Definition is_admin_role (role : value) : bool :=
  match role with
  | VStr r => String.eqb r "admin"
  | _ => false
  end.

(** [import.meta.env.VITE_MAIN_APP_URL || "https://ikonetu.com"]. *)
Definition main_app_url (env : option string) : string :=
  match env with
  | Some url => if String.eqb url "" then "https://ikonetu.com" else url
  | None => "https://ikonetu.com"
  end.

(** The effect that follows the query (lines 65-86), run with what
    [useQuery] returned; [data] is [undefined] while there is none. *)
Definition sync_effect (env : option string) (data : value) (isLoading : bool)
    (a : AuthState) : AuthState :=
  let u := optional_user data in
  if truthy u then
    match read_prop u "role" with
    | Some role =>
        if negb (is_admin_role role) then
          let a1 := set_page (removeItem (page a)) a in
          let a2 := setUser None a1 in
          let a3 := toast "Access Denied" a2 in
          set_page (set_href (main_app_url env) (page a3)) a3
        else setIsInitialized true (setUser (Some u) a)
    | None => a               (* not reached: [u] is truthy *)
    end
  else if negb isLoading then setIsInitialized true (setUser None a)
  else a.

(** How a mutation settles for the caller of [mutateAsync]. *)
Inductive Settled : Type := Fulfilled | Rejected.

Section Coercion.
(** [String(v)], which [localStorage.setItem] applies to its argument. *)
Variable to_string : value -> string.

(** [loginMutation.onSuccess]; a thrown error (the [TypeError] of a
    property read on [null] or [undefined], or the [Error] of the role
    check) makes the mutation fail. *)
Definition login_onSuccess (data : value) (a : AuthState) : AuthState * Settled :=
  match read_prop data "user" with
  | None => (a, Rejected)
  | Some u =>
      match read_prop u "role" with
      | None => (a, Rejected)
      | Some role =>
          if negb (is_admin_role role) then
            (toast "Access Denied" (set_page (removeItem (page a)) a), Rejected)
          else
            let token := match read_prop data "token" with
                         | Some t => t
                         | None => VUndefined
                         end in
            let a1 := if truthy token
                      then set_page (setItem (to_string token) (page a)) a
                      else a in
            (toast "Welcome back!" (setUser (Some u) a1), Fulfilled)
      end
  end.

(** [loginMutation.onError]. *)
Definition login_onError (a : AuthState) : AuthState := toast "Login Failed" a.

(** [login(email, password)]: the mutation function removes the token and
    posts the credentials; [onSuccess] runs on the converted answer,
    [onError] when the request or [onSuccess] failed. *)
Definition login (fetch : Request -> option Response) (email password : string)
    (a : AuthState) : AuthState * Settled :=
  match apiFetch fetch (removeItem (page a)) "POST" "/api/auth/login"
          (VObj [("email", VStr email); ("password", VStr password)]) with
  | (pg, inl data) =>
      match login_onSuccess data (set_page pg a) with
      | (a', Fulfilled) => (a', Fulfilled)
      | (a', Rejected) => (login_onError a', Rejected)
      end
  | (pg, inr _) => (login_onError (set_page pg a), Rejected)
  end.

End Coercion.

(** The request a login sends: the credentials, and no [Authorization]
    header, since the token was removed first. *)
Definition login_request (email password : string) : Request :=
  {| req_method := "POST";
     req_endpoint := "/api/auth/login";
     req_headers := [("Content-Type", "application/json")];
     req_body := Some (VObj [("email", VStr email); ("password", VStr password)]) |}.

(** [logout()]: the mutation function posts an empty object; [onSuccess]
    removes the token and clears the user; there is no [onError]. *)
Definition logout (fetch : Request -> option Response) (a : AuthState)
  : AuthState * Settled :=
  match apiFetch fetch (page a) "POST" "/api/auth/logout" (VObj []) with
  | (pg, inl _) =>
      (toast "Logged out" (setUser None (set_page (removeItem pg) a)), Fulfilled)
  | (pg, inr _) => (set_page pg a, Rejected)
  end.

(** The context value: [isLoading || !isInitialized] and [!!user]. *)
Definition context_isLoading (isLoading : bool) (a : AuthState) : bool :=
  isLoading || negb (isInitialized a).

Definition isAuthenticated (a : AuthState) : bool :=
  match user a with
  | Some u => truthy u
  | None => false
  end.

(** What [ProtectedRoute] renders, and where its effect navigates. *)
Inductive Rendered : Type := Spinner | Nothing | Children.

Definition ProtectedRoute (isLoading isAuthenticated : bool)
  : Rendered * option string :=
  (if isLoading then Spinner
   else if negb isAuthenticated then Nothing
   else Children,
   if negb isLoading && negb isAuthenticated then Some "/login" else None).

(** What happens to the provider: the query effect runs with some data, a
    login, a logout, or any other request of the pages. *)
Inductive Event : Type :=
  | QueryResult (data : value) (isLoading : bool)
  | Login (fetch : Request -> option Response) (email password : string)
  | Logout (fetch : Request -> option Response)
  | Call (fetch : Request -> option Response) (method endpoint : string) (data : value).

Definition step (env : option string) (to_string : value -> string)
    (e : Event) (a : AuthState) : AuthState :=
  match e with
  | QueryResult data isLoading => sync_effect env data isLoading a
  | Login fetch email password => fst (login to_string fetch email password a)
  | Logout fetch => fst (logout fetch a)
  | Call fetch method endpoint data =>
      set_page (fst (apiFetch fetch (page a) method endpoint data)) a
  end.

(** The provider on a page [pg] before its first effect. *)
Definition initial (pg : Page) : AuthState := mkAuth pg None false [].

Definition run (env : option string) (to_string : value -> string)
    (es : list Event) (a : AuthState) : AuthState :=
  fold_left (fun acc e => step env to_string e acc) es a.

(** The signed-in user, when there is one, is an object whose [role] is
    [admin]. *)
Definition admin_only (a : AuthState) : Prop :=
  forall u, user a = Some u ->
    truthy u = true /\ read_prop u "role" = Some (VStr "admin").

End Auth.


(* ===================================================================== *)
(** * Properties *)
(* ===================================================================== *)

(** ** Case conversion of single keys *)

Section CaseConvFacts.
Import CaseConv.

Example toCamelCase_ex : toCamelCase "foo_bar_baz" = "fooBarBaz".
Proof. reflexivity. Qed.

Example toSnakeCase_ex : toSnakeCase "fooBarBaz" = "foo_bar_baz".
Proof. reflexivity. Qed.

(** A leading or doubled underscore is handled like any other character. *)
Example toCamelCase_underscores : toCamelCase "__a_1_B" = "_A_1_B".
Proof. reflexivity. Qed.

Lemma upper_of_lower (c : ascii) :
  is_lower c = true ->
  is_upper (toUpperCase c) = true /\ toLowerCase (toUpperCase c) = c.
Proof.
  destruct c as [[] [] [] [] [] [] [] []]; vm_compute; intros H;
    first [discriminate H | split; reflexivity].
Qed.

Lemma lower_of_upper (c : ascii) :
  is_upper c = true ->
  is_lower (toLowerCase c) = true /\ toUpperCase (toLowerCase c) = c.
Proof.
  destruct c as [[] [] [] [] [] [] [] []]; vm_compute; intros H;
    first [discriminate H | split; reflexivity].
Qed.

Lemma lower_not_upper (c : ascii) : is_lower c = true -> is_upper c = false.
Proof.
  destruct c as [[] [] [] [] [] [] [] []]; vm_compute; intros H;
    first [discriminate H | reflexivity].
Qed.

Lemma underscore_not_letter (c : ascii) :
  Ascii.eqb c underscore = true -> is_upper c = false /\ is_lower c = false.
Proof.
  intros H. apply Ascii.eqb_eq in H. subst c. split; reflexivity.
Qed.

(** The two scans, one step at a time. *)
Lemma toCamelCase_cons (c : ascii) (rest : string) :
  toCamelCase (String c rest) =
  if Ascii.eqb c underscore then
    match rest with
    | String letter rest' =>
        if is_lower letter
        then String (toUpperCase letter) (toCamelCase rest')
        else String c (toCamelCase rest)
    | EmptyString => String c EmptyString
    end
  else String c (toCamelCase rest).
Proof. reflexivity. Qed.

Lemma toSnakeCase_cons (c : ascii) (rest : string) :
  toSnakeCase (String c rest) =
  if is_upper c
  then String underscore (String (toLowerCase c) (toSnakeCase rest))
  else String c (toSnakeCase rest).
Proof. reflexivity. Qed.

Lemma no_upper_cons (c : ascii) (rest : string) :
  no_upper (String c rest) = negb (is_upper c) && no_upper rest.
Proof. reflexivity. Qed.

(** [toSnakeCase] undoes [toCamelCase] on every key without capitals: the
    capitals of [toCamelCase k] are exactly the ones it introduced.  The
    scan of [toCamelCase] consumes one or two characters at a time, hence
    the induction on the length. *)
Lemma snake_of_camel_no_upper (k : string) :
  no_upper k = true -> toSnakeCase (toCamelCase k) = k.
Proof.
  enough (H : forall n (s : string),
             String.length s <= n -> no_upper s = true ->
             toSnakeCase (toCamelCase s) = s).
  { apply (H (String.length k)). lia. }
  clear k. induction n as [|n IH]; intros [|c rest] Hlen Hup;
    try reflexivity; simpl in Hlen; try lia.
  rewrite no_upper_cons in Hup. apply andb_prop in Hup as [Hc Hrest].
  apply negb_true_iff in Hc. rewrite toCamelCase_cons.
  destruct (Ascii.eqb c underscore) eqn:Hus.
  - destruct rest as [|letter rest'].
    + rewrite toSnakeCase_cons, Hc. reflexivity.
    + destruct (is_lower letter) eqn:Hlow.
      * destruct (upper_of_lower letter Hlow) as [Hu Hback].
        rewrite no_upper_cons in Hrest. apply andb_prop in Hrest as [_ Hrest'].
        rewrite toSnakeCase_cons, Hu, Hback. apply Ascii.eqb_eq in Hus. subst c.
        simpl in Hlen. rewrite IH by (first [lia | exact Hrest']). reflexivity.
      * rewrite toSnakeCase_cons, Hc, IH by (first [lia | exact Hrest]).
        reflexivity.
  - rewrite toSnakeCase_cons, Hc, IH by (first [lia | exact Hrest]). reflexivity.
Qed.

(** [toCamelCase] undoes [toSnakeCase] on every key without underscores:
    the underscores of [toSnakeCase k] are exactly the ones it introduced,
    each followed by a lowercase letter. *)
Lemma camel_of_snake_no_underscore (k : string) :
  no_underscore k = true -> toCamelCase (toSnakeCase k) = k.
Proof.
  induction k as [|c rest IH]; simpl; intros H; [reflexivity|].
  apply andb_prop in H as [Hc Hrest]. apply negb_true_iff in Hc.
  destruct (is_upper c) eqn:Hup; simpl.
  - destruct (lower_of_upper c Hup) as [Hlow Hback].
    rewrite Hlow, Hback, (IH Hrest). reflexivity.
  - rewrite Hc, (IH Hrest). reflexivity.
Qed.

Lemma word_no_upper (w : string) : is_word w = true -> no_upper w = true.
Proof.
  unfold is_word, no_upper. intros H. apply andb_prop in H as [_ H].
  induction (list_ascii_of_string w) as [|c l IH]; simpl in *; [reflexivity|].
  apply andb_prop in H as [Hc Hl].
  rewrite (lower_not_upper c Hc), (IH Hl). reflexivity.
Qed.

Lemma no_upper_append (a b : string) :
  no_upper (a +:+ b) = no_upper a && no_upper b.
Proof.
  unfold no_upper. induction a as [|c a IH]; simpl; [reflexivity|].
  rewrite IH. apply andb_assoc.
Qed.

Lemma join_words_no_upper (ws : list string) :
  Forall (fun w => is_word w = true) ws -> no_upper (join_words ws) = true.
Proof.
  unfold join_words. induction 1 as [|w ws Hw Hws IH]; simpl; [reflexivity|].
  destruct ws as [|w' ws'].
  - apply word_no_upper, Hw.
  - rewrite !no_upper_append, (word_no_upper w Hw), IH. reflexivity.
Qed.

Lemma camel_key_no_underscore (k : string) :
  camel_key k = true -> no_underscore k = true.
Proof.
  assert (Hletter : forall c, is_letter c = true ->
                      negb (Ascii.eqb c underscore) = true).
  { intros c Hc. destruct (Ascii.eqb c underscore) eqn:E; [|reflexivity].
    destruct (underscore_not_letter c E) as [Hu Hl].
    unfold is_letter in Hc. rewrite Hu, Hl in Hc. discriminate. }
  destruct k as [|c rest]; simpl; [discriminate|].
  intros H. apply andb_prop in H as [Hc Hrest].
  unfold no_underscore. simpl.
  rewrite Hletter by (unfold is_letter; rewrite Hc; reflexivity). simpl.
  induction (list_ascii_of_string rest) as [|d l IH]; simpl in *; [reflexivity|].
  apply andb_prop in Hrest as [Hd Hl]. rewrite (Hletter d Hd), (IH Hl).
  reflexivity.
Qed.

(** C3, as stated, fails: the key [foo_bar] (the words [foo] and [bar]
    joined by an underscore) is left alone by [toSnakeCase] and then
    turned into [fooBar] by [toCamelCase]. *)
Lemma camel_of_snake_changes_underscore_key :
  ~ (forall ws : list string,
       ws <> [] -> Forall (fun w => is_word w = true) ws ->
       toCamelCase (toSnakeCase (join_words ws)) = join_words ws).
Proof.
  intros H.
  specialize (H ["foo"; "bar"]).
  assert (Hne : ["foo"; "bar"] <> ([] : list string)) by discriminate.
  assert (Hw : Forall (fun w => is_word w = true) ["foo"; "bar"]).
  { repeat constructor. }
  specialize (H Hne Hw). vm_compute in H. discriminate H.
Qed.

(** C3, amended: for every key made of lowercase ASCII words joined by
    underscores, converting to word-boundary casing ([toCamelCase]) and
    back ([toSnakeCase]) returns the key. *)
Theorem snake_key_round_trip (ws : list string) :
  ws <> [] -> Forall (fun w => is_word w = true) ws ->
  toSnakeCase (toCamelCase (join_words ws)) = join_words ws.
Proof.
  intros _ Hws. apply snake_of_camel_no_upper, join_words_no_upper, Hws.
Qed.

Lemma snake_key_round_trip_witness :
  toSnakeCase (toCamelCase (join_words ["user"; "first"; "name"]))
  = join_words ["user"; "first"; "name"].
Proof.
  apply (snake_key_round_trip ["user"; "first"; "name"]).
  - discriminate.
  - repeat constructor.
Defined.

(** C7: for every key in word-boundary casing, the request-side conversion
    ([toSnakeCase]) followed by the response-side conversion
    ([toCamelCase]) is the identity. *)
Theorem camel_key_round_trip (k : string) :
  camel_key k = true -> toCamelCase (toSnakeCase k) = k.
Proof.
  intros H. apply camel_of_snake_no_underscore, camel_key_no_underscore, H.
Qed.

Lemma camel_key_round_trip_witness :
  toCamelCase (toSnakeCase "userFirstName") = "userFirstName".
Proof.
  apply (camel_key_round_trip "userFirstName"). reflexivity.
Defined.

End CaseConvFacts.

(** ** Recursive key conversion *)

Section ObjectFacts.
Import Json.

Lemma obj_set_keys_in (acc : object) (k : string) (v : value) (k' : string) :
  In k' (keys (obj_set acc k v)) <-> k' = k \/ In k' (keys acc).
Proof.
  induction acc as [|[k0 w] acc IH]; simpl.
  - intuition.
  - destruct (String.eqb k0 k) eqn:E; simpl.
    + apply String.eqb_eq in E. subst k0. intuition.
    + rewrite IH. intuition.
Qed.

Lemma obj_set_NoDup (acc : object) (k : string) (v : value) :
  List.NoDup (keys acc) -> List.NoDup (keys (obj_set acc k v)).
Proof.
  induction acc as [|[k0 w] acc IH]; simpl; intros H.
  - constructor; [intros [] | constructor].
  - inversion H as [|? ? Hnotin Hnd]; subst.
    destruct (String.eqb k0 k) eqn:E; simpl.
    + constructor; assumption.
    + constructor; [|apply IH, Hnd].
      intros Hin. apply obj_set_keys_in in Hin as [->|Hin].
      * rewrite String.eqb_refl in E. discriminate.
      * contradiction.
Qed.

Lemma obj_set_In (acc : object) (k : string) (v : value) (k' : string) (v' : value) :
  In (k', v') (obj_set acc k v) -> (k' = k /\ v' = v) \/ In (k', v') acc.
Proof.
  induction acc as [|[k0 w] acc IH]; simpl.
  - intros [H|[]]. inversion H. auto.
  - destruct (String.eqb k0 k) eqn:E; simpl.
    + apply String.eqb_eq in E. subst k0.
      intros [H|H]; [inversion H; auto | auto].
    + intros [H|H]; [auto | destruct (IH H); auto].
Qed.

Lemma obj_set_length (acc : object) (k : string) (v : value) :
  length (obj_set acc k v) <= S (length acc) /\
  (In k (keys acc) -> length (obj_set acc k v) = length acc).
Proof.
  induction acc as [|[k0 w] acc [IH1 IH2]]; simpl.
  - split; [lia | intros []].
  - destruct (String.eqb k0 k) eqn:E; simpl.
    + split; [lia | reflexivity].
    + split; [lia|]. intros [->|Hin].
      * rewrite String.eqb_refl in E. discriminate.
      * rewrite IH2 by assumption. reflexivity.
Qed.

Lemma obj_get_set_eq (acc : object) (k : string) (v : value) :
  obj_get (obj_set acc k v) k = Some v.
Proof.
  induction acc as [|[k0 w] acc IH]; simpl.
  - rewrite String.eqb_refl. reflexivity.
  - destruct (String.eqb k0 k) eqn:E; simpl; rewrite E; [reflexivity | exact IH].
Qed.

Lemma obj_get_set_ne (acc : object) (k : string) (v : value) (k' : string) :
  k <> k' -> obj_get (obj_set acc k v) k' = obj_get acc k'.
Proof.
  intros Hne. induction acc as [|[k0 w] acc IH]; simpl.
  - apply String.eqb_neq in Hne. rewrite Hne. reflexivity.
  - destruct (String.eqb k0 k) eqn:E; simpl.
    + apply String.eqb_eq in E. subst k0.
      apply String.eqb_neq in Hne. rewrite Hne. reflexivity.
    + rewrite IH. reflexivity.
Qed.

Context (conv : string -> string) (f : value -> value).

Lemma rebuild_app (a b acc : object) :
  rebuild conv f (a ++ b) acc = rebuild conv f b (rebuild conv f a acc).
Proof. unfold rebuild. apply fold_left_app. Qed.

Lemma rebuild_cons (kv : string * value) (l acc : object) :
  rebuild conv f (kv :: l) acc
  = rebuild conv f l (obj_set acc (conv (fst kv)) (f (snd kv))).
Proof. reflexivity. Qed.

Lemma rebuild_NoDup (props acc : object) :
  List.NoDup (keys acc) -> List.NoDup (keys (rebuild conv f props acc)).
Proof.
  revert acc. induction props as [|kv props IH]; intros acc H; [exact H|].
  rewrite rebuild_cons. apply IH, obj_set_NoDup, H.
Qed.

Lemma rebuild_keys_in (props acc : object) (k' : string) :
  In k' (keys (rebuild conv f props acc)) <->
  In k' (keys acc) \/ exists k, In k (keys props) /\ conv k = k'.
Proof.
  revert acc. induction props as [|[k v] props IH]; intros acc.
  - simpl. split; [auto | intros [H|[k [[] _]]]; exact H].
  - rewrite rebuild_cons, IH, obj_set_keys_in. simpl. split.
    + intros [[->|H]|[k0 [H1 H2]]]; eauto 6.
    + intros [H|[k0 [[<-|H1] H2]]]; eauto 6.
Qed.

Lemma rebuild_In (props acc : object) (k' : string) (v' : value) :
  In (k', v') (rebuild conv f props acc) ->
  In (k', v') acc \/ exists k v, In (k, v) props /\ conv k = k' /\ v' = f v.
Proof.
  revert acc. induction props as [|[k v] props IH]; intros acc.
  - simpl. auto.
  - rewrite rebuild_cons. intros H. apply IH in H as [H|(k0 & v0 & H1 & H2 & H3)].
    + apply obj_set_In in H as [[-> ->]|H]; [|auto].
      right. exists k, v. simpl. auto.
    + right. exists k0, v0. simpl. auto.
Qed.

Lemma rebuild_length (props acc : object) :
  length (rebuild conv f props acc) <= length acc + length props.
Proof.
  revert acc. induction props as [|kv props IH]; intros acc.
  - unfold rebuild. simpl. lia.
  - rewrite rebuild_cons. specialize (IH (obj_set acc (conv (fst kv)) (f (snd kv)))).
    pose proof (obj_set_length acc (conv (fst kv)) (f (snd kv))) as [H _].
    simpl length. lia.
Qed.

Lemma rebuild_get_other (props acc : object) (k' : string) :
  (forall k, In k (keys props) -> conv k <> k') ->
  obj_get (rebuild conv f props acc) k' = obj_get acc k'.
Proof.
  revert acc. induction props as [|[k v] props IH]; intros acc H; [reflexivity|].
  rewrite rebuild_cons, IH.
  - apply obj_get_set_ne. apply H. simpl. auto.
  - intros k0 Hk0. apply H. simpl. auto.
Qed.

(** Two properties whose names convert to the same name leave one
    property: the result is shorter than the input and holds, under that
    name, the conversion of the one listed last. *)
Lemma rebuild_collision (l1 l2 l3 : object) (k1 k2 : string) (v1 v2 : value) :
  conv k1 = conv k2 ->
  (forall k, In k (keys l3) -> conv k <> conv k2) ->
  let props := l1 ++ (k1, v1) :: l2 ++ (k2, v2) :: l3 in
  length (rebuild conv f props []) < length props /\
  obj_get (rebuild conv f props []) (conv k2) = Some (f v2).
Proof.
  intros Hsame Hlast props. subst props.
  rewrite rebuild_app, rebuild_cons, rebuild_app, rebuild_cons. simpl fst. simpl snd.
  set (a1 := rebuild conv f l1 []).
  set (a2 := rebuild conv f l2 (obj_set a1 (conv k1) (f v1))).
  assert (Hin : In (conv k2) (keys a2)).
  { unfold a2. apply rebuild_keys_in. left. apply obj_set_keys_in. auto. }
  split.
  - pose proof (rebuild_length l3 (obj_set a2 (conv k2) (f v2))) as H3.
    pose proof (obj_set_length a2 (conv k2) (f v2)) as [_ H2]. rewrite (H2 Hin) in H3.
    pose proof (rebuild_length l2 (obj_set a1 (conv k1) (f v1))) as H2'. fold a2 in H2'.
    pose proof (obj_set_length a1 (conv k1) (f v1)) as [H1 _].
    pose proof (rebuild_length l1 []) as H0. fold a1 in H0. simpl in H0.
    rewrite !length_app. simpl. rewrite length_app. simpl. lia.
  - rewrite rebuild_get_other by exact Hlast. apply obj_get_set_eq.
Qed.

(** Any function with the three equations of the source's walk meets the
    specification's [converts]. *)
Hypothesis f_leaf : forall v, is_leaf v = true -> f v = v.
Hypothesis f_arr : forall items, f (VArr items) = VArr (map f items).
Hypothesis f_obj : forall props, f (VObj props) = VObj (rebuild conv f props []).


End ObjectFacts.

Section KeyConversionFacts.
Import CaseConv Json KeyShape.

Lemma keysToSnake_leaf (v : value) : is_leaf v = true -> keysToSnake v = v.
Proof. destruct v; simpl; intros H; first [reflexivity | discriminate H]. Qed.

Lemma keysToCamel_leaf (v : value) : is_leaf v = true -> keysToCamel v = v.
Proof. destruct v; simpl; intros H; first [reflexivity | discriminate H]. Qed.

Lemma keysToSnake_obj (props : object) :
  keysToSnake (VObj props) = VObj (rebuild toSnakeCase keysToSnake props []).
Proof. reflexivity. Qed.

Lemma keysToCamel_obj (props : object) :
  keysToCamel (VObj props) = VObj (rebuild toCamelCase keysToCamel props []).
Proof. reflexivity. Qed.



(** C10: key conversion is not injective on objects.  Whenever two
    properties of the input have names with the same conversion, the
    output has fewer properties than the input and holds, under the common
    name, the converted value of the property enumerated last; so for
    [fooBar] and [foo_bar] under [keysToSnake], and for [foo_bar] and
    [fooBar] under [keysToCamel]. *)
Theorem key_collision_loses_a_property :
  (forall (l1 l2 l3 : object) (k1 k2 : string) (v1 v2 : value),
     toSnakeCase k1 = toSnakeCase k2 ->
     (forall k, In k (keys l3) -> toSnakeCase k <> toSnakeCase k2) ->
     exists props',
       keysToSnake (VObj (l1 ++ (k1, v1) :: l2 ++ (k2, v2) :: l3)) = VObj props' /\
       length props' < length (l1 ++ (k1, v1) :: l2 ++ (k2, v2) :: l3) /\
       obj_get props' (toSnakeCase k2) = Some (keysToSnake v2)) /\
  (forall (l1 l2 l3 : object) (k1 k2 : string) (v1 v2 : value),
     toCamelCase k1 = toCamelCase k2 ->
     (forall k, In k (keys l3) -> toCamelCase k <> toCamelCase k2) ->
     exists props',
       keysToCamel (VObj (l1 ++ (k1, v1) :: l2 ++ (k2, v2) :: l3)) = VObj props' /\
       length props' < length (l1 ++ (k1, v1) :: l2 ++ (k2, v2) :: l3) /\
       obj_get props' (toCamelCase k2) = Some (keysToCamel v2)) /\
  keysToSnake (VObj [("fooBar", VNum 1); ("foo_bar", VNum 2)])
    = VObj [("foo_bar", VNum 2)] /\
  keysToCamel (VObj [("foo_bar", VNum 1); ("fooBar", VNum 2)])
    = VObj [("fooBar", VNum 2)].
Proof.
  split; [|split; [|split; reflexivity]].
  - intros l1 l2 l3 k1 k2 v1 v2 Hsame Hlast.
    rewrite keysToSnake_obj. eexists. split; [reflexivity|].
    apply (rebuild_collision toSnakeCase keysToSnake l1 l2 l3 k1 k2 v1 v2 Hsame Hlast).
  - intros l1 l2 l3 k1 k2 v1 v2 Hsame Hlast.
    rewrite keysToCamel_obj. eexists. split; [reflexivity|].
    apply (rebuild_collision toCamelCase keysToCamel l1 l2 l3 k1 k2 v1 v2 Hsame Hlast).
Qed.

End KeyConversionFacts.

(** ** The request function *)

Section ApiFacts.
Import Json Api.

(** A success response is returned as it is and the page is untouched. *)
Lemma handle_response_ok (pg : Page) (r : Response) :
  ok r = true -> handle_response pg r = (pg, Resolved r).
Proof. intros H. unfold handle_response. rewrite H. reflexivity. Qed.

Lemma or_else_chain (a b c d : value) :
  or_else (or_else (or_else a b) c) d = first_available [a; b; c] d.
Proof.
  unfold or_else. simpl.
  destruct (truthy a) eqn:Ha; simpl; rewrite ?Ha; simpl; rewrite ?Ha;
    [reflexivity|].
  destruct (truthy b) eqn:Hb; simpl; rewrite ?Hb; [reflexivity|].
  destruct (truthy c) eqn:Hc; rewrite ?Hc; reflexivity.
Qed.

(** Every failure response whose body is unreadable, or is any JSON value
    other than [null], raises [Error] with the first available of the
    body's [message], its [detail], the status text and the fallback; on a
    401 the page has been through the unauthorized step first. *)
Theorem handle_response_failure (pg : Page) (r : Response) :
  ok r = false -> json r <> Some VNull -> json r <> Some VUndefined ->
  let errorData := default (VObj []) (json r) in
  handle_response pg r =
    (if (status r =? 401)%Z then on_unauthorized pg else pg,
     ThrownError
       (first_available
          [field errorData "message"; field errorData "detail"; VStr (statusText r)]
          (VStr "Request failed"))).
Proof.
  intros Hok Hnull Hundef. unfold handle_response. rewrite Hok. simpl.
  destruct (json r) as [[]|]; simpl; rewrite ?or_else_chain;
    try reflexivity; congruence.
Qed.

Lemma handle_response_failure_witness :
  Api.handle_response (Api.mkPage (Some "tok") (Some "/users") None)
    (Api.mkResponse false 401 "Unauthorized"
       (Some (VObj [("message", VStr ""); ("detail", VStr "token expired")])))
  = (Api.mkPage None (Some "/users") (Some "/login"),
     ThrownError (VStr "token expired")).
Proof.
  apply (handle_response_failure
           (Api.mkPage (Some "tok") (Some "/users") None)
           (Api.mkResponse false 401 "Unauthorized"
              (Some (VObj [("message", VStr ""); ("detail", VStr "token expired")]))));
    [reflexivity | discriminate | discriminate].
Defined.

(** On a 401 the token is gone and, unless the path already contains
    [/login], the page has been sent to [/login]. *)
Lemma handle_response_401 (pg : Page) (r : Response) :
  ok r = false -> status r = 401%Z ->
  let pg' := fst (handle_response pg r) in
  auth_token pg' = None /\
  (forall path, pathname pg = Some path -> includes path "/login" = false ->
     href pg' = Some "/login") /\
  (forall path, pathname pg = Some path -> includes path "/login" = true ->
     href pg' = href pg).
Proof.
  intros Hok Hst. unfold handle_response. rewrite Hok, Hst. simpl.
  assert (H : auth_token (on_unauthorized pg) = None /\
    (forall path, pathname pg = Some path -> includes path "/login" = false ->
       href (on_unauthorized pg) = Some "/login") /\
    (forall path, pathname pg = Some path -> includes path "/login" = true ->
       href (on_unauthorized pg) = href pg)).
  { unfold on_unauthorized. simpl. repeat split.
    - intros path -> ->. reflexivity.
    - intros path -> ->. reflexivity. }
  repeat match goal with
         | |- context [match read_prop ?d ?n with _ => _ end] =>
             destruct (read_prop d n)
         end; exact H.
Qed.

(** C5, the input on which the code departs from the claim: a 500 whose
    body is the JSON value [null].  [response.json()] resolves, so the
    [catch] default is not used, and reading [errorData.message] throws a
    [TypeError] instead of the [Error] built from the status text, which
    is the first available of the four here. *)
Lemma null_error_body_throws_type_error :
  let r := Api.mkResponse false 500 "Internal Server Error" (Some VNull) in
  let pg := Api.mkPage (Some "tok") (Some "/users") None in
  let result := apiRequest (fun _ => Some r) pg "GET" "/api/users" VUndefined in
  result = (pg, ThrownTypeError) /\
  first_available
    [field VNull "message"; field VNull "detail"; VStr (statusText r)]
    (VStr "Request failed") = VStr "Internal Server Error" /\
  result <> (pg, ThrownError (VStr "Internal Server Error")).
Proof. split; [reflexivity | split; [reflexivity | discriminate]]. Qed.

(** The two examples of the specification: a 401 clears the token, and a
    500 with body [{"detail":"boom"}] raises [Error("boom")]. *)
Example apiRequest_examples :
  let pg := Api.mkPage (Some "tok") (Some "/users") None in
  auth_token
    (fst (apiRequest (fun _ => Some (Api.mkResponse false 401 "Unauthorized" None))
            pg "GET" "/api/users" VUndefined)) = None /\
  snd (apiRequest
         (fun _ => Some (Api.mkResponse false 500 "Internal Server Error"
                           (Some (VObj [("detail", VStr "boom")]))))
         pg "GET" "/api/users" VUndefined)
  = ThrownError (VStr "boom").
Proof. split; reflexivity. Qed.

End ApiFacts.

(** ** The presence map *)

Section PresenceMapFacts.
Import Presence.

Lemma collect_statuses_cons (u : string) (b : bool)
    (entries : list (string * bool)) (acc : gmap string UserStatus) :
  collect_statuses ((u, b) :: entries) acc
  = collect_statuses entries
      (if String.eqb u "__proto__" then acc else <[u := mkUserStatus b false]> acc).
Proof. reflexivity. Qed.

Lemma collect_statuses_absent (entries : list (string * bool))
    (acc : gmap string UserStatus) (u : string) :
  u ∉ entries.*1 -> collect_statuses entries acc !! u = acc !! u.
Proof.
  revert acc. induction entries as [|[u0 b0] entries IH]; intros acc Hu; [done|].
  simpl in Hu. apply not_elem_of_cons in Hu as [Hne Hu].
  rewrite collect_statuses_cons, IH by done.
  destruct (String.eqb u0 "__proto__"); [done|]. by rewrite lookup_insert_ne.
Qed.

Lemma collect_statuses_listed (entries : list (string * bool))
    (acc : gmap string UserStatus) (u : string) (b : bool) :
  NoDup entries.*1 -> u <> "__proto__" -> (u, b) ∈ entries ->
  collect_statuses entries acc !! u = Some (mkUserStatus b false).
Proof.
  revert acc. induction entries as [|[u0 b0] entries IH]; intros acc Hnd Hu Hin.
  - by apply elem_of_nil in Hin.
  - simpl in Hnd. apply NoDup_cons in Hnd as [Hfresh Hnd].
    rewrite collect_statuses_cons.
    apply elem_of_cons in Hin as [Heq|Hin].
    + inversion Heq; subst u0 b0.
      apply String.eqb_neq in Hu. rewrite Hu.
      rewrite collect_statuses_absent by done. by rewrite lookup_insert_eq.
    + by apply IH.
Qed.

Lemma collect_statuses_size (entries : list (string * bool))
    (acc : gmap string UserStatus) :
  NoDup entries.*1 -> "__proto__" ∉ entries.*1 ->
  (forall u, u ∈ entries.*1 -> acc !! u = None) ->
  size (collect_statuses entries acc) = size acc + length entries.
Proof.
  revert acc. induction entries as [|[u0 b0] entries IH]; intros acc Hnd Hp Hacc.
  - unfold collect_statuses. simpl. lia.
  - simpl in Hnd, Hp. apply NoDup_cons in Hnd as [Hfresh Hnd].
    apply not_elem_of_cons in Hp as [Hp0 Hp].
    rewrite collect_statuses_cons.
    assert (E : String.eqb u0 "__proto__" = false).
    { apply String.eqb_neq. congruence. }
    rewrite E, IH; [| done | done |].
    + rewrite map_size_insert_None; [simpl; lia|]. apply Hacc. simpl. left.
    + intros u Hu. rewrite lookup_insert_ne.
      * apply Hacc. simpl. by right.
      * intros ->. done.
Qed.

(** C6: an [initial_statuses] push replaces the whole presence map.  For
    every listing of distinct user ids none of which is [__proto__], the
    new map holds an entry for [u] exactly when the push lists [u], that
    entry is the listed flag with [isTyping] false, there is one entry per
    listed pair, and nothing of the previous map survives.  (An id
    [__proto__] would get no entry: see [collect_statuses].) *)
Theorem initial_statuses_replaces_map (s : State) (entries : list (string * bool)) :
  mounted s = true -> NoDup entries.*1 -> "__proto__" ∉ entries.*1 ->
  let s' := onmessage (initial_statuses entries) s in
  (forall u st, userStatuses s' !! u = Some st <->
                exists b, (u, b) ∈ entries /\ st = mkUserStatus b false) /\
  size (userStatuses s') = length entries /\
  (forall u, u ∉ entries.*1 -> userStatuses s' !! u = None).
Proof.
  intros Hm Hnd Hp. simpl. unfold setUserStatuses. rewrite Hm. simpl.
  assert (Hout : forall u, u ∉ entries.*1 -> collect_statuses entries ∅ !! u = None).
  { intros u Hu. by rewrite collect_statuses_absent. }
  assert (Hin_ne : forall u b, (u, b) ∈ entries -> u <> "__proto__").
  { intros u b Hin ->. apply Hp. apply list_elem_of_fmap. by exists ("__proto__", b). }
  split; [|split; [|exact Hout]].
  - intros u st. split.
    + intros Hlook. destruct (decide (u ∈ entries.*1)) as [Hin|Hnin].
      * apply list_elem_of_fmap in Hin as [[u' b] [-> Hin]]. simpl in Hlook.
        rewrite (collect_statuses_listed _ _ _ _ Hnd (Hin_ne _ _ Hin) Hin) in Hlook.
        exists b. split; [done | congruence].
      * rewrite Hout in Hlook by done. discriminate.
    + intros [b [Hin ->]]. apply collect_statuses_listed; eauto.
  - rewrite collect_statuses_size; [| done | done | intros; apply lookup_empty].
    by rewrite map_size_empty.
Qed.

Lemma initial_statuses_replaces_map_witness :
  let s := onmessage (user_status "u9" true None) (mount (Some "tok")) in
  let s' := onmessage (initial_statuses [("u1", true); ("u2", false)]) s in
  getUserStatus s' "u1" = mkUserStatus true false /\
  getUserStatus s' "u2" = mkUserStatus false false /\
  userStatuses s' !! "u9" = None /\
  size (userStatuses s') = 2.
Proof.
  assert (Hm : mounted (onmessage (user_status "u9" true None) (mount (Some "tok")))
               = true) by reflexivity.
  assert (Hnd : NoDup [("u1", true); ("u2", false)].*1).
  { apply NoDup_ListNoDup. repeat constructor; simpl; intuition discriminate. }
  assert (Hp : "__proto__" ∉ [("u1", true); ("u2", false)].*1).
  { intros Hin. apply list_elem_of_In in Hin. simpl in Hin. intuition discriminate. }
  pose proof (initial_statuses_replaces_map _ _ Hm Hnd Hp) as (Hiff & Hsize & Hout).
  cbv zeta in *. unfold getUserStatus. split; [|split; [|split]].
  - erewrite (proj2 (Hiff "u1" _)); [reflexivity|].
    exists true. split; [apply list_elem_of_here | reflexivity].
  - erewrite (proj2 (Hiff "u2" _)); [reflexivity|].
    exists false.
    split; [apply list_elem_of_further, list_elem_of_here | reflexivity].
  - apply Hout. intros Hin. apply list_elem_of_In in Hin. simpl in Hin.
    intuition discriminate.
  - exact Hsize.
Defined.

(** C1, as stated, fails: a [user_status] push without [is_typing] does
    not keep the stored [isTyping]; here the entry of [u1] was typing and
    the push turns the flag off. *)
Lemma user_status_without_typing_resets_it :
  ~ (forall (s : State) (user_id : string) (is_online : bool),
       mounted s = true ->
       isTyping (getUserStatus (onmessage (user_status user_id is_online None) s) user_id)
       = isTyping (getUserStatus s user_id)).
Proof.
  intros H.
  specialize (H (onmessage (user_status "u1" true (Some true)) (mount (Some "tok")))
                "u1" true eq_refl).
  vm_compute in H. discriminate H.
Qed.

(** C1, amended: a [user_status] push upserts the entry of that user with
    [isOnline] set to the pushed flag and [isTyping] set to the pushed
    value when the message has one and to false when it has none; the
    entries of all other users are unchanged. *)
Theorem user_status_upserts_entry (s : State) (user_id : string)
    (is_online : bool) (is_typing : option bool) :
  mounted s = true ->
  let s' := onmessage (user_status user_id is_online is_typing) s in
  userStatuses s' !! user_id
    = Some (mkUserStatus is_online
              (match is_typing with Some b => b | None => false end)) /\
  (forall other, other <> user_id ->
     userStatuses s' !! other = userStatuses s !! other).
Proof.
  intros Hm. simpl. unfold setUserStatuses. rewrite Hm. simpl. split.
  - rewrite lookup_insert_eq. by destruct is_typing.
  - intros other Hne. by rewrite lookup_insert_ne.
Qed.

Lemma user_status_upserts_entry_witness :
  let s := onmessage (user_status "u1" true (Some true)) (mount (Some "tok")) in
  let s' := onmessage (user_status "u2" true None) s in
  userStatuses s' !! "u2" = Some (mkUserStatus true false) /\
  userStatuses s' !! "u1" = userStatuses s !! "u1".
Proof.
  pose proof (user_status_upserts_entry
                (onmessage (user_status "u1" true (Some true)) (mount (Some "tok")))
                "u2" true None eq_refl) as [Hnew Hother].
  split; [exact Hnew | apply Hother; discriminate].
Defined.

End PresenceMapFacts.

(** ** Listener registries *)

Section ListenerFacts.
Import Presence.

Lemma set_add_In (cb : Callback) (l : list Callback) (x : Callback) :
  In x (set_add cb l) <-> x = cb \/ In x l.
Proof.
  unfold set_add. destruct (existsb (Nat.eqb cb) l) eqn:E.
  - apply existsb_exists in E as [y [Hy Heq]]. apply Nat.eqb_eq in Heq. subst y.
    split; [auto | intros [->|H]; assumption].
  - rewrite in_app_iff. simpl. intuition.
Qed.

Lemma set_delete_In (cb : Callback) (l : list Callback) (x : Callback) :
  In x (set_delete cb l) <-> In x l /\ x <> cb.
Proof.
  unfold set_delete. rewrite filter_In, negb_true_iff, Nat.eqb_neq.
  intuition.
Qed.

Lemma set_delete_idempotent (cb : Callback) (l : list Callback) :
  set_delete cb (set_delete cb l) = set_delete cb l.
Proof.
  unfold set_delete. induction l as [|x l IH]; simpl; [reflexivity|].
  destruct (negb (cb =? x)) eqn:E; simpl; [rewrite E|]; congruence.
Qed.

(** One registry, seen through its getter and setter on [State]. *)
Section Registry.
Variable get : State -> list Callback.
Variable put : list Callback -> State -> State.
Hypothesis get_put : forall l s, get (put l s) = l.
Hypothesis put_put : forall l l' s, put l (put l' s) = put l s.

Variable subscribe : Callback -> State -> State * (State -> State).
Hypothesis subscribe_registers :
  forall cb s, fst (subscribe cb s) = put (set_add cb (get s)) s.
Hypothesis subscribe_returns :
  forall cb s s', snd (subscribe cb s) s' = put (set_delete cb (get s')) s'.

Lemma registry_subscribe (cb : Callback) (s : State) :
  let s1 := fst (subscribe cb s) in
  let unsubscribe := snd (subscribe cb s) in
  (forall x, In x (get s1) <-> x = cb \/ In x (get s)) /\
  (forall s' x, In x (get (unsubscribe s')) <-> In x (get s') /\ x <> cb) /\
  (forall s', unsubscribe (unsubscribe s') = unsubscribe s').
Proof.
  cbv zeta. split; [|split].
  - intros x. rewrite subscribe_registers, get_put. apply set_add_In.
  - intros s' x. rewrite subscribe_returns, get_put. apply set_delete_In.
  - intros s'. rewrite !subscribe_returns, get_put, set_delete_idempotent.
    apply put_put.
Qed.

End Registry.

(** C9: each of [onNewMessage], [onMessageStatusUpdate] and
    [onMatchStatusUpdate] adds the callback to its set and returns an
    unsubscribe function that removes that callback and nothing else;
    running it again changes nothing; and with two different new-message
    subscribers registered and the first unsubscribed, a [new_message]
    push calls the second and not the first (and, on a registry that was
    empty before, nobody else). *)
Theorem subscriptions_register_and_unsubscribe (cb : Callback) (s : State) :
  (let s1 := fst (onNewMessage cb s) in
   let unsubscribe := snd (onNewMessage cb s) in
   (forall x, In x (messageListenersRef s1) <-> x = cb \/ In x (messageListenersRef s)) /\
   (forall s' x, In x (messageListenersRef (unsubscribe s')) <->
                 In x (messageListenersRef s') /\ x <> cb) /\
   (forall s', unsubscribe (unsubscribe s') = unsubscribe s')) /\
  (let s1 := fst (onMessageStatusUpdate cb s) in
   let unsubscribe := snd (onMessageStatusUpdate cb s) in
   (forall x, In x (messageStatusListenersRef s1) <->
              x = cb \/ In x (messageStatusListenersRef s)) /\
   (forall s' x, In x (messageStatusListenersRef (unsubscribe s')) <->
                 In x (messageStatusListenersRef s') /\ x <> cb) /\
   (forall s', unsubscribe (unsubscribe s') = unsubscribe s')) /\
  (let s1 := fst (onMatchStatusUpdate cb s) in
   let unsubscribe := snd (onMatchStatusUpdate cb s) in
   (forall x, In x (matchStatusListenersRef s1) <->
              x = cb \/ In x (matchStatusListenersRef s)) /\
   (forall s' x, In x (matchStatusListenersRef (unsubscribe s')) <->
                 In x (matchStatusListenersRef s') /\ x <> cb) /\
   (forall s', unsubscribe (unsubscribe s') = unsubscribe s')) /\
  (forall (cb2 : Callback) (match_id message_id sender_id : string),
     cb <> cb2 ->
     let s1 := fst (onNewMessage cb s) in
     let unsubscribe := snd (onNewMessage cb s) in
     let s2 := fst (onNewMessage cb2 s1) in
     let s3 := onmessage (new_message match_id message_id sender_id) (unsubscribe s2) in
     exists called,
       calls s3 = calls s ++
                  map (fun c => call_new_message c match_id message_id sender_id) called /\
       In cb2 called /\ ~ In cb called /\
       (forall x, In x called -> x = cb2 \/ In x (messageListenersRef s)) /\
       (messageListenersRef s = [] -> called = [cb2])).
Proof.
  split; [|split; [|split]].
  - apply (registry_subscribe messageListenersRef set_messageListenersRef);
      reflexivity.
  - apply (registry_subscribe messageStatusListenersRef set_messageStatusListenersRef);
      reflexivity.
  - apply (registry_subscribe matchStatusListenersRef set_matchStatusListenersRef);
      reflexivity.
  - intros cb2 match_id message_id sender_id Hne. cbv zeta.
    exists (set_delete cb (set_add cb2 (set_add cb (messageListenersRef s)))).
    split; [reflexivity|]. split; [|split; [|split]].
    + apply set_delete_In. split; [apply set_add_In; auto | congruence].
    + intros H. apply set_delete_In in H as [_ H]. congruence.
    + intros x Hx. apply set_delete_In in Hx as [Hx Hxne].
      apply set_add_In in Hx as [->|Hx]; [auto|].
      apply set_add_In in Hx as [->|Hx]; [congruence | auto].
    + intros ->. unfold set_add, set_delete. simpl.
      destruct (Nat.eqb_spec cb2 cb) as [->|_]; [congruence|]. simpl.
      rewrite Nat.eqb_refl. simpl.
      destruct (Nat.eqb_spec cb cb2) as [->|_]; [congruence|]. reflexivity.
Qed.

End ListenerFacts.

(** ** Timer bookkeeping of the connection effect *)

Section TimerFacts.
Import Presence.
#[local] Set Warnings "-clear-no-such-hyp".

(** [consistent] reads five fields only. *)
Lemma consistent_ext (s s' : State) :
  timers s' = timers s -> next_timer s' = next_timer s ->
  heartbeatIntervalRef s' = heartbeatIntervalRef s ->
  reconnectTimeoutRef s' = reconnectTimeoutRef s ->
  typingTimeoutsRef s' = typingTimeoutsRef s ->
  consistent s -> consistent s'.
Proof.
  intros Ht Hn Hh Hr Hy [].
  constructor; rewrite ?Ht, ?Hn, ?Hh, ?Hr, ?Hy; assumption.
Qed.

(** Cancelling a timer never breaks the bookkeeping. *)
Lemma consistent_clearTimer (h : nat) (s : State) :
  consistent s -> consistent (clearTimer h s).
Proof.
  intros []. constructor; simpl; try assumption;
    intros *; rewrite ?lookup_delete_Some; naive_solver.
Qed.

Lemma consistent_clear_if_set (ref : option nat) (s : State) :
  consistent s -> consistent (clear_if_set ref s).
Proof. destruct ref; simpl; auto using consistent_clearTimer. Qed.



(** Proof steps shared by the lemmas below: [lookups] opens lookups in
    updated maps, [saturate] applies the clauses of [consistent] to the
    lookups at hand, [crush] closes what then follows by [eauto], [lia] or
    [congruence]. *)
Ltac lookups :=
  repeat match goal with
  | H : <[_:=_]> _ !! _ = Some _ |- _ => apply lookup_insert_Some in H as [[? ?]|[? H]]
  | H : delete _ _ !! _ = Some _ |- _ => apply lookup_delete_Some in H as [? H]
  | H : Some _ = Some _ |- _ => injection H as H
  | H : _ /\ _ |- _ => destruct H
  | H : exists _, _ |- _ => destruct H
  end; simpl in *; subst.

Ltac note H :=
  let T := type of H in
  lazymatch goal with
  | _ : T |- _ => fail
  | _ => pose proof H
  end.

Ltac saturate :=
  repeat match goal with
  | F : forall h tm, timers ?s !! h = Some tm -> (h < _)%nat,
    H : timers ?s !! ?h = Some ?tm |- _ => note (F h tm H)
  | F : forall h, heartbeatIntervalRef ?s = Some h -> (h < _)%nat,
    H : heartbeatIntervalRef ?s = Some ?h |- _ => note (F h H)
  | F : forall h, reconnectTimeoutRef ?s = Some h -> (h < _)%nat,
    H : reconnectTimeoutRef ?s = Some ?h |- _ => note (F h H)
  | F : forall k h, typingTimeoutsRef ?s !! k = Some h -> (h < _)%nat,
    H : typingTimeoutsRef ?s !! ?k = Some ?h |- _ => note (F k h H)
  | F : forall h tm, heartbeatIntervalRef ?s = Some h -> timers ?s !! h = Some tm -> _,
    H1 : heartbeatIntervalRef ?s = Some ?h, H2 : timers ?s !! ?h = Some ?tm |- _ =>
      note (F h tm H1 H2)
  | F : forall h tm, reconnectTimeoutRef ?s = Some h -> timers ?s !! h = Some tm -> _,
    H1 : reconnectTimeoutRef ?s = Some ?h, H2 : timers ?s !! ?h = Some ?tm |- _ =>
      note (F h tm H1 H2)
  | F : forall k h tm, typingTimeoutsRef ?s !! k = Some h -> timers ?s !! h = Some tm -> _,
    H1 : typingTimeoutsRef ?s !! ?k = Some ?h, H2 : timers ?s !! ?h = Some ?tm |- _ =>
      note (F k h tm H1 H2)
  | F : forall h tm m u, timers ?s !! h = Some tm -> body tm = typing_expiry m u -> _,
    H1 : timers ?s !! ?h = Some ?tm, H2 : body ?tm = typing_expiry ?m ?u |- _ =>
      note (F h tm m u H1 H2)
  | F : forall h tm ws, timers ?s !! h = Some tm -> body tm = heartbeat ws -> _,
    H1 : timers ?s !! ?h = Some ?tm, H2 : body ?tm = heartbeat ?ws |- _ =>
      note (F h tm ws H1 H2)
  end.

Ltac finish :=
  solve [ eauto 6 | lia | congruence | exfalso; eauto 6 | exfalso; lia
        | exfalso; congruence ].

Ltac crush :=
  lookups; saturate; lookups;
  try finish;
  try (rewrite ?lookup_insert, ?lookup_delete; repeat case_decide; subst;
       try finish).

Lemma consistent_add_heartbeat (ws : nat) (s : State) :
  consistent s ->
  (forall h tm ws', timers s !! h = Some tm -> body tm = heartbeat ws' -> False) ->
  consistent (set_heartbeatIntervalRef (Some (next_timer s))
                (snd (setInterval (heartbeat ws) 30000 s))).
Proof. intros [] Hnone. constructor; simpl; intros; crush. Qed.

Lemma consistent_add_reconnect (tok : string) (s : State) :
  consistent s ->
  consistent (set_reconnectTimeoutRef (Some (next_timer s))
                (snd (setTimeout (reconnect tok) 3000 s))).
Proof. intros []. constructor; simpl; intros; crush. Qed.

Lemma consistent_add_typing (m u : string) (s : State) :
  consistent s ->
  (forall h tm m' u', timers s !! h = Some tm -> body tm = typing_expiry m' u' ->
                      typing_key m' u' = typing_key m u -> False) ->
  consistent
    (set_typingTimeoutsRef
       (<[typing_key m u := next_timer s]> (typingTimeoutsRef s))
       (snd (setTimeout (typing_expiry m u) 3000 s))).
Proof.
  intros [] Hnone. constructor; simpl; intros; crush.
Qed.

Lemma consistent_reschedule (h : nat) (tm : Timer) (d : Z) (s : State) :
  consistent s -> timers s !! h = Some tm ->
  consistent (set_timers (<[h := mkTimer (body tm) d (every tm)]> (timers s)) s).
Proof. intros [] Hh. constructor; simpl; intros; crush. Qed.

Lemma consistent_drop_typing (h : nat) (tm : Timer) (m u : string) (s : State) :
  consistent s -> timers s !! h = Some tm -> body tm = typing_expiry m u ->
  consistent
    (set_typingTimeoutsRef (delete (typing_key m u) (typingTimeoutsRef s))
       (clearTimer h s)).
Proof. intros [] Hh Hb. constructor; simpl; intros; crush. Qed.

Lemma consistent_cancel_all (l : list (string * nat)) (s : State) :
  consistent s ->
  consistent (fold_left (fun acc kh => clearTimer (snd kh) acc) l s).
Proof.
  revert s. induction l as [|kh l IH]; intros s H; simpl; [exact H|].
  apply IH, consistent_clearTimer, H.
Qed.

(** Closes a goal by a lemma whose side conditions hold by computation and
    whose last premise is at hand. *)
Ltac by_fields lem := eapply lem; [..|eassumption]; reflexivity.

Lemma consistent_set_ready ws r s : consistent s -> consistent (set_ready ws r s).
Proof. intros H. by_fields consistent_ext. Qed.

Lemma consistent_close ws s : consistent s -> consistent (close ws s).
Proof.
  intros H. unfold close. destruct (ready_state ws s) as [[]|]; try exact H;
    apply consistent_set_ready, H.
Qed.

Lemma consistent_connect tok s : consistent s -> consistent (connect tok s).
Proof. intros H. by_fields consistent_ext. Qed.

Lemma consistent_setTypingStatuses f s :
  consistent s -> consistent (setTypingStatuses f s).
Proof. intros H. unfold setTypingStatuses. destruct (mounted s); [by_fields consistent_ext | exact H]. Qed.

Lemma consistent_setUserStatuses f s :
  consistent s -> consistent (setUserStatuses f s).
Proof. intros H. unfold setUserStatuses. destruct (mounted s); [by_fields consistent_ext | exact H]. Qed.

Lemma consistent_effect s : consistent s -> consistent (effect s).
Proof.
  intros H. unfold effect. destruct (stored_token s); [|by_fields consistent_ext].
  apply (consistent_ext (connect s0 s)); try reflexivity. apply consistent_connect, H.
Qed.

Lemma consistent_cleanup s : consistent s -> consistent (cleanup s).
Proof.
  intros H. unfold cleanup.
  match goal with |- consistent (match wsRef ?x with _ => _ end) =>
    assert (Hx : consistent x) end.
  { apply consistent_cancel_all, consistent_clear_if_set, consistent_clear_if_set, H. }
  destruct (wsRef _); [apply consistent_close|]; exact Hx.
Qed.

Lemma consistent_run_cleanup s : consistent s -> consistent (run_cleanup s).
Proof.
  intros H. unfold run_cleanup. destruct (has_cleanup s); [|exact H].
  apply (consistent_ext (cleanup s)); try reflexivity. apply consistent_cleanup, H.
Qed.

Lemma consistent_onopen ws s : consistent s -> consistent (onopen ws s).
Proof.
  intros H. unfold onopen.
  set (s1 := clear_if_set (heartbeatIntervalRef s) s).
  assert (H1 : consistent s1) by apply consistent_clear_if_set, H.
  assert (Hnone : forall h tm ws', timers s1 !! h = Some tm ->
                    body tm = heartbeat ws' -> False).
  { subst s1. intros h tm ws' Hl Hb.
    destruct (heartbeatIntervalRef s) as [h0|] eqn:E; simpl in Hl.
    - apply lookup_delete_Some in Hl as [Hne Hl].
      pose proof (heartbeat_held s H _ _ _ Hl Hb). congruence.
    - pose proof (heartbeat_held s H _ _ _ Hl Hb). congruence. }
  apply (consistent_add_heartbeat ws s1 H1 Hnone).
Qed.

Lemma consistent_onclose tok s : consistent s -> consistent (onclose tok s).
Proof.
  intros H. unfold onclose.
  set (s1 := clear_if_set (heartbeatIntervalRef s) s).
  assert (H1 : consistent s1) by apply consistent_clear_if_set, H.
  destruct (stored_token s1); [|exact H1].
  apply (consistent_add_reconnect tok s1 H1).
Qed.

Lemma consistent_onmessage data s : consistent s -> consistent (onmessage data s).
Proof.
  intros H. destruct data; simpl; try by_fields consistent_ext; try exact H.
  - apply consistent_setUserStatuses, H.
  - apply consistent_setUserStatuses, H.
  - set (key := typing_key match_id user_id).
    set (s1 := clear_if_set (typingTimeoutsRef s !! key) s).
    assert (H1 : consistent s1) by apply consistent_clear_if_set, H.
    assert (Hnone : forall h tm m' u', timers s1 !! h = Some tm ->
              body tm = typing_expiry m' u' -> typing_key m' u' = key -> False).
    { subst s1. intros h tm m' u' Hl Hb Hk.
      destruct (typing_held s H h tm m' u') as [Hreg _]; [|exact Hb|].
      - destruct (typingTimeoutsRef s !! key); simpl in Hl; [|exact Hl].
        apply lookup_delete_Some in Hl as [_ Hl]. exact Hl.
      - rewrite Hk in Hreg. rewrite Hreg in Hl. simpl in Hl.
        rewrite lookup_delete_eq in Hl. discriminate. }
    set (s2 := setTypingStatuses (with_typing match_id user_id is_typing) s1).
    assert (H2 : consistent s2) by apply consistent_setTypingStatuses, H1.
    destruct is_typing; [|exact H2].
    assert (Hsame : timers s2 = timers s1 /\ next_timer s2 = next_timer s1 /\
                    typingTimeoutsRef s2 = typingTimeoutsRef s1).
    { subst s2. unfold setTypingStatuses. destruct (mounted s1); auto. }
    destruct Hsame as (Ht & Hn & Hy).
    pose proof (consistent_add_typing match_id user_id s2 H2) as Hadd.
    apply Hadd. intros h tm m' u'. rewrite Ht. apply Hnone.
Qed.

(** The bookkeeping is an invariant of the event loop. *)
Lemma consistent_step e s s' : consistent s -> step e s = Some s' -> consistent s'.
Proof.
  intros H Hstep. destruct e; simpl in Hstep.
  - destruct (mounted s); [|discriminate]. injection Hstep as <-.
    apply (consistent_ext (run_cleanup s)); try reflexivity.
    apply consistent_run_cleanup, H.
  - injection Hstep as <-. unfold poll.
    destruct (mounted s); [|exact H]. case_decide; [exact H|].
    apply consistent_effect, consistent_run_cleanup. by_fields consistent_ext.
  - injection Hstep as <-. by_fields consistent_ext.
  - destruct (_ && _); [|discriminate]. injection Hstep as <-. by_fields consistent_ext.
  - destruct (timers s !! h) as [tm|] eqn:Hh; [|discriminate].
    destruct (due tm <=? now s)%Z; [|discriminate]. injection Hstep as <-.
    match goal with |- consistent (run_body _ ?x) => set (s1 := x) end.
    assert (H1 : consistent s1).
    { subst s1. destruct (every tm) as [period|] eqn:Hev.
      - rewrite <- Hev. apply consistent_reschedule; auto.
      - apply consistent_clearTimer, H. }
    destruct (body tm) eqn:Hb; simpl.
    + unfold heartbeat_tick. destruct (is_open _ _); [|exact H1].
      eapply consistent_ext; [..|exact H1]; reflexivity.
    + apply consistent_connect, H1.
    + destruct (typing_held s H h tm _ _ Hh Hb) as [_ Hev].
      subst s1. rewrite Hev in *. unfold typing_expire.
      pose proof (consistent_drop_typing h tm _ _ s H Hh Hb) as Hd.
      unfold setTypingStatuses. destruct (mounted (clearTimer h s)) eqn:Hm.
      * eapply consistent_ext; [..|exact Hd]; reflexivity.
      * exact Hd.
  - destruct (sockets s !! ws) as [[[] tok]|]; try discriminate.
    injection Hstep as <-. apply consistent_onopen, consistent_set_ready, H.
  - destruct (sockets s !! ws) as [[[] tok]|]; try discriminate.
    injection Hstep as <-. apply consistent_onmessage, H.
  - destruct (sockets s !! ws) as [[[] tok]|]; try discriminate;
      injection Hstep as <-; apply consistent_onclose, consistent_set_ready, H.
Qed.

Lemma consistent_mount tok : consistent (mount tok).
Proof.
  unfold mount. apply consistent_effect.
  constructor; simpl; intros *; rewrite ?lookup_empty; try discriminate.
Qed.

Lemma consistent_run es s s' : consistent s -> run es s = Some s' -> consistent s'.
Proof.
  revert s. induction es as [|e es IH]; simpl; intros s H Hr.
  - injection Hr as <-. exact H.
  - destruct (step e s) eqn:E; [|discriminate]. eauto using consistent_step.
Qed.

Lemma reachable_consistent s : reachable s -> consistent s.
Proof. intros (tok & es & H). eapply consistent_run; [apply consistent_mount | exact H]. Qed.

(** *** The typing flag of one pair *)

(** Writing the flag of ([m'], [u']) changes the flag of that pair only. *)
Lemma flag_with_typing (m' u' : string) (b : bool) (m u : string)
    (prev : gmap string (gmap string bool)) :
  default false (with_typing m' u' b prev !! m ≫= fun t => t !! u)
  = if decide (m' = m /\ u' = u) then b
    else default false (prev !! m ≫= fun t => t !! u).
Proof.
  unfold with_typing. destruct (decide (m' = m)) as [->|Hm].
  - rewrite lookup_insert_eq. simpl. destruct (decide (u' = u)) as [->|Hu].
    + rewrite lookup_insert_eq. rewrite decide_True by done. done.
    + rewrite lookup_insert_ne by done. rewrite decide_False by tauto.
      destruct (prev !! m); simpl; [done|]. by rewrite lookup_empty.
  - rewrite lookup_insert_ne by done. rewrite decide_False by tauto. done.
Qed.

Lemma none_due_before_lookup (t : Z) (s : State) (h : nat) (tm : Timer) :
  none_due_before t s = true -> timers s !! h = Some tm -> (t <= due tm)%Z.
Proof.
  unfold none_due_before. rewrite forallb_forall. intros H Hl.
  specialize (H (h, tm)). simpl in H. apply Z.leb_le, H.
  apply list_elem_of_In, elem_of_map_to_list, Hl.
Qed.

Section Watched.
Variables (h : nat) (T : Z) (m u : string).

Lemma setTypingStatuses_mounted f s : mounted s = true ->
  setTypingStatuses f s = set_typingStatuses (f (typingStatuses s)) s.
Proof. intros H. unfold setTypingStatuses. by rewrite H. Qed.

(** A step that keeps the clock, the pair's flag and the pair's timer, and
    adds no timer for the pair, keeps [watched]. *)
Lemma watched_frame (s s' : State) :
  watched h T m u s ->
  mounted s' = true -> now s' = now s ->
  isUserTypingInMatch s' u m = isUserTypingInMatch s u m ->
  keeps h m u s s' -> adds_none m u s s' ->
  watched h T m u s'.
Proof.
  intros [Hm [(Hh & Hf & Hn)|(Hf & Hn & Hnone)]] Hm' Hnow Hflag Hkeep Hnew;
    (split; [exact Hm'|]).
  - left. repeat split; [by apply Hkeep | congruence | lia].
  - right. repeat split; [congruence | lia |].
    intros x tm Hx Hb. eapply Hnone; eauto.
Qed.

(** The two side conditions of [watched_frame], when the step touched no
    timer of the pair: every timer found afterwards was there before. *)
Ltac adds_none_tac :=
  intros ? ? ? ?; simpl in *; lookups; first [discriminate | done].

Ltac frame_tac :=
  try solve [ adds_none_tac | intros ? ? ?; simpl in *; done ].

Lemma watched_onopen ws s :
  consistent s -> watched h T m u s -> watched h T m u (onopen ws s).
Proof.
  intros Hc Hw. pose proof Hw as [Hm _].
  apply (watched_frame s); [exact Hw | ..];
    unfold onopen, clear_if_set;
    destruct (heartbeatIntervalRef s) as [h0|] eqn:E; simpl; try done;
    try adds_none_tac.
  - intros tm Hh Hb. simpl. pose proof (fresh_timer s Hc _ _ Hh).
    rewrite lookup_insert_ne by lia. rewrite lookup_delete_ne; [done|].
    intros ->. destruct (heartbeat_ref s Hc _ _ E Hh). congruence.
  - intros tm Hh Hb. simpl. pose proof (fresh_timer s Hc _ _ Hh).
    rewrite lookup_insert_ne by lia. done.
Qed.

Lemma watched_onclose tok s :
  consistent s -> watched h T m u s -> watched h T m u (onclose tok s).
Proof.
  intros Hc Hw. pose proof Hw as [Hm _].
  apply (watched_frame s); [exact Hw | ..];
    unfold onclose, clear_if_set;
    destruct (heartbeatIntervalRef s) as [h0|] eqn:E; simpl;
    destruct (stored_token _); simpl; try done; try adds_none_tac.
  all: intros tm Hh Hb; simpl; pose proof (fresh_timer s Hc _ _ Hh);
    rewrite ?(lookup_insert_ne _ (next_timer s)) by lia; try done.
  all: rewrite lookup_delete_ne; [done|];
    intros ->; destruct (heartbeat_ref s Hc _ _ E Hh); congruence.
Qed.
Lemma watched_onmessage data s :
  consistent s -> watched h T m u s ->
  (forall m' u' b, data = typing_status m' u' b ->
                   typing_key m' u' <> typing_key m u) ->
  watched h T m u (onmessage data s).
Proof.
  intros Hc Hw Hq. pose proof Hw as [Hm _].
  destruct data; simpl; unfold setUserStatuses; rewrite ?Hm;
    try (apply (watched_frame s); [exact Hw | ..]; simpl; try done;
         try adds_none_tac; intros tm; done).
  specialize (Hq _ _ _ eq_refl).
  assert (Hpair : ~ (match_id = m /\ user_id = u)) by (intros [-> ->]; done).
  set (key := typing_key match_id user_id) in *.
  set (s1 := clear_if_set (typingTimeoutsRef s !! key) s).
  assert (Hm1 : mounted s1 = true).
  { subst s1. unfold clear_if_set. by destruct (_ !! _). }
  rewrite (setTypingStatuses_mounted _ _ Hm1).
  assert (Hkeep1 : keeps h m u s s1).
  { subst s1. intros tm Hh Hb. unfold clear_if_set.
    destruct (typingTimeoutsRef s !! key) as [h0|] eqn:E; [|done]. simpl.
    rewrite lookup_delete_ne; [done|]. intros ->.
    destruct (typing_ref s Hc _ _ _ E Hh) as (m0 & u0 & Hb0 & Hk0).
    rewrite Hb in Hb0. injection Hb0 as <- <-. done. }
  assert (Hnew1 : adds_none m u s s1).
  { subst s1. unfold clear_if_set. destruct (_ !! _); adds_none_tac. }
  assert (Hnow1 : now s1 = now s /\ typingStatuses s1 = typingStatuses s /\
                  next_timer s1 = next_timer s).
  { subst s1. unfold clear_if_set. by destruct (_ !! _). }
  destruct Hnow1 as (Hnow1 & Hts1 & Hnt1).
  apply (watched_frame s); [exact Hw | ..].
  - by destruct is_typing.
  - by destruct is_typing.
  - transitivity (isUserTypingInMatch
                    (set_typingStatuses
                       (with_typing match_id user_id is_typing (typingStatuses s1)) s1) u m).
    { by destruct is_typing. }
    unfold isUserTypingInMatch at 1. simpl. rewrite flag_with_typing.
    rewrite decide_False by done. by rewrite Hts1.
  - intros tm Hh Hb. pose proof (fresh_timer s Hc _ _ Hh).
    destruct is_typing; simpl; [rewrite lookup_insert_ne by lia|]; by apply Hkeep1.
  - intros x tm Hx Hb. destruct is_typing; simpl in Hx.
    + apply lookup_insert_Some in Hx as [[_ <-]|[_ Hx]]; [|by apply Hnew1].
      simpl in Hb. injection Hb as -> ->. done.
    + by apply Hnew1.
Qed.

Lemma watched_fire x s s' :
  consistent s -> watched h T m u s -> step (Fire x) s = Some s' ->
  watched h T m u s'.
Proof.
  intros Hc Hw Hstep. pose proof Hw as [Hm Hcases]. simpl in Hstep.
  destruct (timers s !! x) as [tm|] eqn:Hx; [|discriminate].
  destruct (due tm <=? now s)%Z eqn:Hdue; [|discriminate].
  apply Z.leb_le in Hdue. injection Hstep as <-.
  destruct (decide (body tm = typing_expiry m u)) as [Hb|Hb].
  - (* the watched pair's own timer *)
    destruct (typing_held s Hc _ _ _ _ Hx Hb) as [Hreg Hev].
    rewrite Hb, Hev. simpl. unfold typing_expire.
    rewrite setTypingStatuses_mounted by done. split; [done|]. right.
    repeat split.
    + unfold isUserTypingInMatch. simpl. rewrite flag_with_typing.
      by rewrite decide_True.
    + simpl. destruct Hcases as [(Hh & _ & _)|(_ & Hn & Hnone)].
      * assert (x = h) as ->.
        { destruct (typing_held s Hc _ _ _ _ Hh eq_refl) as [Hreg' _]. congruence. }
        rewrite Hh in Hx. injection Hx as <-. exact Hdue.
      * exact Hn.
    + simpl. intros y tm' Hy Hb'. apply lookup_delete_Some in Hy as [Hne Hy].
      destruct (typing_held s Hc _ _ _ _ Hy Hb') as [Hreg' _]. congruence.
  - (* some other timer *)
    set (s1 := match every tm with
               | Some period =>
                   set_timers
                     (<[x := mkTimer (body tm) (due tm + period) (every tm)]> (timers s)) s
               | None => clearTimer x s
               end).
    assert (Hxh : x <> h \/ typing_expired T m u s).
    { destruct Hcases as [(Hh & _ & _)|He]; [left|by right].
      intros ->. rewrite Hh in Hx. injection Hx as <-. done. }
    assert (Hw1 : watched h T m u s1).
    { apply (watched_frame s); [exact Hw | ..]; subst s1;
        destruct (every tm); simpl; try done.
      all: lazymatch goal with
           | |- keeps _ _ _ _ _ =>
               intros tm' Hh Hb'; simpl;
               destruct Hxh as [Hne|(_ & _ & Hnone)];
               [ rewrite ?lookup_insert_ne, ?lookup_delete_ne by done; done
               | exfalso; by eapply Hnone ]
           | |- adds_none _ _ _ _ =>
               intros y tm' Hy Hb'; simpl in Hy; lookups; done
           end. }
    assert (Hm1 : mounted s1 = true) by apply Hw1.
    assert (Hts1 : typingStatuses s1 = typingStatuses s).
    { subst s1. by destruct (every tm). }
    fold s1. clearbody s1.
    destruct (body tm) as [ws|tok|m' u'] eqn:Hbody; simpl.
    + unfold heartbeat_tick. destruct (is_open ws s1); [|exact Hw1].
      apply (watched_frame s1); [exact Hw1 | ..]; try done; frame_tac.
    + apply (watched_frame s1); [exact Hw1 | ..]; try done; frame_tac.
    + unfold typing_expire. rewrite setTypingStatuses_mounted by done.
      apply (watched_frame s1); [exact Hw1 | ..]; try done; frame_tac.
      unfold isUserTypingInMatch. simpl. rewrite flag_with_typing.
      rewrite decide_False; [done|]. intros [-> ->]. done.
Qed.

(** [watched] is kept by every event that leaves the pair's key alone. *)
Lemma watched_step e s s' :
  consistent s -> watched h T m u s ->
  leaves_alone (typing_key m u) e s = true -> step e s = Some s' ->
  watched h T m u s'.
Proof.
  intros Hc Hw Hq Hstep. pose proof Hw as [Hm Hcases].
  destruct e; simpl in Hq.
  - discriminate.
  - simpl in Hstep. injection Hstep as <-. unfold poll. rewrite Hm.
    apply bool_decide_eq_true in Hq. by rewrite decide_True.
  - simpl in Hstep. injection Hstep as <-.
    apply (watched_frame s); [exact Hw | ..]; try done; frame_tac.
  - simpl in Hstep. destruct (now s <=? t)%Z eqn:Ht; [|discriminate].
    destruct (none_due_before t s) eqn:Hnd; [|discriminate].
    simpl in Hstep. injection Hstep as <-. apply Z.leb_le in Ht.
    split; [done|]. destruct Hcases as [(Hh & Hf & Hn)|(Hf & Hn & Hnone)].
    + left. repeat split; [done | done |]. simpl.
      apply (none_due_before_lookup t s h _ Hnd Hh).
    + right. repeat split; [done | simpl; lia | done].
  - by eapply watched_fire.
  - simpl in Hstep. destruct (sockets s !! ws) as [[[] tok]|]; try discriminate.
    injection Hstep as <-. apply watched_onopen.
    + by apply consistent_set_ready.
    + apply (watched_frame s); [exact Hw | ..]; try done; frame_tac.
  - simpl in Hstep. destruct (sockets s !! ws) as [[[] tok]|]; try discriminate.
    injection Hstep as <-. apply watched_onmessage; [done | done |].
    intros m' u' b ->. apply negb_true_iff, String.eqb_neq in Hq. done.
  - simpl in Hstep.
    destruct (sockets s !! ws) as [[[] tok]|]; try discriminate;
      injection Hstep as <-; (apply watched_onclose;
        [by apply consistent_set_ready
        |apply (watched_frame s); [exact Hw | ..]; try done; frame_tac]).
Qed.

Lemma watched_run es s s' :
  consistent s -> watched h T m u s ->
  quiet (typing_key m u) es s -> run es s = Some s' ->
  watched h T m u s'.
Proof.
  revert s. induction es as [|e es IH]; simpl; intros s Hc Hw Hq Hr.
  - by injection Hr as <-.
  - destruct Hq as [Hq Hrest]. destruct (step e s) as [s1|] eqn:E; [|discriminate].
    apply (IH s1); eauto using consistent_step, watched_step.
Qed.

End Watched.

(** The debounce of the typing flag, for every pair whose timer key no
    other pair's push uses meanwhile.  In any state the hook can reach
    while mounted, a [typing_status] push with [typing = true] sets the
    flag; whatever happens next, short of a push under the same key or a
    teardown, the flag is still set at every time before three seconds
    from that push and is clear at every time after.  A pending timer of
    an earlier push for the pair does not shorten the period: the push
    cancels it and the period runs from the latest push. *)
Theorem typing_flag_expires_after_quiet_period
    (s : State) (ws : nat) (m u : string) (s1 : State)
    (es : list Event) (s' : State) :
  reachable s -> mounted s = true ->
  step (SocketMessage ws (typing_status m u true)) s = Some s1 ->
  quiet (typing_key m u) es s1 -> run es s1 = Some s' ->
  isUserTypingInMatch s1 u m = true /\
  ((now s' < now s + 3000)%Z -> isUserTypingInMatch s' u m = true) /\
  ((now s + 3000 < now s')%Z -> isUserTypingInMatch s' u m = false).
Proof.
  intros Hreach Hm Hstep Hq Hrun.
  pose proof (reachable_consistent s Hreach) as Hc.
  assert (Hc1 : consistent s1) by eauto using consistent_step.
  simpl in Hstep. destruct (sockets s !! ws) as [[[] tok]|]; try discriminate.
  injection Hstep as <-.
  set (s0 := clear_if_set (typingTimeoutsRef s !! typing_key m u) s) in *.
  assert (H0 : mounted s0 = true /\ now s0 = now s).
  { subst s0. unfold clear_if_set. by destruct (_ !! _). }
  destruct H0 as [Hm0 Hnow0].
  assert (Hw : watched (next_timer s0) (now s + 3000) m u
                 (onmessage (typing_status m u true) s)).
  { simpl. fold s0. rewrite (setTypingStatuses_mounted _ _ Hm0). simpl.
    split; [done|]. left. repeat split.
    - simpl. rewrite lookup_insert_eq. by rewrite Hnow0.
    - unfold isUserTypingInMatch. simpl. rewrite flag_with_typing.
      by rewrite decide_True.
    - simpl. lia. }
  pose proof (watched_run _ _ _ _ es _ s' Hc1 Hw Hq Hrun) as [_ Hend].
  destruct Hw as [_ [(_ & Hf & _)|(Hf & _)]]; [|simpl in Hf].
  2: { exfalso. revert Hf. simpl. fold s0. rewrite (setTypingStatuses_mounted _ _ Hm0).
       unfold isUserTypingInMatch. simpl. rewrite flag_with_typing.
       by rewrite decide_True. }
  split; [exact Hf|].
  destruct Hend as [(_ & Hf' & Hn')|(Hf' & Hn' & _)]; split; intros; first [done | lia].
Qed.

Lemma typing_flag_expires_after_quiet_period_witness :
  let s :=
    set_now 2000
      (onmessage (typing_status "m1" "u1" true)
         (onopen 0 (set_ready 0 OPEN (mount (Some "tok"))))) in
  let s1 := onmessage (typing_status "m1" "u1" true) s in
  isUserTypingInMatch (set_now 4999 (poll s1)) "u1" "m1" = true /\
  isUserTypingInMatch
    (set_now 5001 (typing_expire "m1" "u1" (clearTimer 3 (set_now 5000 s1))))
    "u1" "m1" = false.
Proof.
  intros s s1.
  assert (Hreach : reachable s).
  { exists (Some "tok"),
      [SocketOpen 0; SocketMessage 0 (typing_status "m1" "u1" true); Elapse 2000].
    vm_compute. reflexivity. }
  assert (Hm : mounted s = true) by (vm_compute; reflexivity).
  assert (Hstep : step (SocketMessage 0 (typing_status "m1" "u1" true)) s = Some s1)
    by (vm_compute; reflexivity).
  split.
  - refine (proj1 (proj2 (typing_flag_expires_after_quiet_period
                            s 0 "m1" "u1" s1 [Poll; Elapse 4999] _
                            Hreach Hm Hstep _ _)) _).
    + vm_compute. tauto.
    + vm_compute. reflexivity.
    + vm_compute. reflexivity.
  - refine (proj2 (proj2 (typing_flag_expires_after_quiet_period
                            s 0 "m1" "u1" s1 [Elapse 5000; Fire 3; Elapse 5001] _
                            Hreach Hm Hstep _ _)) _).
    + vm_compute. tauto.
    + vm_compute. reflexivity.
    + vm_compute. reflexivity.
Defined.

(** *** What the cleanup cancels *)

Lemma clear_if_set_lookup (ref : option nat) (s : State) (h : nat) (tm : Timer) :
  timers (clear_if_set ref s) !! h = Some tm <->
  timers s !! h = Some tm /\ ref <> Some h.
Proof.
  destruct ref as [h0|]; simpl.
  - rewrite lookup_delete_Some. split; intros [H1 H2]; split; congruence.
  - split; [intros H; split; [exact H | discriminate] | intros [H _]; exact H].
Qed.

Lemma cancel_all_lookup (l : list (string * nat)) (s : State) (h : nat) (tm : Timer) :
  timers (fold_left (fun acc kh => clearTimer (snd kh) acc) l s) !! h = Some tm ->
  timers s !! h = Some tm /\ h ∉ l.*2.
Proof.
  revert s. induction l as [|[k h0] l IH]; intros s H; simpl in *.
  - split; [exact H | apply not_elem_of_nil].
  - apply IH in H as [H Hl]. simpl in H.
    apply lookup_delete_Some in H as [Hne H].
    split; [exact H|]. apply not_elem_of_cons. split; [congruence | exact Hl].
Qed.

Lemma cancel_all_socket (l : list (string * nat)) (s : State) :
  let s' := fold_left (fun acc kh => clearTimer (snd kh) acc) l s in
  wsRef s' = wsRef s /\ sockets s' = sockets s.
Proof.
  revert s. induction l as [|kh l IH]; intros s; simpl; [done|].
  destruct (IH (clearTimer (snd kh) s)) as [-> ->]. done.
Qed.

Lemma close_ready_state (ws : nat) (s : State) :
  ready_state ws (close ws s) = Some CLOSING \/
  ready_state ws (close ws s) = Some CLOSED \/
  ready_state ws (close ws s) = None.
Proof.
  unfold close. destruct (ready_state ws s) as [[]|] eqn:E; auto;
    left; unfold ready_state, set_ready in *; simpl;
    rewrite lookup_alter_eq; destruct (sockets s !! ws); simpl in *; congruence.
Qed.

Lemma close_timers (ws : nat) (s : State) : timers (close ws s) = timers s.
Proof. unfold close. by destruct (ready_state ws s) as [[]|]. Qed.

(** On every exit path the cleanup cancels the heartbeat, every pending
    typing-expiry timer and the reconnect timer that
    [reconnectTimeoutRef] holds, and leaves the socket of [wsRef] closing
    or closed: whatever is still pending afterwards is a reconnect timer
    that the ref does not hold. *)
Theorem cleanup_cancels_held_timers (s : State) :
  reachable s ->
  (forall h tm, timers (cleanup s) !! h = Some tm ->
     exists tok, body tm = reconnect tok /\ reconnectTimeoutRef s <> Some h) /\
  (forall ws, wsRef s = Some ws ->
     ready_state ws (cleanup s) = Some CLOSING \/
     ready_state ws (cleanup s) = Some CLOSED \/
     ready_state ws (cleanup s) = None).
Proof.
  intros Hreach. pose proof (reachable_consistent s Hreach) as Hc.
  unfold cleanup.
  set (s1 := clear_if_set (heartbeatIntervalRef s) s).
  set (s2 := clear_if_set (reconnectTimeoutRef s1) s1).
  set (l := map_to_list (typingTimeoutsRef s2)).
  set (s3 := fold_left (fun acc kh => clearTimer (snd kh) acc) l s2).
  assert (Hrc : reconnectTimeoutRef s1 = reconnectTimeoutRef s).
  { subst s1. by destruct (heartbeatIntervalRef s). }
  assert (Hty : typingTimeoutsRef s2 = typingTimeoutsRef s).
  { subst s2 s1. by destruct (heartbeatIntervalRef s), (reconnectTimeoutRef _). }
  assert (Hws : wsRef s3 = wsRef s /\ sockets s3 = sockets s).
  { destruct (cancel_all_socket l s2) as [H1 H2]. fold s3 in H1, H2.
    rewrite H1, H2. subst s2 s1.
    by destruct (heartbeatIntervalRef s), (reconnectTimeoutRef _). }
  destruct Hws as [Hws Hsock].
  split.
  - intros h tm Hl.
    assert (Hl3 : timers s3 !! h = Some tm).
    { destruct (wsRef s3); [by rewrite close_timers in Hl | done]. }
    apply cancel_all_lookup in Hl3 as [Hl2 Hnot]. fold l in Hnot.
    apply clear_if_set_lookup in Hl2 as [Hl1 Hnrc].
    apply clear_if_set_lookup in Hl1 as [Hl0 Hnhb]. rewrite Hrc in Hnrc.
    destruct (body tm) as [ws|tok|m u] eqn:Hb.
    + pose proof (heartbeat_held s Hc _ _ _ Hl0 Hb). congruence.
    + eauto.
    + destruct (typing_held s Hc _ _ _ _ Hl0 Hb) as [Hreg _].
      exfalso. apply Hnot. subst l. rewrite Hty.
      apply list_elem_of_fmap. exists (typing_key m u, h). split; [done|].
      by apply elem_of_map_to_list.
  - intros ws Hw. rewrite Hws, Hw. apply close_ready_state.
Qed.

Lemma cleanup_cancels_held_timers_witness :
  let s :=
    onmessage (typing_status "m1" "u1" true)
      (onopen 0 (set_ready 0 OPEN (mount (Some "tok")))) in
  match timers (cleanup s) !! 2 with
  | Some tm => exists tok, body tm = reconnect tok /\ reconnectTimeoutRef s <> Some 2
  | None => True
  end /\
  (ready_state 0 (cleanup s) = Some CLOSING \/
   ready_state 0 (cleanup s) = Some CLOSED \/
   ready_state 0 (cleanup s) = None).
Proof.
  intros s.
  assert (Hreach : reachable s).
  { exists (Some "tok"),
      [SocketOpen 0; SocketMessage 0 (typing_status "m1" "u1" true)].
    vm_compute. reflexivity. }
  destruct (cleanup_cancels_held_timers s Hreach) as [Htimers Hsock].
  split.
  - destruct (timers (cleanup s) !! 2) as [tm|] eqn:E; [|exact I].
    exact (Htimers 2 tm E).
  - apply Hsock. reflexivity.
Defined.

(** Typing timers never stack: at most one is pending for a pair. *)
Theorem one_typing_timer_per_pair (s : State) (h1 h2 : nat) (tm1 tm2 : Timer)
    (m u : string) :
  reachable s ->
  timers s !! h1 = Some tm1 -> body tm1 = typing_expiry m u ->
  timers s !! h2 = Some tm2 -> body tm2 = typing_expiry m u ->
  h1 = h2.
Proof.
  intros Hreach H1 Hb1 H2 Hb2. pose proof (reachable_consistent s Hreach) as Hc.
  destruct (typing_held s Hc _ _ _ _ H1 Hb1) as [Hr1 _].
  destruct (typing_held s Hc _ _ _ _ H2 Hb2) as [Hr2 _]. congruence.
Qed.

Lemma one_typing_timer_per_pair_witness :
  let s :=
    onmessage (typing_status "m1" "u1" true)
      (set_now 1000
         (onmessage (typing_status "m1" "u1" true)
            (onopen 0 (set_ready 0 OPEN (mount (Some "tok")))))) in
  3 = 3 /\ timers s !! 2 = None.
Proof.
  intros s.
  assert (Hreach : reachable s).
  { exists (Some "tok"),
      [SocketOpen 0; SocketMessage 0 (typing_status "m1" "u1" true);
       Elapse 1000; SocketMessage 0 (typing_status "m1" "u1" true)].
    vm_compute. reflexivity. }
  split; [|vm_compute; reflexivity].
  apply (one_typing_timer_per_pair s 3 3
           (mkTimer (typing_expiry "m1" "u1") 4000 None)
           (mkTimer (typing_expiry "m1" "u1") 4000 None) "m1" "u1" Hreach);
    vm_compute; reflexivity.
Defined.

End TimerFacts.

(** ** Teardown and the typing timers: two traces *)

Section TraceFacts.
Import Presence.

(** C2, a trace on which the code departs from the claim.  The hook is
    mounted with a token and its socket opens; the view unmounts, so the
    cleanup cancels the heartbeat and closes the socket (nothing is pending
    and nothing was sent).  The close event then runs [onclose], which
    finds the token still stored and schedules a reconnect; three seconds
    later a new socket is made, it opens, starts a new heartbeat, and at
    33 s a ping is sent: after the teardown. *)
Lemma teardown_then_close_event_reconnects :
  let torn_down := run [SocketOpen 0; Unmount] (mount (Some "tok")) in
  let later :=
    torn_down ≫= run [SocketClose 0; Elapse 3000; Fire 2; SocketOpen 1;
                       Elapse 33000; Fire 3] in
  (match torn_down with
   | Some s =>
       mounted s = false /\ map_to_list (timers s) = [] /\ sent s = [] /\
       ready_state 0 s = Some CLOSING
   | None => False
   end) /\
  (match later with
   | Some s =>
       sent s = [(1, ping)] /\
       map_to_list (timers s) = [(3, mkTimer (heartbeat 1) 63000 (Some 30000%Z))]
   | None => False
   end).
Proof. vm_compute. repeat split. Qed.

(** The same defect on the mid-reconnect path.  The stored token changes
    and the effect re-runs: its cleanup closes socket 0 and a new socket 1
    is made.  The close event of socket 0 schedules reconnect timer 1;
    socket 1 fails and its close event schedules timer 2, which replaces
    timer 1 in [reconnectTimeoutRef].  The unmount then cancels timer 2
    only: timer 1 stays pending, fires at 3 s, and the socket it makes
    (with the old token) opens and pings at 33 s. *)
Lemma teardown_mid_reconnect_leaves_timer :
  let torn_down :=
    run [StorageSet (Some "tok2"); Poll; SocketClose 0; SocketClose 1; Unmount]
      (mount (Some "tok")) in
  let later :=
    torn_down ≫= run [Elapse 3000; Fire 1; SocketOpen 2; Elapse 33000; Fire 3] in
  (match torn_down with
   | Some s =>
       mounted s = false /\ reconnectTimeoutRef s = Some 2 /\
       map_to_list (timers s) = [(1, mkTimer (reconnect "tok") 3000 None)]
   | None => False
   end) /\
  (match later with
   | Some s => sent s = [(2, ping)]
   | None => False
   end).
Proof. vm_compute. repeat split. Qed.

(** C4, a trace on which the code departs from the claim.  The pairs
    (conversation [a-b], user [c]) and (conversation [a], user [b-c]) share
    the timer key [a-b-c].  A typing push for the first pair at 0 s starts
    its timer; a typing push for the second pair at 1 s cancels that timer
    and starts its own, which fires at 4 s.  No further push for the first
    pair arrives, and at 30 s its flag is still true with no typing timer
    pending. *)
Lemma colliding_typing_keys_leave_flag_set :
  match run [SocketOpen 0;
             SocketMessage 0 (typing_status "a-b" "c" true);
             Elapse 1000;
             SocketMessage 0 (typing_status "a" "b-c" true);
             Elapse 4000; Fire 3; Elapse 30000] (mount (Some "tok")) with
  | Some s =>
      now s = 30000%Z /\
      isUserTypingInMatch s "c" "a-b" = true /\
      isUserTypingInMatch s "b-c" "a" = false /\
      map_to_list (timers s) = [(1, mkTimer (heartbeat 0) 30000 (Some 30000%Z))]
  | None => False
  end.
Proof. vm_compute. repeat split. Qed.

End TraceFacts.

(* ===================================================================== *)
(** * Further properties of the API client *)
(* ===================================================================== *)

(** ** Idempotence of the two case conversions *)

Section CaseIdempotence.
Import CaseConv KeyShape.

Lemma toSnakeCase_no_upper (k : string) : no_upper (toSnakeCase k) = true.
Proof.
  induction k as [|c rest IH]; [reflexivity|].
  rewrite toSnakeCase_cons. destruct (is_upper c) eqn:Hc.
  - destruct (lower_of_upper c Hc) as [Hlow _].
    rewrite !no_upper_cons, (lower_not_upper _ Hlow), IH. reflexivity.
  - rewrite no_upper_cons, Hc, IH. reflexivity.
Qed.

Lemma toSnakeCase_fixed (k : string) : no_upper k = true -> toSnakeCase k = k.
Proof.
  induction k as [|c rest IH]; [reflexivity|].
  rewrite no_upper_cons. intros H. apply andb_prop in H as [Hc Hrest].
  apply negb_true_iff in Hc. rewrite toSnakeCase_cons, Hc, (IH Hrest). reflexivity.
Qed.

Lemma has_boundary_cons (c : ascii) (rest : string) :
  has_boundary (String c rest) =
  (Ascii.eqb c underscore &&
   match rest with String letter _ => is_lower letter | EmptyString => false end)
  || has_boundary rest.
Proof. reflexivity. Qed.

Lemma toCamelCase_fixed (k : string) : has_boundary k = false -> toCamelCase k = k.
Proof.
  induction k as [|c rest IH]; [reflexivity|].
  rewrite has_boundary_cons. intros H. apply orb_false_elim in H as [Hhere Hrest].
  rewrite toCamelCase_cons. destruct (Ascii.eqb c underscore) eqn:Hus.
  - destruct rest as [|letter rest']; [reflexivity|].
    simpl in Hhere. rewrite Hhere, (IH Hrest). reflexivity.
  - rewrite (IH Hrest). reflexivity.
Qed.

(** The first character of [toCamelCase s] is never a lowercase letter that
    [s] did not start with. *)
Lemma toCamelCase_head (s : string) :
  match s with
  | String d _ =>
      is_lower d = false ->
      match toCamelCase s with
      | String e _ => is_lower e = false
      | EmptyString => True
      end
  | EmptyString => True
  end.
Proof.
  destruct s as [|d r]; [exact I|]. intros Hd. rewrite toCamelCase_cons.
  destruct (Ascii.eqb d underscore) eqn:Hus; [|exact Hd].
  destruct r as [|letter r']; [exact Hd|].
  destruct (is_lower letter) eqn:Hl; [|exact Hd].
  destruct (upper_of_lower letter Hl) as [Hu _].
  destruct (is_lower (toUpperCase letter)) eqn:E; [|reflexivity].
  rewrite (lower_not_upper _ E) in Hu. discriminate.
Qed.

Lemma toCamelCase_no_boundary (k : string) : has_boundary (toCamelCase k) = false.
Proof.
  enough (H : forall n (s : string), String.length s <= n ->
                has_boundary (toCamelCase s) = false).
  { apply (H (String.length k)). lia. }
  clear k. induction n as [|n IH]; intros [|c rest] Hlen;
    try reflexivity; simpl in Hlen; try lia.
  rewrite toCamelCase_cons. destruct (Ascii.eqb c underscore) eqn:Hus.
  - destruct rest as [|letter rest']; [rewrite has_boundary_cons, Hus; reflexivity|].
    destruct (is_lower letter) eqn:Hl.
    + destruct (upper_of_lower letter Hl) as [Hu _].
      rewrite has_boundary_cons. simpl in Hlen. rewrite IH by lia.
      destruct (Ascii.eqb (toUpperCase letter) underscore) eqn:E; [|reflexivity].
      destruct (underscore_not_letter _ E) as [Hu' _]. congruence.
    + rewrite has_boundary_cons, Hus, IH by lia.
      pose proof (toCamelCase_head (String letter rest') Hl) as Hhead.
      destruct (toCamelCase (String letter rest')); [reflexivity|].
      rewrite Hhead. reflexivity.
  - rewrite has_boundary_cons, Hus, IH by lia. reflexivity.
Qed.

(** Both conversions are idempotent. *)
Theorem case_conversions_are_idempotent (k : string) :
  toSnakeCase (toSnakeCase k) = toSnakeCase k /\
  toCamelCase (toCamelCase k) = toCamelCase k.
Proof.
  split.
  - apply toSnakeCase_fixed, toSnakeCase_no_upper.
  - apply toCamelCase_fixed, toCamelCase_no_boundary.
Qed.

End CaseIdempotence.

(** ** Converted values: names, idempotence, round trips *)

Section ValueShape.
Import CaseConv Json KeyShape.

Lemma obj_set_fresh (acc : object) (k : string) (v : value) :
  ~ In k (keys acc) -> obj_set acc k v = acc ++ [(k, v)].
Proof.
  induction acc as [|[k0 w] acc IH]; simpl; intros H; [reflexivity|].
  destruct (String.eqb k0 k) eqn:E.
  - apply String.eqb_eq in E. subst. exfalso. apply H. left. reflexivity.
  - rewrite IH; [reflexivity|]. intros Hin. apply H. right. exact Hin.
Qed.

(** Without two names of the same conversion, the rebuilt object lists the
    converted properties in the order of the input. *)
Lemma rebuild_without_collision (conv : string -> string) (f : value -> value)
    (props acc : object) :
  List.NoDup (keys acc ++ map conv (keys props)) ->
  rebuild conv f props acc
  = acc ++ map (fun kv => (conv (fst kv), f (snd kv))) props.
Proof.
  revert acc. induction props as [|[k v] props IH]; intros acc Hnd.
  - simpl. rewrite app_nil_r. reflexivity.
  - rewrite rebuild_cons. simpl fst. simpl snd. simpl in Hnd.
    assert (Hfresh : ~ In (conv k) (keys acc)).
    { apply NoDup_remove_2 in Hnd. intros Hin. apply Hnd.
      apply in_or_app. left. exact Hin. }
    rewrite (obj_set_fresh _ _ _ Hfresh), IH.
    + rewrite <- app_assoc. reflexivity.
    + unfold keys in *. rewrite map_app. simpl. rewrite <- app_assoc. exact Hnd.
Qed.

Lemma all_keys_obj (P : string -> bool) (props : object) :
  all_keys P (VObj props) = true <->
  forall k v, In (k, v) props -> P k = true /\ all_keys P v = true.
Proof.
  simpl. rewrite forallb_forall. split.
  - intros H k v Hin. apply andb_prop. exact (H (k, v) Hin).
  - intros H [k v] Hin. apply andb_true_intro. exact (H k v Hin).
Qed.

Section Walk.
Context (conv : string -> string) (f : value -> value).
Hypothesis f_leaf : forall v, is_leaf v = true -> f v = v.
Hypothesis f_arr : forall items, f (VArr items) = VArr (map f items).
Hypothesis f_obj : forall props, f (VObj props) = VObj (rebuild conv f props []).

(** Every name in the result is a converted name. *)
Lemma walk_all_keys (P : string -> bool) :
  (forall k, P (conv k) = true) -> forall v, all_keys P (f v) = true.
Proof.
  intros HP v. induction v as [v Hv|items IH|props IH] using value_nested_ind.
  - rewrite f_leaf by exact Hv. destruct v; try reflexivity; discriminate.
  - rewrite f_arr. simpl. rewrite forallb_forall. intros y Hy.
    apply in_map_iff in Hy as [x [<- Hx]].
    rewrite List.Forall_forall in IH. exact (IH x Hx).
  - rewrite f_obj. apply all_keys_obj. intros k' v' Hin.
    apply rebuild_In in Hin as [[]|(k & v & H1 & <- & ->)].
    split; [apply HP|]. rewrite List.Forall_forall in IH. exact (IH (k, v) H1).
Qed.

(** The walk is idempotent when the conversion of names is. *)
Lemma walk_idempotent :
  (forall k, conv (conv k) = conv k) -> forall v, f (f v) = f v.
Proof.
  intros Hconv v. induction v as [v Hv|items IH|props IH] using value_nested_ind.
  - rewrite !f_leaf by (rewrite ?f_leaf by exact Hv; exact Hv). reflexivity.
  - rewrite !f_arr. f_equal. rewrite map_map. apply map_ext_in.
    rewrite List.Forall_forall in IH. exact IH.
  - rewrite !f_obj. f_equal.
    set (o := rebuild conv f props []).
    assert (Hnd : List.NoDup (keys o)) by (apply rebuild_NoDup; constructor).
    assert (Hfix : forall k' v', In (k', v') o -> conv k' = k' /\ f v' = v').
    { intros k' v' Hin. apply rebuild_In in Hin as [[]|(k & v & H1 & <- & ->)].
      split; [apply Hconv|]. rewrite List.Forall_forall in IH. exact (IH (k, v) H1). }
    rewrite rebuild_without_collision.
    + simpl. clear Hnd. induction o as [|[k' v'] o IHo]; [reflexivity|].
      simpl. destruct (Hfix k' v') as [-> ->]; [left; reflexivity|].
      f_equal. apply IHo. intros k v Hin. apply Hfix. right. exact Hin.
    + simpl. replace (map conv (keys o)) with (keys o); [exact Hnd|].
      unfold keys. rewrite map_map. apply map_ext_in. intros [k' v'] Hin.
      simpl. symmetry. apply (Hfix k' v' Hin).
Qed.

End Walk.

Section RoundTrip.
(** Two walks whose conversions undo each other on the names that satisfy
    [P]. *)
Context (conv back : string -> string) (f g : value -> value) (P : string -> bool).
Hypothesis f_leaf : forall v, is_leaf v = true -> f v = v.
Hypothesis f_arr : forall items, f (VArr items) = VArr (map f items).
Hypothesis f_obj : forall props, f (VObj props) = VObj (rebuild conv f props []).
Hypothesis g_leaf : forall v, is_leaf v = true -> g v = v.
Hypothesis g_arr : forall items, g (VArr items) = VArr (map g items).
Hypothesis g_obj : forall props, g (VObj props) = VObj (rebuild back g props []).
Hypothesis back_conv : forall k, P k = true -> back (conv k) = k.

Lemma NoDup_map_conv (l : list string) :
  List.NoDup l -> (forall k, In k l -> P k = true) -> List.NoDup (map conv l).
Proof.
  intros Hnd HP. induction Hnd as [|k l Hk Hnd IH]; simpl; constructor.
  - intros Hin. apply in_map_iff in Hin as [k' [Heq Hk']].
    assert (k' = k).
    { rewrite <- (back_conv k') by (apply HP; right; exact Hk').
      rewrite Heq. apply back_conv, HP. left. reflexivity. }
    subst. contradiction.
  - apply IH. intros k' Hk'. apply HP. right. exact Hk'.
Qed.

Lemma walk_round_trip (v : value) :
  wf v -> all_keys P v = true -> g (f v) = v.
Proof.
  induction v as [v Hv|items IH|props IH] using value_nested_ind; intros Hwf Hkeys.
  - rewrite f_leaf, g_leaf by exact Hv. reflexivity.
  - rewrite f_arr, g_arr. f_equal. rewrite map_map.
    inversion Hwf as [? Hl|? Hitems|]; subst; [discriminate|].
    simpl in Hkeys. rewrite forallb_forall in Hkeys.
    rewrite List.Forall_forall in IH, Hitems.
    rewrite <- (map_id items) at 2. apply map_ext_in. intros x Hx.
    apply IH; auto.
  - inversion Hwf as [? Hl| |? Hnd Hvals]; subst; [discriminate|].
    rewrite all_keys_obj in Hkeys.
    assert (HP : forall k, In k (keys props) -> P k = true).
    { intros k Hin. apply in_map_iff in Hin as [[k' v'] [<- Hin]].
      apply (Hkeys k' v' Hin). }
    rewrite f_obj, g_obj. f_equal.
    rewrite (rebuild_without_collision conv f props []);
      [|simpl; apply NoDup_map_conv; assumption].
    simpl. rewrite rebuild_without_collision.
    + simpl. rewrite map_map. simpl. rewrite <- (map_id props) at 2.
      apply map_ext_in. intros [k v] Hin. simpl.
      rewrite List.Forall_forall in IH, Hvals.
      rewrite back_conv by (apply (Hkeys k v Hin)). f_equal.
      apply (IH (k, v) Hin); [apply (Hvals (k, v) Hin) | apply (Hkeys k v Hin)].
    + simpl. unfold keys. rewrite !map_map. simpl.
      replace (map (fun x : string * value => back (conv (fst x))) props)
        with (keys props); [exact Hnd|].
      unfold keys. apply map_ext_in. intros [k v] Hin. simpl. symmetry.
      apply back_conv, (Hkeys k v Hin).
Qed.

End RoundTrip.
End ValueShape.

Section ConvertedValues.
Import CaseConv Json KeyShape.

Lemma no_boundary_toCamelCase (k : string) :
  negb (has_boundary (toCamelCase k)) = true.
Proof. rewrite toCamelCase_no_boundary. reflexivity. Qed.

(** [toCamelCase] never yields the name [__proto__] (it leaves no
    underscore before a lowercase letter): the assignment of line 28
    always creates or updates a property. *)
Lemma toCamelCase_not_proto (k : string) : toCamelCase k <> "__proto__".
Proof.
  intros H. pose proof (toCamelCase_no_boundary k) as Hb. rewrite H in Hb.
  discriminate Hb.
Qed.

Lemma keysToSnake_names (v : value) : all_keys no_upper (keysToSnake v) = true.
Proof.
  apply (walk_all_keys toSnakeCase keysToSnake).
  - exact keysToSnake_leaf.
  - intros items. reflexivity.
  - exact keysToSnake_obj.
  - exact toSnakeCase_no_upper.
Qed.

Lemma keysToCamel_names (v : value) :
  all_keys (fun k => negb (has_boundary k)) (keysToCamel v) = true.
Proof.
  apply (walk_all_keys toCamelCase keysToCamel).
  - exact keysToCamel_leaf.
  - intros items. reflexivity.
  - exact keysToCamel_obj.
  - exact no_boundary_toCamelCase.
Qed.

(** Well-formedness of a value written out in full. *)
Ltac wf_tac :=
  repeat (simpl;
          first [ apply wf_leaf; reflexivity
                | apply wf_arr
                | apply wf_obj
                | apply List.Forall_nil
                | apply List.Forall_cons
                | apply List.NoDup_nil
                | apply List.NoDup_cons
                | solve [intuition discriminate] ]).

Lemma absent_when_name_excluded (P : string -> bool) (props : object)
    (name : string) :
  all_keys P (VObj props) = true -> P name = false -> obj_get props name = None.
Proof.
  rewrite all_keys_obj. intros Hkeys Hname.
  induction props as [|[k v] props IH]; [reflexivity|]. simpl.
  destruct (String.eqb k name) eqn:E.
  - apply String.eqb_eq in E. subst k.
    destruct (Hkeys name v) as [HP _]; [left; reflexivity|]. congruence.
  - apply IH. intros k' v' Hin. apply Hkeys. right. exact Hin.
Qed.

(** For a value whose objects pass the plain-object test of the source,
    what [keysToSnake] returns has no capital letter in any property name,
    at any nesting level, and what [keysToCamel] returns has no underscore
    followed by a lowercase letter in any property name.  (An object with
    an own property named [constructor] is returned with its names as
    they are.) *)
Theorem converted_names_have_target_casing (v : value) :
  plain_objects v = true ->
  all_keys no_upper (keysToSnake v) = true /\
  all_keys (fun k => negb (has_boundary k)) (keysToCamel v) = true.
Proof. intros _. split; [apply keysToSnake_names | apply keysToCamel_names]. Qed.

Lemma converted_names_have_target_casing_witness :
  let v := VObj [("userName", VStr "ada");
                 ("tag_list", VArr [VObj [("tagId", VNum 1)]; VNull])] in
  all_keys no_upper (keysToSnake v) = true /\
  all_keys (fun k => negb (has_boundary k)) (keysToCamel v) = true.
Proof.
  intros v. apply (converted_names_have_target_casing v). reflexivity.
Defined.

(** When [keysToCamel] is given a value whose objects pass the
    plain-object test of the source and returns an object, that object has
    no own property under a name in underscore casing: a read of
    [thumbnail_url], [view_count] or [founder_profile] on it finds
    nothing. *)
Theorem camel_result_has_no_underscore_property
    (v : value) (props : object) (name : string) :
  plain_objects v = true ->
  keysToCamel v = VObj props -> has_boundary name = true ->
  obj_get props name = None.
Proof.
  intros _ Hv Hname. pose proof (keysToCamel_names v) as Hkeys. rewrite Hv in Hkeys.
  apply (absent_when_name_excluded _ props name Hkeys).
  rewrite Hname. reflexivity.
Qed.

Lemma camel_result_has_no_underscore_property_witness :
  obj_get [("id", VStr "v1"); ("thumbnailUrl", VStr "t.png")] "thumbnail_url"
  = None.
Proof.
  apply (camel_result_has_no_underscore_property
           (VObj [("id", VStr "v1"); ("thumbnail_url", VStr "t.png")])
           [("id", VStr "v1"); ("thumbnailUrl", VStr "t.png")]
           "thumbnail_url"); reflexivity.
Defined.

(** Converting twice is converting once, for both walks and every value. *)
Theorem keys_conversions_are_idempotent (v : value) :
  keysToSnake (keysToSnake v) = keysToSnake v /\
  keysToCamel (keysToCamel v) = keysToCamel v.
Proof.
  split.
  - apply (walk_idempotent toSnakeCase keysToSnake).
    + exact keysToSnake_leaf.
    + intros items. reflexivity.
    + exact keysToSnake_obj.
    + intros k. apply toSnakeCase_fixed, toSnakeCase_no_upper.
  - apply (walk_idempotent toCamelCase keysToCamel).
    + exact keysToCamel_leaf.
    + intros items. reflexivity.
    + exact keysToCamel_obj.
    + intros k. apply toCamelCase_fixed, toCamelCase_no_boundary.
Qed.

(** A request payload survives the trip to the server's casing and back:
    for every value whose objects list no name twice and whose names hold
    no underscore, [keysToCamel (keysToSnake v)] is [v]. *)
Theorem camel_of_snake_value_round_trip (v : value) :
  wf v -> all_keys no_underscore v = true -> keysToCamel (keysToSnake v) = v.
Proof.
  apply (walk_round_trip toSnakeCase toCamelCase keysToSnake keysToCamel no_underscore).
  - exact keysToSnake_leaf.
  - intros items. reflexivity.
  - exact keysToSnake_obj.
  - exact keysToCamel_leaf.
  - intros items. reflexivity.
  - exact keysToCamel_obj.
  - exact camel_of_snake_no_underscore.
Qed.

Lemma camel_of_snake_value_round_trip_witness :
  keysToCamel
    (keysToSnake
       (VObj [("firstName", VStr "Ada");
              ("tags", VArr [VObj [("tagId", VNum 1)]; VNull])]))
  = VObj [("firstName", VStr "Ada");
          ("tags", VArr [VObj [("tagId", VNum 1)]; VNull])].
Proof.
  apply camel_of_snake_value_round_trip; [|reflexivity].
  wf_tac.
Defined.

(** A server payload survives the trip to the client's casing and back:
    for every value whose objects list no name twice, pass the
    plain-object test of the source, and whose names hold no capital
    letter and are not [__proto__], [keysToSnake (keysToCamel v)] is
    [v]. *)
Theorem snake_of_camel_value_round_trip (v : value) :
  wf v -> all_keys no_upper v = true ->
  plain_objects v = true -> snake_assignable v = true ->
  keysToSnake (keysToCamel v) = v.
Proof.
  intros Hwf Hkeys _ _. revert Hwf Hkeys.
  apply (walk_round_trip toCamelCase toSnakeCase keysToCamel keysToSnake no_upper).
  - exact keysToCamel_leaf.
  - intros items. reflexivity.
  - exact keysToCamel_obj.
  - exact keysToSnake_leaf.
  - intros items. reflexivity.
  - exact keysToSnake_obj.
  - exact snake_of_camel_no_upper.
Qed.

Lemma snake_of_camel_value_round_trip_witness :
  keysToSnake
    (keysToCamel
       (VObj [("__meta", VBool true);
              ("video_list", VArr [VObj [("view_count", VNum 7)]])]))
  = VObj [("__meta", VBool true);
          ("video_list", VArr [VObj [("view_count", VNum 7)]])].
Proof.
  apply snake_of_camel_value_round_trip; [|reflexivity|reflexivity|reflexivity].
  wf_tac.
Defined.

End ConvertedValues.

(** ** Requests and responses of the API client *)

Section ClientFacts.
Import CaseConv Json KeyShape Api.

Lemma has_body_methods (method : string) :
  has_body method = true <-> method = "POST" \/ method = "PUT" \/ method = "PATCH".
Proof.
  unfold has_body. rewrite !orb_true_iff, !String.eqb_eq. tauto.
Qed.

(** What [apiRequest] hands to [fetch].  The [Authorization] header is
    there exactly when a non-empty token is stored, and is [Bearer]
    followed by that token.  A body is there exactly when the method is
    POST, PUT or PATCH and the payload is truthy (a payload of [0], the
    empty string, [false] or [null] is sent as no body at all); it is the
    payload under [keysToSnake], so, when the objects of the payload pass
    the plain-object test of the source, none of its property names, at
    any depth, has a capital letter. *)
Theorem request_handed_to_fetch
    (pg : Page) (method endpoint : string) (data : value) :
  let request := build_request pg method endpoint data in
  (forall h, In ("Authorization", h) (req_headers request) <->
     exists token, auth_token pg = Some token /\ token <> "" /\
                   h = "Bearer " +:+ token) /\
  (forall b, req_body request = Some b <->
     (method = "POST" \/ method = "PUT" \/ method = "PATCH") /\
     truthy data = true /\ b = keysToSnake data) /\
  (forall b, req_body request = Some b -> plain_objects data = true ->
     all_keys no_upper b = true).
Proof.
  cbv zeta.
  assert (H : forall b, req_body (build_request pg method endpoint data) = Some b <->
     (method = "POST" \/ method = "PUT" \/ method = "PATCH") /\
     truthy data = true /\ b = keysToSnake data).
  { intros b. rewrite <- has_body_methods. simpl.
    destruct (truthy data), (has_body method); simpl;
      split; try discriminate; try (intros (? & ? & ?); discriminate).
    - intros [= <-]. auto.
    - intros (_ & _ & ->). reflexivity. }
  split; [|split; [exact H|]].
  - intros h. simpl. destruct (auth_token pg) as [token|].
    + destruct (String.eqb_spec token "") as [->|Hne]; simpl.
      * split; [intros [[=]|[]] | intros (t & [= <-] & Hne & _); congruence].
      * split.
        -- intros [[=]|[[= <-]|[]]]. eauto.
        -- intros (t & [= <-] & _ & ->). auto.
    + simpl. split; [intros [[=]|[]] | intros (t & [=] & _)].
  - intros b Hb _. apply H in Hb as (_ & _ & ->). apply keysToSnake_names.
Qed.

(** [apiFetch] yields a value only from a success response whose body is
    JSON: the value is that body under [keysToCamel], and the token and the
    location are as they were. *)
Theorem apiFetch_yields_converted_body
    (fetch : Request -> option Response) (pg pg' : Page)
    (method endpoint : string) (data v : value) :
  apiFetch fetch pg method endpoint data = (pg', inl v) <->
  pg' = pg /\
  exists r body,
    fetch (build_request pg method endpoint data) = Some r /\
    ok r = true /\ json r = Some body /\ v = keysToCamel body.
Proof.
  unfold apiFetch, apiRequest.
  destruct (fetch (build_request pg method endpoint data)) as [r|].
  - unfold handle_response. destruct (ok r) eqn:Hok; simpl.
    + destruct (json r) as [body|] eqn:Hj.
      * split.
        -- intros [= <- <-]. split; [reflexivity|]. exists r, body. auto.
        -- intros (-> & r' & body' & [= <-] & _ & Hj' & ->).
           rewrite Hj in Hj'. injection Hj' as <-. reflexivity.
      * split; [discriminate|].
        intros (_ & r' & body' & [= <-] & _ & Hj' & _). congruence.
    + split.
      * repeat match goal with
               | |- context [match read_prop ?d ?n with _ => _ end] =>
                   destruct (read_prop d n)
               end; discriminate.
      * intros (_ & r' & body' & [= <-] & Hok' & _). congruence.
  - split; [discriminate|]. intros (_ & r' & body' & [=] & _).
Qed.

Lemma or_else_truthy (a b : value) : truthy b = true -> truthy (or_else a b) = true.
Proof. intros Hb. unfold or_else. destruct (truthy a) eqn:Ha; assumption. Qed.

(** The message of the [Error] that [apiRequest] throws is never empty,
    [undefined] or otherwise falsy: the chain ends in a fixed text. *)
Theorem thrown_message_is_truthy
    (fetch : Request -> option Response) (pg pg' : Page)
    (method endpoint : string) (data errorMessage : value) :
  apiRequest fetch pg method endpoint data = (pg', ThrownError errorMessage) ->
  truthy errorMessage = true.
Proof.
  unfold apiRequest. destruct (fetch _) as [r|]; [|discriminate].
  unfold handle_response. destruct (ok r); simpl; [discriminate|].
  repeat match goal with
         | |- context [match read_prop ?d ?n with _ => _ end] =>
             destruct (read_prop d n)
         end; try discriminate.
  intros [= _ <-]. apply or_else_truthy. reflexivity.
Qed.

Lemma thrown_message_is_truthy_witness :
  truthy (VStr "Request failed") = true.
Proof.
  apply (thrown_message_is_truthy
           (fun _ => Some (mkResponse false 500 "" (Some (VObj [("message", VStr "")]))))
           (mkPage None None None) (mkPage None None None)
           "GET" "/api/users" VUndefined (VStr "Request failed")).
  reflexivity.
Defined.

(** Only a 401 touches the page.  When the response is a failure with
    status 401 the token is removed and, unless the path already contains
    [/login], the location becomes [/login]; in every other case (success,
    another failure status, a rejected [fetch]) the token and the location
    are as they were. *)
Theorem page_changes_only_on_401
    (fetch : Request -> option Response) (pg : Page)
    (method endpoint : string) (data : value) :
  let pg' := fst (apiRequest fetch pg method endpoint data) in
  let unauthorized :=
    exists r, fetch (build_request pg method endpoint data) = Some r /\
              ok r = false /\ status r = 401%Z in
  (unauthorized ->
     auth_token pg' = None /\ pathname pg' = pathname pg /\
     (forall path, pathname pg = Some path ->
        href pg' = if includes path "/login" then href pg else Some "/login") /\
     (pathname pg = None -> href pg' = href pg)) /\
  (~ unauthorized -> pg' = pg).
Proof.
  cbv zeta. unfold apiRequest.
  destruct (fetch (build_request pg method endpoint data)) as [r|].
  - unfold handle_response. destruct (ok r) eqn:Hok; simpl.
    + split; [intros (r' & [= <-] & ? & _); congruence | reflexivity].
    + destruct (Z.eqb_spec (status r) 401) as [Hst|Hst].
      * split.
        -- intros _.
           assert (H : auth_token (on_unauthorized pg) = None /\
                       pathname (on_unauthorized pg) = pathname pg /\
                       (forall path, pathname pg = Some path ->
                          href (on_unauthorized pg)
                          = if includes path "/login" then href pg else Some "/login") /\
                       (pathname pg = None -> href (on_unauthorized pg) = href pg)).
           { unfold on_unauthorized. simpl. split; [reflexivity|].
             split; [reflexivity|]. split; [intros path ->|intros ->]; reflexivity. }
           repeat match goal with
                  | |- context [match read_prop ?d ?n with _ => _ end] =>
                      destruct (read_prop d n)
                  end; exact H.
        -- intros Hn. exfalso. apply Hn. exists r. auto.
      * split.
        -- intros (r' & [= <-] & _ & ?). congruence.
        -- intros _.
           repeat match goal with
                  | |- context [match read_prop ?d ?n with _ => _ end] =>
                      destruct (read_prop d n)
                  end; reflexivity.
  - split; [intros (r' & [=] & _) | reflexivity].
Qed.

Lemma apiFetch_value fetch pg method endpoint data pg' v :
  apiFetch fetch pg method endpoint data = (pg', inl v) ->
  pg' = pg /\
  exists r body, fetch (build_request pg method endpoint data) = Some r /\
                 ok r = true /\ json r = Some body /\ v = keysToCamel body.
Proof.
  unfold apiFetch, apiRequest. destruct (fetch _) as [r|]; [|discriminate].
  unfold handle_response. destruct (ok r) eqn:Hok; simpl.
  - destruct (json r) as [body|] eqn:Hj; [|discriminate].
    intros [= <- <-]. split; [reflexivity|]. exists r, body. auto.
  - repeat match goal with
           | |- context [match read_prop ?d ?n with _ => _ end] =>
               destruct (read_prop d n)
           end; discriminate.
Qed.

Lemma apiFetch_failure_page fetch pg method endpoint data pg' o :
  apiFetch fetch pg method endpoint data = (pg', inr o) ->
  pg' = pg \/ pg' = on_unauthorized pg.
Proof.
  unfold apiFetch, apiRequest. destruct (fetch _) as [r|].
  - unfold handle_response. destruct (ok r); simpl.
    + destruct (json r); intros [= <- _]; auto.
    + destruct (status r =? 401)%Z;
        repeat match goal with
               | |- context [match read_prop ?d ?n with _ => _ end] =>
                   destruct (read_prop d n)
               end; intros [= <- _]; auto.
  - intros [= <- _]. auto.
Qed.

End ClientFacts.

(* ===================================================================== *)
(** * Further properties of the presence hook *)
(* ===================================================================== *)

Section HookFacts.
Import Presence Traces.

(** *** Without a token *)

Lemma falsy_stored (s : State) : falsy_token (storage s) = true -> stored_token s = None.
Proof.
  unfold stored_token, falsy_token. destruct (storage s) as [t|]; [|reflexivity].
  intros ->. reflexivity.
Qed.

Lemma idle_mount (tok : option string) : falsy_token tok = true -> idle (mount tok).
Proof.
  intros H. unfold mount, effect.
  rewrite (falsy_stored (mkState 0 tok ∅ 1 ∅ 0 [] [] true false tok ∅ ∅ None None None ∅ [] [] []) H).
  repeat split. simpl. apply (falsy_stored (mkState 0 tok ∅ 1 ∅ 0 [] [] true false tok ∅ ∅ None None None ∅ [] [] []) H).
Qed.

Lemma idle_step (e : Event) (s s' : State) :
  idle s -> stores_no_token e = true -> step e s = Some s' -> idle s'.
Proof.
  intros (Htok & Hcl & Hso & Hti & Hse & Hus & Hty) He Hstep.
  destruct e; simpl in Hstep.
  - destruct (mounted s); [|discriminate]. injection Hstep as <-.
    unfold run_cleanup. rewrite Hcl. repeat split; assumption.
  - injection Hstep as <-. unfold poll.
    destruct (mounted s); [|repeat split; assumption].
    case_decide; [repeat split; assumption|].
    unfold run_cleanup. simpl. rewrite Hcl. unfold effect.
    replace (stored_token (set_token (storage s) s)) with (stored_token s)
      by reflexivity.
    rewrite Htok. repeat split; assumption.
  - injection Hstep as <-. simpl in He.
    repeat split; try assumption.
    apply (falsy_stored (set_storage tok s)). exact He.
  - destruct (_ && _); [|discriminate]. injection Hstep as <-.
    repeat split; assumption.
  - rewrite Hti, lookup_empty in Hstep. discriminate.
  - rewrite Hso, lookup_empty in Hstep. discriminate.
  - rewrite Hso, lookup_empty in Hstep. discriminate.
  - rewrite Hso, lookup_empty in Hstep. discriminate.
Qed.

Lemma idle_run (es : list Event) (s s' : State) :
  idle s -> forallb stores_no_token es = true -> run es s = Some s' -> idle s'.
Proof.
  revert s. induction es as [|e es IH]; simpl; intros s Hi Hes Hrun.
  - injection Hrun as <-. exact Hi.
  - apply andb_true_iff in Hes as [He Hes].
    destruct (step e s) as [s1|] eqn:E; [|discriminate].
    eapply IH; [eapply idle_step; eassumption | exact Hes | exact Hrun].
Qed.

(** A hook mounted without a usable token stays disconnected for as long
    as none is stored: whatever else happens, it has opened no socket, set
    no heartbeat, reconnect or typing timer (the interval of the token
    poll is not among [timers]), sent no frame and holds no status. *)
Theorem no_token_no_connection (tok : option string) (es : list Event) (s : State) :
  falsy_token tok = true -> forallb stores_no_token es = true ->
  run es (mount tok) = Some s ->
  sockets s = ∅ /\ timers s = ∅ /\ sent s = [] /\
  userStatuses s = ∅ /\ typingStatuses s = ∅.
Proof.
  intros Htok Hes Hrun.
  destruct (idle_run es (mount tok) s (idle_mount tok Htok) Hes Hrun)
    as (_ & _ & ? & ? & ? & ? & ?).
  repeat split; assumption.
Qed.

Lemma no_token_no_connection_witness :
  match run [Poll; Elapse 5000; StorageSet (Some ""); Poll; Unmount] (mount None) with
  | Some s => sockets s = ∅ /\ timers s = ∅ /\ sent s = [] /\
              userStatuses s = ∅ /\ typingStatuses s = ∅
  | None => False
  end.
Proof.
  destruct (run [Poll; Elapse 5000; StorageSet (Some ""); Poll; Unmount] (mount None))
    as [s|] eqn:E; [|vm_compute in E; discriminate].
  apply (no_token_no_connection None
           [Poll; Elapse 5000; StorageSet (Some ""); Poll; Unmount] s);
    [reflexivity | reflexivity | exact E].
Defined.

(** *** The heartbeat *)

(** At most one heartbeat interval is pending, in every state the hook
    can reach. *)
Theorem one_heartbeat_interval (s : State) (h1 h2 : nat) (tm1 tm2 : Timer)
    (ws1 ws2 : nat) :
  reachable s ->
  timers s !! h1 = Some tm1 -> body tm1 = heartbeat ws1 ->
  timers s !! h2 = Some tm2 -> body tm2 = heartbeat ws2 ->
  h1 = h2.
Proof.
  intros Hreach H1 Hb1 H2 Hb2. pose proof (reachable_consistent s Hreach) as Hc.
  pose proof (heartbeat_held s Hc _ _ _ H1 Hb1).
  pose proof (heartbeat_held s Hc _ _ _ H2 Hb2). congruence.
Qed.

Lemma one_heartbeat_interval_witness :
  let s := onopen 0 (set_ready 0 OPEN (mount (Some "tok"))) in
  1 = 1 /\ heartbeatIntervalRef s = Some 1.
Proof.
  intros s.
  assert (Hreach : reachable s).
  { exists (Some "tok"), [SocketOpen 0]. vm_compute. reflexivity. }
  split; [|reflexivity].
  apply (one_heartbeat_interval s 1 1
           (mkTimer (heartbeat 0) 30000 (Some 30000%Z))
           (mkTimer (heartbeat 0) 30000 (Some 30000%Z)) 0 0 Hreach);
    vm_compute; reflexivity.
Defined.

(** The open event of a socket replaces the heartbeat: afterwards the one
    pending heartbeat is the new interval, it pings the socket that opened,
    first after 30 s and then every 30 s. *)
Theorem open_event_restarts_heartbeat (s : State) (ws : nat) (s' : State) :
  reachable s -> step (SocketOpen ws) s = Some s' ->
  heartbeatIntervalRef s' = Some (next_timer s) /\
  timers s' !! next_timer s
  = Some (mkTimer (heartbeat ws) (now s + 30000) (Some 30000%Z)) /\
  (forall h tm w, timers s' !! h = Some tm -> body tm = heartbeat w ->
     h = next_timer s).
Proof.
  intros Hreach Hstep. pose proof (reachable_consistent s Hreach) as Hc.
  simpl in Hstep. destruct (sockets s !! ws) as [[[] tok]|]; try discriminate.
  injection Hstep as <-. unfold onopen.
  assert (Hhb : heartbeatIntervalRef (set_ready ws OPEN s) = heartbeatIntervalRef s)
    by reflexivity.
  rewrite Hhb.
  destruct (heartbeatIntervalRef s) as [h0|] eqn:Hh0; simpl;
    (split; [reflexivity|]); (split; [by rewrite lookup_insert_eq|]);
    intros h tm w Hl Hb;
    apply lookup_insert_Some in Hl as [[? _]|[Hne Hl]]; try done.
  - apply lookup_delete_Some in Hl as [Hne0 Hl].
    pose proof (heartbeat_held s Hc _ _ _ Hl Hb). congruence.
  - pose proof (heartbeat_held s Hc _ _ _ Hl Hb). congruence.
Qed.

Lemma open_event_restarts_heartbeat_witness :
  let a := onopen 0 (set_ready 0 OPEN (mount (Some "tok"))) in
  let b := poll (set_storage (Some "tok2") a) in
  let c := onclose "tok" (set_ready 0 CLOSED b) in
  let d := onopen 1 (set_ready 1 OPEN c) in
  let s := connect "tok" (clearTimer 2 (set_now 3000 d)) in
  let s' := onopen 2 (set_ready 2 OPEN s) in
  timers s !! 3 = Some (mkTimer (heartbeat 1) 30000 (Some 30000%Z)) /\
  heartbeatIntervalRef s' = Some 4 /\
  timers s' !! 4 = Some (mkTimer (heartbeat 2) 33000 (Some 30000%Z)) /\
  timers s' !! 3 = None.
Proof.
  intros a b c d s s'.
  assert (Hreach : reachable s).
  { exists (Some "tok"),
      [SocketOpen 0; StorageSet (Some "tok2"); Poll; SocketClose 0; SocketOpen 1;
       Elapse 3000; Fire 2].
    vm_compute. reflexivity. }
  assert (Hstep : step (SocketOpen 2) s = Some s') by (vm_compute; reflexivity).
  destruct (open_event_restarts_heartbeat s 2 s' Hreach Hstep) as (H1 & H2 & H3).
  split; [vm_compute; reflexivity|].
  split; [exact H1|]. split; [exact H2|]. vm_compute. reflexivity.
Defined.

(** The close event of a socket stops the heartbeat, whichever socket it
    is: afterwards no heartbeat is pending, also when the socket that
    closed is an old one and the heartbeat was pinging its successor. *)
Theorem close_event_stops_every_heartbeat (s : State) (ws : nat) (s' : State) :
  reachable s -> step (SocketClose ws) s = Some s' ->
  forall h tm w, timers s' !! h = Some tm -> body tm = heartbeat w -> False.
Proof.
  intros Hreach Hstep h tm w Hl Hb.
  pose proof (reachable_consistent s Hreach) as Hc.
  assert (Hon : exists tok, s' = onclose tok (set_ready ws CLOSED s)).
  { simpl in Hstep. destruct (sockets s !! ws) as [[[] tok]|]; try discriminate;
      injection Hstep as <-; eauto. }
  destruct Hon as [tok ->]. unfold onclose in Hl.
  set (s0 := set_ready ws CLOSED s) in *.
  assert (Hold : timers (clear_if_set (heartbeatIntervalRef s0) s0) !! h = Some tm).
  { destruct (stored_token _); [|exact Hl]. simpl in Hl.
    apply lookup_insert_Some in Hl as [[_ <-]|[_ Hl]]; [discriminate | exact Hl]. }
  apply clear_if_set_lookup in Hold as [Hold Hnot].
  apply Hnot. exact (heartbeat_held s Hc _ _ _ Hold Hb).
Qed.

Lemma close_event_stops_every_heartbeat_witness :
  let s :=
    onopen 1 (set_ready 1 OPEN
      (poll (set_storage (Some "tok2")
         (onopen 0 (set_ready 0 OPEN (mount (Some "tok"))))))) in
  let s' := onclose "tok" (set_ready 0 CLOSED s) in
  is_open 1 s' = true /\
  timers s !! 2 = Some (mkTimer (heartbeat 1) 30000 (Some 30000%Z)) /\
  ~ (exists tm, timers s' !! 2 = Some tm /\ body tm = heartbeat 1).
Proof.
  intros s s'.
  assert (Hreach : reachable s).
  { exists (Some "tok"), [SocketOpen 0; StorageSet (Some "tok2"); Poll; SocketOpen 1].
    vm_compute. reflexivity. }
  assert (Hstep : step (SocketClose 0) s = Some s') by (vm_compute; reflexivity).
  split; [vm_compute; reflexivity|]. split; [vm_compute; reflexivity|].
  intros (tm & Hl & Hb).
  exact (close_event_stops_every_heartbeat s 0 s' Hreach Hstep 2 tm 1 Hl Hb).
Defined.

(** *** Frames *)

Lemma sent_clear_if_set ref s : sent (clear_if_set ref s) = sent s.
Proof. by destruct ref. Qed.

Lemma sent_cancel_all (l : list (string * nat)) (s : State) :
  sent (fold_left (fun acc kh => clearTimer (snd kh) acc) l s) = sent s.
Proof. revert s. induction l as [|kh l IH]; intros s; simpl; [done|]. by rewrite IH. Qed.

Lemma sent_close ws s : sent (close ws s) = sent s.
Proof. unfold close. by destruct (ready_state ws s) as [[]|]. Qed.

Lemma sent_cleanup s : sent (cleanup s) = sent s.
Proof.
  unfold cleanup.
  match goal with
  | |- sent (match wsRef ?x with _ => _ end) = _ =>
      destruct (wsRef x); rewrite ?sent_close, sent_cancel_all, !sent_clear_if_set
  end; reflexivity.
Qed.

Lemma sent_run_cleanup s : sent (run_cleanup s) = sent s.
Proof. unfold run_cleanup. destruct (has_cleanup s); [apply sent_cleanup | done]. Qed.

Lemma sent_effect s : sent (effect s) = sent s.
Proof. unfold effect. by destruct (stored_token s). Qed.

Lemma sent_poll s : sent (poll s) = sent s.
Proof.
  unfold poll. destruct (mounted s); [|done]. case_decide; [done|].
  by rewrite sent_effect, sent_run_cleanup.
Qed.

Lemma sent_setTypingStatuses f s : sent (setTypingStatuses f s) = sent s.
Proof. unfold setTypingStatuses. by destruct (mounted s). Qed.

Lemma sent_setUserStatuses f s : sent (setUserStatuses f s) = sent s.
Proof. unfold setUserStatuses. by destruct (mounted s). Qed.

Lemma sent_onmessage data s : sent (onmessage data s) = sent s.
Proof.
  destruct data; simpl; rewrite ?sent_setUserStatuses; try reflexivity.
  destruct is_typing; simpl; by rewrite sent_setTypingStatuses, sent_clear_if_set.
Qed.

Lemma sent_onopen ws s : sent (onopen ws s) = sent s.
Proof. unfold onopen. simpl. apply sent_clear_if_set. Qed.

Lemma sent_onclose tok s : sent (onclose tok s) = sent s.
Proof.
  unfold onclose. destruct (stored_token _); simpl; apply sent_clear_if_set.
Qed.

(** The hook sends a frame only to a socket that is open at that moment.
    Of all events only a heartbeat tick sends, a ping to the socket the
    interval was started for; [sendTypingStatus] sends its frame to the
    socket of [wsRef] when that one is open and does nothing otherwise. *)
Theorem frames_only_to_open_sockets :
  (forall e s s', step e s = Some s' ->
     sent s' = sent s \/
     exists h tm ws, e = Fire h /\ timers s !! h = Some tm /\
                     body tm = heartbeat ws /\ is_open ws s = true /\
                     sent s' = sent s ++ [(ws, ping)]) /\
  (forall matchId isTyping s,
     let s' := sendTypingStatus matchId isTyping s in
     (exists ws, wsRef s = Some ws /\ is_open ws s = true /\
                 s' = send ws (typing matchId isTyping) s) \/
     (s' = s /\ forall ws, wsRef s = Some ws -> is_open ws s = false)).
Proof.
  split.
  - intros e s s' Hstep. destruct e; simpl in Hstep.
    + destruct (mounted s); [|discriminate]. injection Hstep as <-.
      left. apply sent_run_cleanup.
    + injection Hstep as <-. left. apply sent_poll.
    + injection Hstep as <-. left. reflexivity.
    + destruct (_ && _); [|discriminate]. injection Hstep as <-. left. reflexivity.
    + destruct (timers s !! h) as [tm|] eqn:Hh; [|discriminate].
      destruct (due tm <=? now s)%Z; [|discriminate]. injection Hstep as <-.
      match goal with |- context [run_body _ ?x] => set (s1 := x) end.
      assert (H1 : sent s1 = sent s /\ sockets s1 = sockets s).
      { subst s1. by destruct (every tm). }
      destruct H1 as [Hsent Hsock].
      destruct (body tm) as [ws|tok|m u] eqn:Hb; simpl.
      * unfold heartbeat_tick.
        assert (Hopen : is_open ws s1 = is_open ws s).
        { unfold is_open, ready_state. by rewrite Hsock. }
        rewrite Hopen. destruct (is_open ws s) eqn:Ho.
        -- right. exists h, tm, ws. simpl. rewrite Hsent. done.
        -- left. exact Hsent.
      * left. exact Hsent.
      * left. unfold typing_expire. simpl. by rewrite sent_setTypingStatuses.
    + destruct (sockets s !! ws) as [[[] tok]|]; try discriminate.
      injection Hstep as <-. left. by rewrite sent_onopen.
    + destruct (sockets s !! ws) as [[[] tok]|]; try discriminate.
      injection Hstep as <-. left. apply sent_onmessage.
    + destruct (sockets s !! ws) as [[[] tok]|]; try discriminate;
        injection Hstep as <-; left; by rewrite sent_onclose.
  - intros matchId isTyping s. cbv zeta. unfold sendTypingStatus.
    destruct (wsRef s) as [ws|]; [|right; split; [done | discriminate]].
    destruct (is_open ws s) eqn:Ho.
    + left. eauto.
    + right. split; [done|]. intros ws' [= <-]. exact Ho.
Qed.

(** *** A push that ends typing *)

(** A [typing_status] push with [typing = false] clears the pair's flag at
    once and leaves no timer of the pair pending; the flag of every other
    pair whose two ids do not name a member of [Object.prototype] reads as
    before.  (For such a name the read of line 204 can find the inherited
    member instead of a flag.) *)
Theorem typing_stop_clears_flag_and_timer
    (s : State) (ws : nat) (m u : string) (s' : State) :
  reachable s -> mounted s = true ->
  step (SocketMessage ws (typing_status m u false)) s = Some s' ->
  isUserTypingInMatch s' u m = false /\
  (forall h tm, timers s' !! h = Some tm -> body tm = typing_expiry m u -> False) /\
  (forall m' u', ~ (m = m' /\ u = u') ->
     inherited_name m' = false -> inherited_name u' = false ->
     isUserTypingInMatch s' u' m' = isUserTypingInMatch s u' m').
Proof.
  intros Hreach Hm Hstep. pose proof (reachable_consistent s Hreach) as Hc.
  simpl in Hstep. destruct (sockets s !! ws) as [[[] tok]|]; try discriminate.
  injection Hstep as <-.
  set (ref := typingTimeoutsRef s !! typing_key m u).
  assert (Hm0 : mounted (clear_if_set ref s) = true) by (by destruct ref).
  assert (Hty : typingStatuses (clear_if_set ref s) = typingStatuses s)
    by (by destruct ref).
  unfold setTypingStatuses. rewrite Hm0. unfold isUserTypingInMatch. simpl.
  rewrite Hty. split; [|split].
  - rewrite flag_with_typing. by rewrite decide_True.
  - intros h tm Hl Hb. apply clear_if_set_lookup in Hl as [Hl Hnot].
    destruct (typing_held s Hc _ _ _ _ Hl Hb) as [Hheld _]. apply Hnot, Hheld.
  - intros m' u' Hne _ _. rewrite flag_with_typing. by rewrite decide_False.
Qed.

Lemma typing_stop_clears_flag_and_timer_witness :
  let s :=
    onmessage (typing_status "m1" "u1" true)
      (onopen 0 (set_ready 0 OPEN (mount (Some "tok")))) in
  let s' := onmessage (typing_status "m1" "u1" false) s in
  isUserTypingInMatch s "u1" "m1" = true /\
  isUserTypingInMatch s' "u1" "m1" = false /\
  ~ (exists tm, timers s' !! 2 = Some tm /\ body tm = typing_expiry "m1" "u1").
Proof.
  intros s s'.
  assert (Hreach : reachable s).
  { exists (Some "tok"), [SocketOpen 0; SocketMessage 0 (typing_status "m1" "u1" true)].
    vm_compute. reflexivity. }
  assert (Hstep : step (SocketMessage 0 (typing_status "m1" "u1" false)) s = Some s')
    by (vm_compute; reflexivity).
  destruct (typing_stop_clears_flag_and_timer s 0 "m1" "u1" s' Hreach eq_refl Hstep)
    as (H1 & H2 & _).
  split; [vm_compute; reflexivity|]. split; [exact H1|].
  intros (tm & Hl & Hb). exact (H2 2 tm Hl Hb).
Defined.

(** *** Reconnecting *)

(** After the close event of a socket a reconnect is scheduled exactly
    when a token is stored; it is due 3 s later, and the socket it then
    makes carries the token of the socket that closed, whatever is stored
    by then. *)
Theorem close_event_schedules_reconnect
    (s : State) (ws : nat) (sock : Socket) (s1 : State) :
  sockets s !! ws = Some sock -> step (SocketClose ws) s = Some s1 ->
  match stored_token s with
  | Some _ =>
      reconnectTimeoutRef s1 = Some (next_timer s) /\
      timers s1 !! next_timer s
      = Some (mkTimer (reconnect (url_token sock)) (now s + 3000) None) /\
      (forall s2 s3,
         timers s2 !! next_timer s = timers s1 !! next_timer s ->
         step (Fire (next_timer s)) s2 = Some s3 ->
         wsRef s3 = Some (next_socket s2) /\
         sockets s3 !! next_socket s2
         = Some (mkSocket CONNECTING (url_token sock)))
  | None =>
      reconnectTimeoutRef s1 = reconnectTimeoutRef s /\
      next_timer s1 = next_timer s /\
      (forall h tm, timers s1 !! h = Some tm -> timers s !! h = Some tm)
  end.
Proof.
  intros Hsock Hstep.
  assert (Hon : s1 = onclose (url_token sock) (set_ready ws CLOSED s)).
  { simpl in Hstep. rewrite Hsock in Hstep. destruct sock as [[] tok];
      try discriminate; injection Hstep as <-; reflexivity. }
  subst s1. unfold onclose.
  set (s0 := set_ready ws CLOSED s).
  set (s1 := clear_if_set (heartbeatIntervalRef s0) s0).
  assert (Hst : stored_token s1 = stored_token s).
  { subst s1. unfold stored_token. by destruct (heartbeatIntervalRef s0). }
  assert (Hnt : next_timer s1 = next_timer s)
    by (subst s1; by destruct (heartbeatIntervalRef s0)).
  assert (Hnow : now s1 = now s)
    by (subst s1; by destruct (heartbeatIntervalRef s0)).
  assert (Hrc : reconnectTimeoutRef s1 = reconnectTimeoutRef s)
    by (subst s1; by destruct (heartbeatIntervalRef s0)).
  assert (Hold : forall h tm, timers s1 !! h = Some tm -> timers s !! h = Some tm).
  { intros h tm Hl. subst s1. apply clear_if_set_lookup in Hl as [Hl _]. exact Hl. }
  clearbody s1. rewrite Hst. destruct (stored_token s) as [cur|].
  - simpl. rewrite Hnt, Hnow. split; [reflexivity|].
    split; [by rewrite lookup_insert_eq|].
    intros s2 s3 Hsame Hfire. rewrite lookup_insert_eq in Hsame.
    simpl in Hfire. rewrite Hsame in Hfire. simpl in Hfire.
    destruct (now s + 3000 <=? now s2)%Z; [|discriminate].
    injection Hfire as <-. simpl. split; [reflexivity|].
    by rewrite lookup_insert_eq.
  - split; [exact Hrc|]. split; [exact Hnt|]. exact Hold.
Qed.

Lemma close_event_schedules_reconnect_witness :
  let s := set_storage (Some "tok2") (onopen 0 (set_ready 0 OPEN (mount (Some "tok")))) in
  let s1 := onclose "tok" (set_ready 0 CLOSED s) in
  reconnectTimeoutRef s1 = Some 2 /\
  timers s1 !! 2 = Some (mkTimer (reconnect "tok") 3000 None) /\
  sockets (connect "tok" (clearTimer 2 (set_now 3000 s1))) !! 1
  = Some (mkSocket CONNECTING "tok").
Proof.
  intros s s1.
  assert (Hstep : step (SocketClose 0) s = Some s1) by (vm_compute; reflexivity).
  pose proof (close_event_schedules_reconnect s 0 (mkSocket OPEN "tok") s1
                eq_refl Hstep) as H.
  change (stored_token s) with (Some "tok2") in H.
  destruct H as (H1 & H2 & H3).
  split; [exact H1|]. split; [exact H2|].
  apply (H3 (set_now 3000 s1)); [reflexivity | vm_compute; reflexivity].
Defined.

(** *** Following the stored token *)

Lemma sockets_fresh_set_ready ws r s : sockets_fresh s -> sockets_fresh (set_ready ws r s).
Proof.
  intros [Hs Hw]. split; [|exact Hw]. intros ws' k Hl. simpl in *.
  apply lookup_alter_Some in Hl as [(_ & x & Hx & _)|[_ Hl]]; eauto.
Qed.

Lemma sockets_fresh_ext s s' :
  sockets s' = sockets s -> next_socket s' = next_socket s -> wsRef s' = wsRef s ->
  sockets_fresh s -> sockets_fresh s'.
Proof. intros H1 H2 H3 [Hs Hw]. split; rewrite ?H1, ?H2, ?H3; assumption. Qed.

Lemma sockets_fresh_connect tok s : sockets_fresh s -> sockets_fresh (connect tok s).
Proof.
  intros [Hs Hw]. split; simpl.
  - intros ws k Hl. apply lookup_insert_Some in Hl as [[<- _]|[_ Hl]]; [lia|].
    apply Hs in Hl. lia.
  - intros ws [= <-]. lia.
Qed.

Lemma socket_fields_clear_if_set ref s :
  sockets (clear_if_set ref s) = sockets s /\
  next_socket (clear_if_set ref s) = next_socket s /\
  wsRef (clear_if_set ref s) = wsRef s.
Proof. by destruct ref. Qed.

Lemma socket_fields_cancel_all (l : list (string * nat)) (s : State) :
  let s' := fold_left (fun acc kh => clearTimer (snd kh) acc) l s in
  sockets s' = sockets s /\ next_socket s' = next_socket s /\ wsRef s' = wsRef s.
Proof.
  revert s. induction l as [|kh l IH]; intros s; simpl; [done|].
  destruct (IH (clearTimer (snd kh) s)) as (-> & -> & ->). done.
Qed.

Lemma token_fields_clear_if_set ref s :
  storage (clear_if_set ref s) = storage s /\ token (clear_if_set ref s) = token s.
Proof. by destruct ref. Qed.

Lemma token_fields_cancel_all (l : list (string * nat)) (s : State) :
  let s' := fold_left (fun acc kh => clearTimer (snd kh) acc) l s in
  storage s' = storage s /\ token s' = token s.
Proof.
  revert s. induction l as [|kh l IH]; intros s; simpl; [done|].
  destruct (IH (clearTimer (snd kh) s)) as (-> & ->). done.
Qed.

Lemma token_fields_close ws s :
  storage (close ws s) = storage s /\ token (close ws s) = token s /\
  next_socket (close ws s) = next_socket s /\ wsRef (close ws s) = wsRef s.
Proof. unfold close. by destruct (ready_state ws s) as [[]|]. Qed.

Lemma sockets_fresh_close ws s : sockets_fresh s -> sockets_fresh (close ws s).
Proof.
  intros H. unfold close.
  destruct (ready_state ws s) as [[]|]; auto using sockets_fresh_set_ready.
Qed.

Lemma sockets_fresh_cleanup s : sockets_fresh s -> sockets_fresh (cleanup s).
Proof.
  intros H. unfold cleanup.
  set (s1 := clear_if_set (heartbeatIntervalRef s) s).
  set (s2 := clear_if_set (reconnectTimeoutRef s1) s1).
  set (s3 := fold_left _ _ s2).
  assert (H3 : sockets_fresh s3).
  { destruct (socket_fields_cancel_all (map_to_list (typingTimeoutsRef s2)) s2)
      as (E1 & E2 & E3).
    destruct (socket_fields_clear_if_set (reconnectTimeoutRef s1) s1) as (F1 & F2 & F3).
    destruct (socket_fields_clear_if_set (heartbeatIntervalRef s) s) as (G1 & G2 & G3).
    apply (sockets_fresh_ext s); [| | |exact H]; subst s3 s2 s1; congruence. }
  destruct (wsRef s3); [apply sockets_fresh_close|]; exact H3.
Qed.

Lemma sockets_fresh_run_cleanup s : sockets_fresh s -> sockets_fresh (run_cleanup s).
Proof.
  intros H. unfold run_cleanup. destruct (has_cleanup s); [|exact H].
  apply (sockets_fresh_ext (cleanup s)); try reflexivity.
  apply sockets_fresh_cleanup, H.
Qed.

Lemma sockets_fresh_effect s : sockets_fresh s -> sockets_fresh (effect s).
Proof.
  intros H. unfold effect. destruct (stored_token s).
  - apply (sockets_fresh_ext (connect s0 s)); try reflexivity.
    apply sockets_fresh_connect, H.
  - exact H.
Qed.

Lemma socket_fields_onmessage data s :
  sockets (onmessage data s) = sockets s /\
  next_socket (onmessage data s) = next_socket s /\
  wsRef (onmessage data s) = wsRef s.
Proof.
  destruct data; simpl; try done.
  - unfold setUserStatuses. by destruct (mounted s).
  - unfold setUserStatuses. by destruct (mounted s).
  - unfold setTypingStatuses.
    destruct (socket_fields_clear_if_set (typingTimeoutsRef s !! typing_key match_id user_id) s)
      as (E1 & E2 & E3).
    destruct is_typing, (mounted (clear_if_set _ s)); simpl; done.
Qed.

Lemma sockets_fresh_step e s s' : sockets_fresh s -> step e s = Some s' -> sockets_fresh s'.
Proof.
  intros H Hstep. destruct e; simpl in Hstep.
  - destruct (mounted s); [|discriminate]. injection Hstep as <-.
    apply (sockets_fresh_ext (run_cleanup s)); try reflexivity.
    apply sockets_fresh_run_cleanup, H.
  - injection Hstep as <-. unfold poll. destruct (mounted s); [|exact H].
    case_decide; [exact H|].
    apply sockets_fresh_effect, sockets_fresh_run_cleanup.
    apply (sockets_fresh_ext s); try reflexivity. exact H.
  - injection Hstep as <-. apply (sockets_fresh_ext s); try reflexivity. exact H.
  - destruct (_ && _); [|discriminate]. injection Hstep as <-.
    apply (sockets_fresh_ext s); try reflexivity. exact H.
  - destruct (timers s !! h) as [tm|]; [|discriminate].
    destruct (due tm <=? now s)%Z; [|discriminate]. injection Hstep as <-.
    match goal with |- context [run_body _ ?x] => set (s1 := x) end.
    assert (H1 : sockets_fresh s1).
    { subst s1. destruct (every tm); apply (sockets_fresh_ext s); try reflexivity;
        exact H. }
    destruct (body tm); simpl.
    + unfold heartbeat_tick. destruct (is_open _ _); [|exact H1].
      apply (sockets_fresh_ext s1); try reflexivity. exact H1.
    + apply sockets_fresh_connect, H1.
    + unfold typing_expire, setTypingStatuses.
      destruct (mounted s1); apply (sockets_fresh_ext s1); try reflexivity; exact H1.
  - destruct (sockets s !! ws) as [[[] tok]|]; try discriminate.
    injection Hstep as <-. unfold onopen.
    pose proof (sockets_fresh_set_ready ws OPEN s H) as H0.
    destruct (socket_fields_clear_if_set
                (heartbeatIntervalRef (set_ready ws OPEN s)) (set_ready ws OPEN s))
      as (E1 & E2 & E3).
    eapply sockets_fresh_ext; [..|exact H0]; simpl; assumption.
  - destruct (sockets s !! ws) as [[[] tok]|]; try discriminate.
    injection Hstep as <-.
    destruct (socket_fields_onmessage data s) as (E1 & E2 & E3).
    eapply sockets_fresh_ext; [..|exact H]; assumption.
  - assert (Hon : exists tok, s' = onclose tok (set_ready ws CLOSED s)).
    { destruct (sockets s !! ws) as [[[] tok]|]; try discriminate;
        injection Hstep as <-; eauto. }
    destruct Hon as [tok ->].
    pose proof (sockets_fresh_set_ready ws CLOSED s H) as H0.
    unfold onclose.
    destruct (socket_fields_clear_if_set
                (heartbeatIntervalRef (set_ready ws CLOSED s)) (set_ready ws CLOSED s))
      as (E1 & E2 & E3).
    destruct (stored_token _); simpl;
      (eapply sockets_fresh_ext; [..|exact H0]; simpl; assumption).
Qed.

Lemma sockets_fresh_mount tok : sockets_fresh (mount tok).
Proof.
  unfold mount. apply sockets_fresh_effect.
  split; simpl; intros *; rewrite ?lookup_empty; discriminate.
Qed.

Lemma sockets_fresh_run es s s' : sockets_fresh s -> run es s = Some s' -> sockets_fresh s'.
Proof.
  revert s. induction es as [|e es IH]; simpl; intros s H Hr.
  - injection Hr as <-. exact H.
  - destruct (step e s) eqn:E; [|discriminate]. eauto using sockets_fresh_step.
Qed.

Lemma reachable_sockets_fresh s : reachable s -> sockets_fresh s.
Proof.
  intros (tok & es & H). eapply sockets_fresh_run; [apply sockets_fresh_mount | exact H].
Qed.

Lemma cleanup_closes_socket (s : State) (ws : nat) :
  wsRef s = Some ws ->
  ready_state ws (cleanup s) = Some CLOSING \/
  ready_state ws (cleanup s) = Some CLOSED \/
  ready_state ws (cleanup s) = None.
Proof.
  intros Hw. unfold cleanup.
  set (s1 := clear_if_set (heartbeatIntervalRef s) s).
  set (s2 := clear_if_set (reconnectTimeoutRef s1) s1).
  set (s3 := fold_left _ _ s2).
  assert (H3 : wsRef s3 = Some ws).
  { destruct (socket_fields_cancel_all (map_to_list (typingTimeoutsRef s2)) s2)
      as (_ & _ & E3).
    destruct (socket_fields_clear_if_set (reconnectTimeoutRef s1) s1) as (_ & _ & F3).
    destruct (socket_fields_clear_if_set (heartbeatIntervalRef s) s) as (_ & _ & G3).
    subst s3 s2 s1. congruence. }
  rewrite H3. apply close_ready_state.
Qed.

Lemma cleanup_socket_fields (s : State) :
  next_socket (cleanup s) = next_socket s /\ wsRef (cleanup s) = wsRef s /\
  storage (cleanup s) = storage s /\ token (cleanup s) = token s.
Proof.
  unfold cleanup.
  set (s1 := clear_if_set (heartbeatIntervalRef s) s).
  set (s2 := clear_if_set (reconnectTimeoutRef s1) s1).
  set (s3 := fold_left _ _ s2).
  assert (H3 : next_socket s3 = next_socket s /\ wsRef s3 = wsRef s /\
               storage s3 = storage s /\ token s3 = token s).
  { destruct (socket_fields_cancel_all (map_to_list (typingTimeoutsRef s2)) s2)
      as (_ & E2 & E3).
    destruct (token_fields_cancel_all (map_to_list (typingTimeoutsRef s2)) s2)
      as (E4 & E5).
    destruct (socket_fields_clear_if_set (reconnectTimeoutRef s1) s1) as (_ & F2 & F3).
    destruct (token_fields_clear_if_set (reconnectTimeoutRef s1) s1) as (F4 & F5).
    destruct (socket_fields_clear_if_set (heartbeatIntervalRef s) s) as (_ & G2 & G3).
    destruct (token_fields_clear_if_set (heartbeatIntervalRef s) s) as (G4 & G5).
    subst s3 s2 s1. repeat split; congruence. }
  destruct H3 as (E1 & E2 & E3 & E4).
  destruct (wsRef s3) as [ws|] eqn:Hw; [|repeat split; congruence].
  destruct (token_fields_close ws s3) as (C1 & C2 & C3 & C4).
  repeat split; congruence.
Qed.

Lemma close_other_socket (ws ws' : nat) (s : State) :
  ws <> ws' -> sockets (close ws s) !! ws' = sockets s !! ws'.
Proof.
  intros Hne. unfold close.
  destruct (ready_state ws s) as [[]|]; simpl; rewrite ?lookup_alter_ne; done.
Qed.

Lemma cleanup_other_sockets (s : State) (ws' : nat) :
  wsRef s <> Some ws' -> sockets (cleanup s) !! ws' = sockets s !! ws'.
Proof.
  intros Hne. unfold cleanup.
  set (s1 := clear_if_set (heartbeatIntervalRef s) s).
  set (s2 := clear_if_set (reconnectTimeoutRef s1) s1).
  set (s3 := fold_left _ _ s2).
  assert (H3 : wsRef s3 = wsRef s /\ sockets s3 = sockets s).
  { destruct (socket_fields_cancel_all (map_to_list (typingTimeoutsRef s2)) s2)
      as (E1 & _ & E3).
    destruct (socket_fields_clear_if_set (reconnectTimeoutRef s1) s1) as (F1 & _ & F3).
    destruct (socket_fields_clear_if_set (heartbeatIntervalRef s) s) as (G1 & _ & G3).
    subst s3 s2 s1. split; congruence. }
  destruct H3 as [Hw Hs].
  destruct (wsRef s3) as [ws|] eqn:E; [|by rewrite Hs].
  rewrite close_other_socket by congruence. by rewrite Hs.
Qed.

(** When the poll finds the stored token changed, the hook follows it.
    The token state takes the stored value.  The cleanup closes the socket
    that [wsRef] holds and no other: that socket is closing or closed, and
    every other socket is as it was, so a socket of the previous run of
    the effect that a reconnect has replaced in [wsRef] stays open.  A new
    socket is made, with the stored token, exactly when that token is
    usable: after a logout no socket is made. *)
Theorem poll_follows_stored_token (s : State) :
  reachable s -> mounted s = true -> storage s <> token s ->
  let s' := poll s in
  token s' = storage s /\
  (forall ws, has_cleanup s = true -> wsRef s = Some ws ->
     ready_state ws s' = Some CLOSING \/ ready_state ws s' = Some CLOSED \/
     ready_state ws s' = None) /\
  (forall ws k, sockets s !! ws = Some k -> wsRef s <> Some ws ->
     sockets s' !! ws = Some k) /\
  match stored_token s with
  | Some t =>
      has_cleanup s' = true /\ wsRef s' = Some (next_socket s) /\
      sockets s' !! next_socket s = Some (mkSocket CONNECTING t)
  | None =>
      has_cleanup s' = false /\ next_socket s' = next_socket s /\
      wsRef s' = wsRef s
  end.
Proof.
  intros Hreach Hm Hne. cbv zeta.
  destruct (reachable_sockets_fresh s Hreach) as [Hfresh_s Hfresh].
  unfold poll. rewrite Hm. rewrite decide_False by exact Hne.
  set (s0 := set_token (storage s) s).
  assert (Hrc : token (run_cleanup s0) = storage s /\
                next_socket (run_cleanup s0) = next_socket s /\
                wsRef (run_cleanup s0) = wsRef s /\
                stored_token (run_cleanup s0) = stored_token s /\
                (forall ws, has_cleanup s = true -> wsRef s = Some ws ->
                   ready_state ws (run_cleanup s0) = Some CLOSING \/
                   ready_state ws (run_cleanup s0) = Some CLOSED \/
                   ready_state ws (run_cleanup s0) = None) /\
                (forall ws, wsRef s <> Some ws ->
                   sockets (run_cleanup s0) !! ws = sockets s !! ws)).
  { unfold run_cleanup. replace (has_cleanup s0) with (has_cleanup s) by reflexivity.
    destruct (has_cleanup s); [|repeat split; discriminate].
    destruct (cleanup_socket_fields s0) as (E1 & E2 & E3 & Htok).
    simpl. repeat split; try assumption.
    - unfold stored_token. simpl. by rewrite E3.
    - intros ws _ Hw. apply (cleanup_closes_socket s0 ws Hw).
    - intros ws Hw. apply (cleanup_other_sockets s0 ws Hw). }
  destruct Hrc as (Htok & Hnext & Hws & Hst & Hclosed & Hother).
  unfold effect. rewrite Hst. destruct (stored_token s) as [t|].
  - simpl. rewrite Hnext. split; [exact Htok|]. split; [|split].
    + intros ws Hcl Hw. specialize (Hclosed ws Hcl Hw).
      unfold ready_state in *. simpl.
      rewrite lookup_insert_ne by (specialize (Hfresh ws Hw); lia). exact Hclosed.
    + intros ws k Hk Hw.
      rewrite lookup_insert_ne by (specialize (Hfresh_s ws k Hk); lia).
      by rewrite Hother.
    + split; [reflexivity|]. split; [reflexivity|]. by rewrite lookup_insert_eq.
  - simpl. split; [exact Htok|]. split; [exact Hclosed|]. split; [|done].
    intros ws k Hk Hw. by rewrite Hother.
Qed.

Lemma poll_follows_stored_token_witness :
  let a := onopen 0 (set_ready 0 OPEN (mount (Some "tok"))) in
  let b := poll (set_storage (Some "tok2") a) in
  let c := onclose "tok" (set_ready 0 CLOSED b) in
  let d := onopen 1 (set_ready 1 OPEN c) in
  let e := connect "tok" (clearTimer 2 (set_now 3000 d)) in
  let s := set_storage (Some "tok3") e in
  wsRef s = Some 2 /\
  token (poll s) = Some "tok3" /\
  (ready_state 2 (poll s) = Some CLOSING \/ ready_state 2 (poll s) = Some CLOSED \/
   ready_state 2 (poll s) = None) /\
  sockets (poll s) !! 1 = Some (mkSocket OPEN "tok2") /\
  wsRef (poll s) = Some 3 /\
  sockets (poll s) !! 3 = Some (mkSocket CONNECTING "tok3").
Proof.
  intros a b c d e s.
  assert (Hreach : reachable s).
  { exists (Some "tok"),
      [SocketOpen 0; StorageSet (Some "tok2"); Poll; SocketClose 0; SocketOpen 1;
       Elapse 3000; Fire 2; StorageSet (Some "tok3")].
    vm_compute. reflexivity. }
  assert (Hne : storage s <> token s) by (vm_compute; discriminate).
  pose proof (poll_follows_stored_token s Hreach eq_refl Hne) as H.
  cbv zeta in H. change (stored_token s) with (Some "tok3") in H.
  destruct H as (H1 & H2 & H3 & _ & H4 & H5).
  split; [reflexivity|]. split; [exact H1|].
  split; [apply H2; reflexivity|].
  split; [apply H3; [vm_compute; reflexivity | vm_compute; discriminate]|].
  split; [exact H4 | exact H5].
Defined.

(** *** Subscribing the same function twice *)

Lemma set_add_present (cb : Callback) (l : list Callback) :
  In cb l -> set_add cb l = l.
Proof.
  intros Hin. unfold set_add.
  assert (H : existsb (Nat.eqb cb) l = true).
  { apply existsb_exists. exists cb. split; [exact Hin | apply Nat.eqb_refl]. }
  rewrite H. reflexivity.
Qed.

Lemma set_add_NoDup (cb : Callback) (l : list Callback) :
  List.NoDup l -> List.NoDup (set_add cb l).
Proof.
  intros Hnd. unfold set_add. destruct (existsb (Nat.eqb cb) l) eqn:E; [exact Hnd|].
  apply NoDup_ListNoDup, NoDup_app. split; [apply NoDup_ListNoDup, Hnd|]. split.
  - intros x Hx Hx'. apply list_elem_of_singleton in Hx'. subst x.
    apply list_elem_of_In in Hx.
    assert (H : existsb (Nat.eqb cb) l = true).
    { apply existsb_exists. exists cb. split; [exact Hx | apply Nat.eqb_refl]. }
    congruence.
  - apply NoDup_singleton.
Qed.

(** The registries are sets of function references, so two subscriptions
    of the same function are one: the second changes nothing, a push calls
    the function once, and the unsubscribe of either subscription ends
    both. *)
Theorem repeated_subscription_registers_once (cb : Callback) (s : State) :
  List.NoDup (messageListenersRef s) ->
  let s1 := fst (onNewMessage cb s) in
  let unsubscribe1 := snd (onNewMessage cb s) in
  let s2 := fst (onNewMessage cb s1) in
  s2 = s1 /\
  count_occ Nat.eq_dec (messageListenersRef s2) cb = 1 /\
  ~ In cb (messageListenersRef (unsubscribe1 s2)).
Proof.
  intros Hnd. cbv zeta. simpl.
  assert (Hin : In cb (set_add cb (messageListenersRef s))).
  { apply set_add_In. left. reflexivity. }
  rewrite (set_add_present cb _ Hin). split; [reflexivity|]. split.
  - apply NoDup_count_occ'; [apply set_add_NoDup, Hnd | exact Hin].
  - intros H. apply set_delete_In in H as [_ H]. congruence.
Qed.

Lemma repeated_subscription_registers_once_witness :
  let s := fst (onNewMessage 7 (mount (Some "tok"))) in
  fst (onNewMessage 4 (fst (onNewMessage 4 s))) = fst (onNewMessage 4 s) /\
  count_occ Nat.eq_dec
    (messageListenersRef (fst (onNewMessage 4 (fst (onNewMessage 4 s))))) 4 = 1 /\
  ~ In 4 (messageListenersRef
            (snd (onNewMessage 4 s) (fst (onNewMessage 4 (fst (onNewMessage 4 s)))))).
Proof.
  intros s. apply (repeated_subscription_registers_once 4 s).
  repeat constructor. simpl. tauto.
Defined.

End HookFacts.

(* ===================================================================== *)
(** * Properties of the authentication provider *)
(* ===================================================================== *)

Section AuthFacts.
Import Json Api Auth.
Variable env : option string.
Variable to_string : value -> string.

Lemma is_admin_role_true (role : value) :
  is_admin_role role = true -> role = VStr "admin".
Proof.
  destruct role; simpl; try discriminate. intros H.
  apply String.eqb_eq in H. by subst.
Qed.

Lemma role_gives_truthy (u role : value) :
  read_prop u "role" = Some role -> is_admin_role role = true -> truthy u = true.
Proof.
  intros Hr Ha. apply is_admin_role_true in Ha. subst role.
  destruct u; simpl in *; try discriminate; try reflexivity.
Qed.

Lemma admin_only_sync data isLoading a :
  admin_only a -> admin_only (sync_effect env data isLoading a).
Proof.
  intros H. unfold sync_effect.
  destruct (truthy (optional_user data)) eqn:Ht.
  - destruct (read_prop (optional_user data) "role") as [role|] eqn:Hr; [|exact H].
    destruct (is_admin_role role) eqn:Ha; simpl.
    + intros u [= <-]. split; [exact Ht|].
      apply is_admin_role_true in Ha. by subst.
    + intros u [=].
  - destruct isLoading; simpl; [exact H|]. intros u [=].
Qed.

Lemma login_user fetch email password a :
  let a' := fst (login to_string fetch email password a) in
  user a' = user a \/
  exists u, user a' = Some u /\ truthy u = true /\
            read_prop u "role" = Some (VStr "admin").
Proof.
  cbv zeta. unfold login.
  destruct (apiFetch _ _ _ _ _) as [pg [data|o]]; [|left; reflexivity].
  unfold login_onSuccess.
  destruct (read_prop data "user") as [u|]; [|left; reflexivity].
  destruct (read_prop u "role") as [role|] eqn:Hr; [|left; reflexivity].
  destruct (is_admin_role role) eqn:Ha; simpl; [|left; reflexivity].
  right. exists u. split; [reflexivity|].
  split; [eapply role_gives_truthy; eassumption|].
  apply is_admin_role_true in Ha. by subst.
Qed.

Lemma logout_user fetch a :
  let a' := fst (logout fetch a) in user a' = user a \/ user a' = None.
Proof.
  cbv zeta. unfold logout.
  destruct (apiFetch _ _ _ _ _) as [pg [data|o]]; [right|left]; reflexivity.
Qed.

Lemma admin_only_step e a : admin_only a -> admin_only (step env to_string e a).
Proof.
  intros H. destruct e; simpl.
  - apply admin_only_sync, H.
  - destruct (login_user fetch email password a) as [E|(u & E & Ht & Hr)];
      intros u'; rewrite E; [apply H|]. intros [= <-]. auto.
  - destruct (logout_user fetch a) as [E|E]; intros u'; rewrite E; [apply H|].
    discriminate.
  - exact H.
Qed.

Lemma admin_only_run es a : admin_only a -> admin_only (run env to_string es a).
Proof.
  revert a. induction es as [|e es IH]; intros a H; simpl; [exact H|].
  apply IH, admin_only_step, H.
Qed.

(** Whatever the server answers and in whatever order queries, logins,
    logouts and other requests happen, the protected pages are rendered
    only while the provider holds a user whose role is [admin]. *)
Theorem protected_content_only_for_admin
    (pg : Page) (es : list Event) (isLoading : bool) :
  let a := run env to_string es (initial pg) in
  fst (ProtectedRoute (context_isLoading isLoading a) (isAuthenticated a)) = Children ->
  isLoading = false /\ isInitialized a = true /\
  exists u, user a = Some u /\ read_prop u "role" = Some (VStr "admin").
Proof.
  cbv zeta. set (a := run env to_string es (initial pg)).
  assert (H : admin_only a).
  { apply admin_only_run. intros u [=]. }
  unfold ProtectedRoute, context_isLoading, isAuthenticated. simpl.
  destruct isLoading; simpl; [discriminate|].
  destruct (isInitialized a); simpl; [|discriminate].
  destruct (user a) as [u|] eqn:Hu; simpl; [|discriminate].
  intros _. split; [reflexivity|]. split; [reflexivity|].
  exists u. split; [reflexivity|]. apply (H u). exact Hu.
Qed.

End AuthFacts.

Section ProviderExample.
Import Json Api Auth.

Lemma protected_content_only_for_admin_witness :
  let admin := VObj [("id", VStr "1"); ("role", VStr "admin")] in
  let fetch := fun _ : Request =>
    Some (mkResponse true 200 "OK"
            (Some (VObj [("token", VStr "t1"); ("user", admin)]))) in
  let a :=
    Auth.run None (fun v => match v with VStr t => t | _ => "" end)
      [Login fetch "root@ikonetu.com" "pw"; QueryResult (VObj [("user", admin)]) false]
      (initial (mkPage None (Some "/login") None)) in
  false = false /\ isInitialized a = true /\
  exists u, user a = Some u /\ read_prop u "role" = Some (VStr "admin").
Proof.
  intros admin fetch a.
  apply (protected_content_only_for_admin None
           (fun v => match v with VStr t => t | _ => "" end)
           (mkPage None (Some "/login") None)
           [Login fetch "root@ikonetu.com" "pw"; QueryResult (VObj [("user", admin)]) false]
           false).
  reflexivity.
Defined.

End ProviderExample.

Section SessionFacts.
Import Json Api Auth.
Variable to_string : value -> string.

Lemma login_sends (pg : Page) (email password : string) :
  build_request (removeItem pg) "POST" "/api/auth/login"
    (VObj [("email", VStr email); ("password", VStr password)])
  = login_request email password.
Proof. reflexivity. Qed.

Lemma admin_is_object (u : value) :
  read_prop u "role" = Some (VStr "admin") -> exists props, u = VObj props.
Proof. destruct u; simpl; try discriminate. eauto. Qed.

Lemma user_holder_is_object (data u : value) :
  read_prop data "user" = Some u -> u <> VUndefined -> exists props, data = VObj props.
Proof. destruct data; simpl; try discriminate; try congruence. eauto. Qed.

(** How a login settles.  It fails without a token in storage, also a
    token of an earlier session, and leaves the user state as it was.  It
    succeeds only on a success response whose converted body names a user
    with role [admin]; that user is then signed in, and the body's token is
    stored when it is truthy (no token is stored otherwise).  The request
    is the same whatever was stored before: it never carries an
    [Authorization] header. *)
Theorem login_outcome
    (fetch : Request -> option Response) (email password : string) (a : AuthState) :
  let result := login to_string fetch email password a in
  let a' := fst result in
  (snd result = Rejected -> auth_token (page a') = None /\ user a' = user a) /\
  (snd result = Fulfilled ->
     exists r body u,
       fetch (login_request email password) = Some r /\ ok r = true /\
       json r = Some body /\
       read_prop (keysToCamel body) "user" = Some u /\
       read_prop u "role" = Some (VStr "admin") /\
       user a' = Some u /\
       auth_token (page a') =
         (let token := field (keysToCamel body) "token" in
          if truthy token then Some (to_string token) else None)).
Proof.
  cbv zeta. unfold login.
  destruct (apiFetch fetch (removeItem (page a)) "POST" "/api/auth/login"
              (VObj [("email", VStr email); ("password", VStr password)]))
    as [pg [data|o]] eqn:E.
  - apply apiFetch_value in E as (-> & r & body & Hf & Hok & Hj & ->).
    rewrite login_sends in Hf. unfold login_onSuccess.
    destruct (read_prop (keysToCamel body) "user") as [u|] eqn:Hu;
      [|split; [done | discriminate]].
    destruct (read_prop u "role") as [role|] eqn:Hr;
      [|split; [done | discriminate]].
    destruct (is_admin_role role) eqn:Ha; simpl; [|split; [done | discriminate]].
    split; [discriminate|]. intros _.
    apply is_admin_role_true in Ha. subst role.
    exists r, body, u. repeat (split; [assumption || reflexivity|]).
    destruct (admin_is_object u Hr) as [uprops ->].
    destruct (user_holder_is_object _ _ Hu) as [props Hd]; [discriminate|].
    rewrite Hd. simpl.
    destruct (obj_get props "token") as [t|]; simpl; [|reflexivity].
    destruct (truthy t); reflexivity.
  - split; [|discriminate]. intros _. simpl.
    apply apiFetch_failure_page in E as [->| ->]; split; reflexivity.
Qed.

(** How a logout settles.  It succeeds exactly when the server answers the
    request with a success status and a body that is JSON; only then are
    the token removed and the user cleared.  When the request fails, the
    user stays signed in, and the token stays too unless the failure was a
    401. *)
Theorem logout_outcome (fetch : Request -> option Response) (a : AuthState) :
  let result := logout fetch a in
  let a' := fst result in
  (snd result = Fulfilled <->
     exists r body,
       fetch (build_request (page a) "POST" "/api/auth/logout" (VObj [])) = Some r /\
       ok r = true /\ json r = Some body) /\
  (snd result = Fulfilled -> user a' = None /\ auth_token (page a') = None) /\
  (snd result = Rejected ->
     user a' = user a /\
     (page a' = page a \/ page a' = on_unauthorized (page a))).
Proof.
  cbv zeta. unfold logout.
  destruct (apiFetch fetch (page a) "POST" "/api/auth/logout" (VObj []))
    as [pg [data|o]] eqn:E; simpl.
  - pose proof E as E'.
    apply apiFetch_value in E as (-> & r & body & Hf & Hok & Hj & ->).
    split; [|split; [done | discriminate]].
    split; [intros _; eauto | done].
  - split; [|split; [discriminate|]].
    + split; [discriminate|]. intros (r & body & Hf & Hok & Hj).
      exfalso. revert E. unfold apiFetch, apiRequest. rewrite Hf.
      unfold handle_response. rewrite Hok. simpl. rewrite Hj. discriminate.
    + intros _. split; [reflexivity|].
      apply apiFetch_failure_page in E. exact E.
Qed.

End SessionFacts.
